(** * Geodesic sphere generation (lib/geodesic_math.py, BuckmisterFusion.py)

    A shallow embedding of [GeodesicCalculator]: the icosahedron, the
    barycentric subdivision of one triangle, normalize-and-scale and the
    merge of duplicate vertices, followed by the properties of the mesh;
    and of the add-in's execute handler, which draws the mesh in the host
    application.

    Python [float] is IEEE 754 binary64, which is Rocq's primitive [float];
    [+], [-], [*], [/] and [math.sqrt] are the correctly rounded operations.
    An [int] that meets a [float] in an operation denotes the float of the
    same value.  Python's exceptions are values of [exn]; a computation that
    can raise returns a [result]. *)

From Stdlib Require Import ZArith QArith List Bool Lia Floats Permutation.
Import ListNotations.
Close Scope Q_scope.

Set Implicit Arguments.

(** ** Exceptions *)

Inductive exn : Type :=
| ZeroDivisionError
| ValueError
| KeyError
| IndexError.

Inductive result (A : Type) : Type :=
| Ok (a : A)
| Raise (e : exn).

Arguments Ok {A} a.
Arguments Raise {A} e.

Definition bind {A B : Type} (c : result A) (k : A -> result B) : result B :=
  match c with
  | Ok a => k a
  | Raise e => Raise e
  end.

Declare Scope py_scope.
Delimit Scope py_scope with py.
Notation "x <- c ;; k" := (bind c (fun x => k))
  (at level 61, c at next level, right associativity) : py_scope.
Notation "' pat <- c ;; k" := (bind c (fun x => match x with pat => k end))
  (at level 61, pat pattern, c at next level, right associativity) : py_scope.
Open Scope py_scope.

(** A [for] loop whose body may raise: the state is threaded from left to
    right and the first exception ends the loop. *)
Fixpoint for_each {S A : Type} (body : S -> A -> result S) (s : S) (l : list A)
  : result S :=
  match l with
  | [] => Ok s
  | a :: l' => s' <- body s a ;; for_each body s' l'
  end.

(** A list comprehension whose element expression may raise. *)
Fixpoint map_result {A B : Type} (f : A -> result B) (l : list A)
  : result (list B) :=
  match l with
  | [] => Ok []
  | a :: l' => b <- f a ;; bs <- map_result f l' ;; Ok (b :: bs)
  end.

(** ** Python primitives *)

(** [range(n)]: [0, 1, ..., n-1], empty when [n <= 0]. *)
Definition py_range (n : Z) : list Z := map Z.of_nat (seq 0 (Z.to_nat n)).

(** [len(l)]. *)
Definition len {A : Type} (l : list A) : Z := Z.of_nat (length l).

(** [l[i]]: a negative index counts from the end; out of range raises. *)
Definition py_index {A : Type} (l : list A) (i : Z) : result A :=
  let j := if (i <? 0)%Z then (len l + i)%Z else i in
  if (j <? 0)%Z then Raise IndexError
  else match nth_error l (Z.to_nat j) with
       | Some a => Ok a
       | None => Raise IndexError
       end.

(** [x / y] on floats. *)
Definition py_truediv (x y : float) : result float :=
  if (y =? 0)%float then Raise ZeroDivisionError else Ok (x / y)%float.

(** [i / n] on ints: the quotient of the two integers, rounded once. *)
Definition Z2SF (z : Z) : spec_float :=
  match z with
  | Z0 => S754_zero false
  | Zpos p => S754_finite false p 0
  | Zneg p => S754_finite true p 0
  end.

Definition int_truediv (i n : Z) : result float :=
  if (n =? 0)%Z then Raise ZeroDivisionError
  else Ok (SF2Prim (SFdiv prec emax (Z2SF i) (Z2SF n))).

(** [math.sqrt]. *)
Definition math_sqrt (x : float) : result float :=
  if (x <? 0)%float then Raise ValueError else Ok (sqrt x).

(** [math.pi]. *)
Definition math_pi : float := 0x1.921fb54442d18p+1%float.

(** ** Dictionaries

    A [dict] in insertion order.  Lookup compares keys with the key type's
    [==]; on floats that is IEEE equality, so [0.0] and [-0.0] are one key
    and a key holding a NaN is never found again. *)
Section Dict.
Context {K V : Type}.
Variable eqb : K -> K -> bool.

Definition dict : Type := list (K * V).

Fixpoint dict_get (d : dict) (k : K) : option V :=
  match d with
  | [] => None
  | (k', v) :: d' => if eqb k' k then Some v else dict_get d' k
  end.

(** [k in d]. *)
Definition dict_mem (d : dict) (k : K) : bool :=
  match dict_get d k with
  | Some _ => true
  | None => false
  end.

(** [d[k]]. *)
Definition dict_lookup (d : dict) (k : K) : result V :=
  match dict_get d k with
  | Some v => Ok v
  | None => Raise KeyError
  end.

(** [d[k] = v]. *)
Fixpoint dict_set (d : dict) (k : K) (v : V) : dict :=
  match d with
  | [] => [(k, v)]
  | (k', v') :: d' =>
      if eqb k' k then (k', v) :: d' else (k', v') :: dict_set d' k v
  end.
End Dict.

(** ** Points, keys and faces *)

Definition point : Type := float * float * float.
Definition face : Type := Z * Z * Z.

Definition key_eqb (k1 k2 : point) : bool :=
  let '(a1, b1, c1) := k1 in
  let '(a2, b2, c2) := k2 in
  ((a1 =? a2)%float && (b1 =? b2)%float && (c1 =? c2)%float)%bool.

Definition zero_point : point := (0, 0, 0)%float.

(** The keys of the first pass of the merge: a position or a rounded tuple.
    A tuple never equals an int. *)
Inductive pykey : Type :=
| KInt (i : Z)
| KTuple (k : point).

Definition pykey_eqb (k1 k2 : pykey) : bool :=
  match k1, k2 with
  | KInt i, KInt j => (i =? j)%Z
  | KTuple a, KTuple b => key_eqb a b
  | _, _ => false
  end.

(** [adsk.core.Point3D.create(p[0], p[1], p[2])]: the host's point with the
    same three coordinates. *)
Definition Point3D_create (p : point) : point :=
  let '(x, y, z) := p in (x, y, z).

(** The literals [0.4] and [0.8]. *)
Definition f0_4 : float := 0x1.999999999999ap-2%float.
Definition f0_8 : float := 0x1.999999999999ap-1%float.

(** ** The calculator *)

Record GeodesicCalculator : Type := {
  radius : float;
  frequency : Z;
  points : list point;
  faces : list face
}.

(** [__init__]. *)
Definition init (r : float) (f : Z) : GeodesicCalculator :=
  {| radius := r; frequency := f; points := []; faces := [] |}.

Definition sum_of_squares (v : point) : float :=
  let '(x, y, z) := v in (x * x + y * y + z * z)%float.

(** The computed length of [v]. *)
Definition length_of (v : point) : float := sqrt (sum_of_squares v).

Section Calculator.
(** [round(coord, 8)], [math.cos] and [math.sin]. *)
Variable round8 : float -> float.
Variables math_cos math_sin : float -> float.

Variable self : GeodesicCalculator.

Definition _normalize_and_scale (v : point) : result point :=
  let '(x, y, z) := v in
  length <- math_sqrt (x * x + y * y + z * z)%float ;;
  if (length =? 0)%float then Ok zero_point
  else
    px <- py_truediv (radius self * x)%float length ;;
    py <- py_truediv (radius self * y)%float length ;;
    pz <- py_truediv (radius self * z)%float length ;;
    Ok (px, py, pz).

(** [tuple(round(coord, 8) for coord in v)]. *)
Definition key_of (v : point) : point :=
  let '(x, y, z) := v in (round8 x, round8 y, round8 z).

(** *** The icosahedron *)

Definition ico_faces : list face :=
  [ (1, 2, 0); (2, 3, 0); (3, 4, 0); (4, 5, 0); (5, 1, 0);
    (5, 6, 1); (1, 7, 2); (2, 8, 3); (3, 9, 4); (4, 10, 5);
    (1, 6, 7); (2, 7, 8); (3, 8, 9); (4, 9, 10); (5, 10, 6);
    (6, 11, 7); (7, 11, 8); (8, 11, 9); (9, 11, 10); (10, 11, 6) ]%Z.

Definition raw_icosahedron (sine_of_phi cosine_of_phi PI : float)
  : list point :=
  [ (0, 0, 1);
    (sine_of_phi, 0, cosine_of_phi);
    (sine_of_phi * math_cos (f0_4 * PI), sine_of_phi * math_sin (f0_4 * PI), cosine_of_phi);
    (sine_of_phi * math_cos (f0_8 * PI), sine_of_phi * math_sin (f0_8 * PI), cosine_of_phi);
    (sine_of_phi * math_cos (f0_8 * PI), (- sine_of_phi) * math_sin (f0_8 * PI), cosine_of_phi);
    (sine_of_phi * math_cos (f0_4 * PI), (- sine_of_phi) * math_sin (f0_4 * PI), cosine_of_phi);
    ((- sine_of_phi) * math_cos (f0_8 * PI), (- sine_of_phi) * math_sin (f0_8 * PI), - cosine_of_phi);
    ((- sine_of_phi) * math_cos (f0_8 * PI), sine_of_phi * math_sin (f0_8 * PI), - cosine_of_phi);
    ((- sine_of_phi) * math_cos (f0_4 * PI), sine_of_phi * math_sin (f0_4 * PI), - cosine_of_phi);
    (- sine_of_phi, 0, - cosine_of_phi);
    ((- sine_of_phi) * math_cos (f0_4 * PI), (- sine_of_phi) * math_sin (f0_4 * PI), - cosine_of_phi);
    (0, 0, -1) ]%float.

Definition _create_icosahedron : result (list point * list face) :=
  root5 <- math_sqrt 5 ;;
  sine_of_phi <- py_truediv 2 root5 ;;
  let cosine_of_phi := (0.5 * sine_of_phi)%float in
  let PI := math_pi in
  let verts := raw_icosahedron sine_of_phi cosine_of_phi PI in
  verts <- map_result _normalize_and_scale verts ;;
  Ok (verts, ico_faces).

(** *** Subdivision of one triangle *)

(** The barycentric weights [a] and [b] of grid position [(i, j)]. *)
Definition weights (freq i j : Z) : result (float * float) :=
  if (freq >? 0)%Z then
    a <- int_truediv i freq ;;
    b <- int_truediv j freq ;;
    Ok (a, b)
  else Ok (0, 0)%float.

(** The grid sample at [(i, j)]: interpolated, then projected. *)
Definition grid_sample (v0 v1 v2 : point) (freq i j : Z) : result point :=
  let '(v0x, v0y, v0z) := v0 in
  let '(v1x, v1y, v1z) := v1 in
  let '(v2x, v2y, v2z) := v2 in
  '(a, b) <- weights freq i j ;;
  let c := (1 - a - b)%float in
  let x := (a * v0x + b * v1x + c * v2x)%float in
  let y := (a * v0y + b * v1y + c * v2y)%float in
  let z := (a * v0z + b * v1z + c * v2z)%float in
  _normalize_and_scale (x, y, z).

(** The state of the grid loops: [verts], [vert_map], and the row or the
    grid under construction. *)
Definition grid_state (R : Type) : Type :=
  (list point * dict (K := point) (V := Z) * R)%type.

(** The body of the inner loop.  The key stored by [vert_map[key] = ...]
    is the object looked up right after, which a dict finds by identity
    before it compares: the index read back is the one just stored. *)
Definition grid_cell (v0 v1 v2 : point) (freq i : Z)
    (st : grid_state (list Z)) (j : Z) : result (grid_state (list Z)) :=
  let '(verts, vert_map, row) := st in
  pt <- grid_sample v0 v1 v2 freq i j ;;
  let key := key_of pt in
  if negb (dict_mem key_eqb vert_map key) then
    let vert_map' := dict_set key_eqb vert_map key (len verts) in
    Ok (verts ++ [pt], vert_map', row ++ [len verts])
  else
    idx <- dict_lookup key_eqb vert_map key ;;
    Ok (verts, vert_map, row ++ [idx]).

(** The body of the outer loop: one row of the grid. *)
Definition grid_row (v0 v1 v2 : point) (freq : Z)
    (st : grid_state (list (list Z))) (i : Z)
  : result (grid_state (list (list Z))) :=
  let '(verts, vert_map, grid) := st in
  '(verts', vert_map', row) <-
    for_each (grid_cell v0 v1 v2 freq i) (verts, vert_map, [])
             (py_range (freq + 1 - i)) ;;
  Ok (verts', vert_map', grid ++ [row]).

Definition build_grid (v0 v1 v2 : point) (freq : Z)
  : result (list point * list (list Z)) :=
  '(verts, _, grid) <-
    for_each (grid_row v0 v1 v2 freq) ([], [], []) (py_range (freq + 1)) ;;
  Ok (verts, grid).

(** [grid[i][j]]. *)
Definition grid_at (grid : list (list Z)) (i j : Z) : result Z :=
  row <- py_index grid i ;; py_index row j.

Definition face_cell (grid : list (list Z)) (freq i : Z)
    (faces : list face) (j : Z) : result (list face) :=
  vA <- grid_at grid i j ;;
  vB <- grid_at grid (i + 1) j ;;
  vC <- grid_at grid i (j + 1) ;;
  let faces := faces ++ [(vA, vB, vC)] in
  if (j <? freq - i - 1)%Z then
    vD <- grid_at grid (i + 1) (j + 1) ;;
    Ok (faces ++ [(vB, vD, vC)])
  else Ok faces.

Definition face_row (grid : list (list Z)) (freq : Z)
    (faces : list face) (i : Z) : result (list face) :=
  for_each (face_cell grid freq i) faces (py_range (freq - i)).

Definition grid_faces (grid : list (list Z)) (freq : Z)
  : result (list face) :=
  for_each (face_row grid freq) [] (py_range freq).

Definition _subdivide_triangle (v0 v1 v2 : point) (freq : Z)
  : result (list point * list face) :=
  '(verts, grid) <- build_grid v0 v1 v2 freq ;;
  faces <- grid_faces grid freq ;;
  Ok (verts, faces).

(** *** Merging duplicate vertices *)

(** [enumerate(l)]. *)
Definition enumerate {A : Type} (l : list A) : list (Z * A) :=
  combine (py_range (len l)) l.

(** First pass.  [vert_map] is indexed by the position [i] but tested
    with the rounded tuple. *)
Definition merge_pass1 (st : dict (K := pykey) (V := Z) * list point)
    (iv : Z * point) : result (dict (K := pykey) (V := Z) * list point) :=
  let '(vert_map, unique_verts) := st in
  let '(i, v) := iv in
  let key := key_of v in
  if negb (dict_mem pykey_eqb vert_map (KTuple key)) then
    Ok (dict_set pykey_eqb vert_map (KInt i) (len unique_verts),
        unique_verts ++ [v])
  else
    x <- dict_lookup pykey_eqb vert_map (KTuple key) ;;
    Ok (dict_set pykey_eqb vert_map (KInt i) x, unique_verts).

(** Second pass: [final_map], appending to the same [unique_verts]. *)
Definition merge_pass2 (verts : list point)
    (st : dict (K := point) (V := Z) * list point) (i : Z)
  : result (dict (K := point) (V := Z) * list point) :=
  let '(final_map, unique_verts) := st in
  v <- py_index verts i ;;
  let key := key_of v in
  if negb (dict_mem key_eqb final_map key) then
    Ok (dict_set key_eqb final_map key (len unique_verts),
        unique_verts ++ [v])
  else Ok (final_map, unique_verts).

(** Third pass: [index_map] and a fresh [unique_verts]. *)
Definition merge_pass3 (st : dict (K := point) (V := Z) * list point)
    (iv : Z * point) : result (dict (K := point) (V := Z) * list point) :=
  let '(index_map, unique_verts) := st in
  let '(_, v) := iv in
  let key := key_of v in
  if negb (dict_mem key_eqb index_map key) then
    Ok (dict_set key_eqb index_map key (len unique_verts),
        unique_verts ++ [v])
  else Ok (index_map, unique_verts).

(** [index_map[tuple(round(coord, 8) for coord in verts[i])]]. *)
Definition remap_index (verts : list point)
    (index_map : dict (K := point) (V := Z)) (i : Z) : result Z :=
  v <- py_index verts i ;;
  dict_lookup key_eqb index_map (key_of v).

Definition remap_face (verts : list point)
    (index_map : dict (K := point) (V := Z))
    (new_faces : list face) (f : face) : result (list face) :=
  let '(f0, f1, f2) := f in
  v0 <- py_index verts f0 ;;
  let v0_key := key_of v0 in
  v1 <- py_index verts f1 ;;
  let v1_key := key_of v1 in
  v2 <- py_index verts f2 ;;
  let v2_key := key_of v2 in
  n0 <- dict_lookup key_eqb index_map v0_key ;;
  n1 <- dict_lookup key_eqb index_map v1_key ;;
  n2 <- dict_lookup key_eqb index_map v2_key ;;
  if (negb (n0 =? n1) && negb (n1 =? n2) && negb (n0 =? n2))%Z%bool then
    Ok (new_faces ++ [(n0, n1, n2)])
  else Ok new_faces.

Definition _merge_duplicates (verts : list point) (faces : list face)
  : result (list point * list face) :=
  '(vert_map, unique_verts) <-
    for_each merge_pass1 ([], []) (enumerate verts) ;;
  '(final_map, unique_verts) <-
    for_each (merge_pass2 verts) ([], unique_verts) (py_range (len verts)) ;;
  '(index_map, unique_verts) <-
    for_each merge_pass3 ([], []) (enumerate verts) ;;
  new_faces <- for_each (remap_face verts index_map) [] faces ;;
  Ok (unique_verts, new_faces).

(** *** The whole computation *)

Definition offset_face (offset : Z) (f : face) : face :=
  let '(f0, f1, f2) := f in (f0 + offset, f1 + offset, f2 + offset)%Z.

Definition subdivide_face (ico_verts : list point)
    (st : list point * list face) (entry : Z * face)
  : result (list point * list face) :=
  let '(all_verts, all_faces) := st in
  let '(face_idx, (f0, f1, f2)) := entry in
  v0 <- py_index ico_verts f0 ;;
  v1 <- py_index ico_verts f1 ;;
  v2 <- py_index ico_verts f2 ;;
  '(face_verts, face_faces) <-
    _subdivide_triangle v0 v1 v2 (frequency self) ;;
  let offset := len all_verts in
  Ok (all_verts ++ face_verts,
      all_faces ++ map (offset_face offset) face_faces).

(** The buffers handed to the merge. *)
Definition accumulate : result (list point * list face) :=
  '(ico_verts, ico_faces) <- _create_icosahedron ;;
  for_each (subdivide_face ico_verts) ([], []) (enumerate ico_faces).

Definition calculate : result GeodesicCalculator :=
  '(all_verts, all_faces) <- accumulate ;;
  '(points, faces) <- _merge_duplicates all_verts all_faces ;;
  let points := map Point3D_create points in
  Ok {| radius := radius self; frequency := frequency self;
        points := points; faces := faces |}.

End Calculator.

(** ** The interpreter's [round] and the C library's [cos] and [sin] *)

(** The integer nearest to [num / den], ties to the even one ([den > 0]). *)
Definition round_half_even (num den : Z) : Z :=
  let q := (num / den)%Z in
  let r := (num mod den)%Z in
  match (2 * r ?= den)%Z with
  | Lt => q
  | Gt => (q + 1)%Z
  | Eq => if Z.even q then q else (q + 1)%Z
  end.

Definition signed_int (s : bool) (n : Z) : spec_float :=
  match n with
  | Zpos p => S754_finite s p 0
  | _ => S754_zero s
  end.

Definition ten_pow_8 : Z := 100000000.

(** [round(x, 8)] on a float: the exact value of [x] is rounded to the
    nearest multiple of [10^-8], ties to even, and that decimal is converted
    to the nearest float; the sign is kept, and zeros, infinities and NaN
    round to themselves. *)
Definition py_round8 (x : float) : float :=
  match Prim2SF x with
  | S754_finite s m e =>
      let n := match e with
               | Zneg p => round_half_even (Zpos m * ten_pow_8) (2 ^ Zpos p)
               | _ => (Zpos m * ten_pow_8 * 2 ^ e)%Z
               end in
      SF2Prim (SFdiv prec emax (signed_int s n) (Z2SF ten_pow_8))
  | _ => x
  end.

(** The two arguments at which the program evaluates [math.cos] and
    [math.sin], [0.4 * math.pi] and [0.8 * math.pi], with the correctly
    rounded values the C library returns there. *)
Definition libm_cos (x : float) : float :=
  if (x =? 0x1.41b2f769cf0ep+0)%float then 0x1.3c6ef372fe95p-2%float
  else if (x =? 0x1.41b2f769cf0ep+1)%float then (- 0x1.9e3779b97f4a7p-1)%float
  else nan.

Definition libm_sin (x : float) : float :=
  if (x =? 0x1.41b2f769cf0ep+0)%float then 0x1.e6f0e134454ffp-1%float
  else if (x =? 0x1.41b2f769cf0ep+1)%float then 0x1.2cf2304755a5fp-1%float
  else nan.

(** [GeodesicCalculator(radius, frequency).calculate()]. *)
Definition generate (r : float) (f : Z) : result GeodesicCalculator :=
  calculate py_round8 libm_cos libm_sin (init r f).

Definition counts (c : result GeodesicCalculator) : result (Z * Z) :=
  m <- c ;; Ok (len (points m), len (faces m)).

(** ** Auxiliary notions for the proofs *)

(** A float that is not below zero: its sign bit is clear, or it is a NaN. *)
Definition sf_nonneg (x : spec_float) : bool :=
  match x with
  | S754_nan => true
  | S754_zero s | S754_infinity s | S754_finite s _ _ => negb s
  end.

(** ** The grid of one triangle as a function of its samples

    The loops of [_subdivide_triangle] read off as pure functions: the
    sample of a grid position, the index a sample receives, and the faces
    of the walk over the grid. *)
Section GridModel.
Variable round8 : float -> float.
Variable self : GeodesicCalculator.

(** The value [_normalize_and_scale] returns. *)
Definition project (v : point) : point :=
  if (length_of v =? 0)%float then zero_point
  else let '(x, y, z) := v in
       (radius self * x / length_of v,
        radius self * y / length_of v,
        radius self * z / length_of v)%float.

(** The weight [i / freq], and [0] when [freq <= 0]. *)
Definition weight (freq i : Z) : float :=
  if (freq >? 0)%Z then SF2Prim (SFdiv prec emax (Z2SF i) (Z2SF freq))
  else 0%float.

Definition interpolate (v0 v1 v2 : point) (a b : float) : point :=
  let '(v0x, v0y, v0z) := v0 in
  let '(v1x, v1y, v1z) := v1 in
  let '(v2x, v2y, v2z) := v2 in
  let c := (1 - a - b)%float in
  (a * v0x + b * v1x + c * v2x,
   a * v0y + b * v1y + c * v2y,
   a * v0z + b * v1z + c * v2z)%float.

(** The sample of grid position [(i, j)]. *)
Definition grid_point (v0 v1 v2 : point) (freq i j : Z) : point :=
  project (interpolate v0 v1 v2 (weight freq i) (weight freq j)).

(** The samples of row [i], and all rows, in discovery order. *)
Definition sample_row (v0 v1 v2 : point) (freq i : Z) : list point :=
  map (grid_point v0 v1 v2 freq i) (py_range (freq + 1 - i)).

Definition sample_rows (v0 v1 v2 : point) (freq : Z) : list (list point) :=
  map (sample_row v0 v1 v2 freq) (py_range (freq + 1)).

Definition samples (v0 v1 v2 : point) (freq : Z) : list point :=
  concat (sample_rows v0 v1 v2 freq).

(** The dict that sends the key of [verts[n]] to [n]. *)
Definition index_dict (verts : list point) : dict (K := point) (V := Z) :=
  combine (map (key_of round8) verts) (py_range (len verts)).

(** One sample meets the vertices found so far: it reuses the index of
    the first one whose key equals its own, or it is appended. *)
Definition intern (verts : list point) (pt : point) : list point * Z :=
  match dict_get key_eqb (index_dict verts) (key_of round8 pt) with
  | Some idx => (verts, idx)
  | None => (verts ++ [pt], len verts)
  end.

Fixpoint intern_all (verts : list point) (pts : list point)
  : list point * list Z :=
  match pts with
  | [] => (verts, [])
  | pt :: pts' =>
      let '(verts1, idx) := intern verts pt in
      let '(verts2, idxs) := intern_all verts1 pts' in
      (verts2, idx :: idxs)
  end.

Fixpoint intern_rows (verts : list point) (rows : list (list point))
  : list point * list (list Z) :=
  match rows with
  | [] => (verts, [])
  | row :: rows' =>
      let '(verts1, idxs) := intern_all verts row in
      let '(verts2, grid) := intern_rows verts1 rows' in
      (verts2, idxs :: grid)
  end.

(** [grid[i][j]] for a position inside the grid. *)
Definition grid_entry (grid : list (list Z)) (i j : Z) : Z :=
  nth (Z.to_nat j) (nth (Z.to_nat i) grid []) 0%Z.

(** The faces of grid cell [(i, j)]: the upward triangle, and the
    downward one unless the cell is the last of its row. *)
Definition cell_faces (g : Z -> Z -> Z) (freq i j : Z) : list face :=
  (g i j, g (i + 1) j, g i (j + 1))%Z ::
  (if (j <? freq - i - 1)%Z
   then [(g (i + 1) j, g (i + 1) (j + 1), g i (j + 1))%Z]
   else []).

(** The walk over the grid: rows [0 .. freq-1], columns
    [0 .. freq-i-1]. *)
Definition walk_faces (g : Z -> Z -> Z) (freq : Z) : list face :=
  flat_map (fun i => flat_map (cell_faces g freq i) (py_range (freq - i)))
           (py_range freq).

(** Two samples at different places of a list whose keys are equal. *)
Definition keys_distinct (pts : list point) : Prop :=
  forall p q : nat, (p < q < length pts)%nat ->
    key_eqb (key_of round8 (nth p pts zero_point))
            (key_of round8 (nth q pts zero_point)) = false.
End GridModel.

(** The shape of the grid of frequency [freq]: rows [0 .. freq], row [i]
    holding [freq + 1 - i] entries. *)
Definition grid_shape (freq : Z) (grid : list (list Z)) : Prop :=
  len grid = (freq + 1)%Z /\
  forall i : Z, (0 <= i <= freq)%Z ->
    len (nth (Z.to_nat i) grid []) = (freq + 1 - i)%Z.

(** The decidable form of [keys_distinct], on the list of keys. *)
Fixpoint keys_distinctb (keys : list point) : bool :=
  match keys with
  | [] => true
  | k :: ks => forallb (fun k' => negb (key_eqb k k')) ks && keys_distinctb ks
  end.

(** ** The merge as the specification words it

    Each vertex is keyed by its coordinates rounded to 8 decimals.  The
    first vertex with a key is copied to the output and gets the next
    output index, a later vertex with an equal key reuses that index
    ([intern_all] from no vertices: the output vertices and, per input
    vertex, its merged index).  Every face has its three indices replaced
    by their merged indices, and a face whose merged indices are not
    pairwise distinct is discarded. *)
Definition pairwise_distinct (f : face) : bool :=
  let '(a, b, c) := f in
  (negb (a =? b) && negb (b =? c) && negb (a =? c))%Z%bool.

Definition remap_spec (merged : list Z) (f : face) : result face :=
  let '(f0, f1, f2) := f in
  n0 <- py_index merged f0 ;;
  n1 <- py_index merged f1 ;;
  n2 <- py_index merged f2 ;;
  Ok (n0, n1, n2).

Definition merge_spec (round8 : float -> float)
    (verts : list point) (faces : list face)
  : result (list point * list face) :=
  let '(merged_verts, merged) := intern_all round8 [] verts in
  new_faces <- map_result (remap_spec merged) faces ;;
  Ok (merged_verts, filter pairwise_distinct new_faces).

(** A face of a mesh with [n] vertices: three different indices, each in
    [0, n). *)
Definition face_ok (n : Z) (f : face) : Prop :=
  let '(a, b, c) := f in
  (a <> b /\ b <> c /\ a <> c)%Z /\
  (0 <= a < n)%Z /\ (0 <= b < n)%Z /\ (0 <= c < n)%Z.

(** A face of the input of the merge that refers to a vertex whose rounded
    key is not equal to itself, that is, holds a NaN. *)
Definition refers_to_nan (round8 : float -> float)
    (verts : list point) (faces : list face) : Prop :=
  exists (f : face) (i : Z) (v : point),
    In f faces /\
    (i = fst (fst f) \/ i = snd (fst f) \/ i = snd f) /\
    py_index verts i = Ok v /\
    key_eqb (key_of round8 v) (key_of round8 v) = false.

(** An index that some key is mapped to by the [index_map] of the merged
    vertices, and a face made of three different such indices: the faces
    the remapping loop appends. *)
Definition index_found (round8 : float -> float) (merged_verts : list point)
    (i : Z) : Prop :=
  exists k : point,
    dict_get key_eqb (index_dict round8 merged_verts) k = Some i.

Definition face_found (round8 : float -> float) (merged_verts : list point)
    (f : face) : Prop :=
  let '(a, b, c) := f in
  pairwise_distinct f = true /\
  index_found round8 merged_verts a /\
  index_found round8 merged_verts b /\
  index_found round8 merged_verts c.

(** A face whose three indices lie in [0, n). *)
Definition face_in_range (n : Z) (f : face) : Prop :=
  let '(a, b, c) := f in
  (0 <= a < n)%Z /\ (0 <= b < n)%Z /\ (0 <= c < n)%Z.

(** ** The accumulated buffers as a function of the local meshes *)
Section Accumulated.
Variable round8 : float -> float.
Variables math_cos math_sin : float -> float.
Variable self : GeodesicCalculator.

(** The vertices [_create_icosahedron] returns. *)
Definition sine_of_phi : float := (2 / sqrt 5)%float.
Definition cosine_of_phi : float := (0.5 * sine_of_phi)%float.

Definition ico_verts : list point :=
  map (project self)
      (raw_icosahedron math_cos math_sin sine_of_phi cosine_of_phi math_pi).

(** Corner [i] of the icosahedron. *)
Definition corner (i : Z) : point := nth (Z.to_nat i) ico_verts zero_point.

(** What [_subdivide_triangle] returns on base face [f]. *)
Definition local_mesh (f : face) : list point * list face :=
  let '(f0, f1, f2) := f in
  let rows := sample_rows self (corner f0) (corner f1) (corner f2)
                          (frequency self) in
  (fst (intern_rows round8 [] rows),
   walk_faces (grid_entry (snd (intern_rows round8 [] rows)))
              (frequency self)).

(** One step of the accumulation: the local vertices are appended and the
    local faces are shifted by the number of vertices before them. *)
Definition append_mesh (acc mesh : list point * list face)
  : list point * list face :=
  let '(all_verts, all_faces) := acc in
  let '(face_verts, face_faces) := mesh in
  (all_verts ++ face_verts,
   all_faces ++ map (offset_face (len all_verts)) face_faces).

Definition accumulated : list point * list face :=
  fold_left append_mesh (map local_mesh ico_faces) ([], []).
End Accumulated.

(** ** Exact norms

    A finite float is a dyadic rational; the Euclidean norm of a point with
    float coordinates is compared with the radius exactly, through squares
    of rationals. *)
Definition F2Q (x : float) : option Q :=
  match Prim2SF x with
  | S754_zero _ => Some 0%Q
  | S754_finite s m e =>
      let a := match e with
               | Zneg p => (Zpos m # (2 ^ p))%Q
               | _ => inject_Z (Zpos m * 2 ^ e)
               end in
      Some (if s then Qopp a else a)
  | _ => None
  end.

(** [| sqrt (x^2 + y^2 + z^2) - r | <= tol] for finite [r], [x], [y], [z]
    and [tol >= 0]: the norm is at most [r + tol], and at least [r - tol]
    when that is positive. *)
Definition norm_within (tol : Q) (r : float) (v : point) : bool :=
  let '(x, y, z) := v in
  match F2Q r, F2Q x, F2Q y, F2Q z with
  | Some r, Some x, Some y, Some z =>
      let n2 := (x * x + y * y + z * z)%Q in
      Qle_bool 0 (r + tol) && Qle_bool n2 ((r + tol) * (r + tol)) &&
      (Qle_bool r tol || Qle_bool ((r - tol) * (r - tol)) n2)
  | _, _, _, _ => false
  end.

(** The absolute tolerance [1e-6]. *)
Definition tol_1e6 : Q := (1 # 1000000)%Q.

(** The vertices and the faces of a generated mesh. *)
Definition mesh_points (c : result GeodesicCalculator) : list point :=
  match c with
  | Ok m => points m
  | Raise _ => []
  end.

(** A face of the input of the merge whose three vertices have pairwise
    different rounded keys: the merge cannot drop it. *)
Definition face_keys_distinct (round8 : float -> float) (verts : list point)
    (f : face) : Prop :=
  let '(a, b, c) := f in
  let k := fun i : Z => key_of round8 (nth (Z.to_nat i) verts zero_point) in
  face_in_range (len verts) f /\
  key_eqb (k a) (k b) = false /\
  key_eqb (k b) (k c) = false /\
  key_eqb (k a) (k c) = false.

(** ** The points of the subdivided icosahedron

    A sample is produced at a position: base face [k], row [i], column
    [j].  It is the point with barycentric weights [i], [j] and
    [freq - i - j] (in units of [1 / freq]) on the three corners of the
    base face, that is, a combination of the twelve corners of the
    icosahedron.  Two positions are the same point of the subdivided
    icosahedron when they are the same combination. *)
Definition position : Type := (Z * Z * Z)%type.

(** The positions of base face [k], and all positions, in the order in
    which the samples are produced. *)
Definition face_positions (freq k : Z) : list position :=
  flat_map (fun i => map (fun j => (k, i, j)) (py_range (freq + 1 - i)))
           (py_range (freq + 1)).

Definition positions (freq : Z) : list position :=
  flat_map (face_positions freq) (py_range 20).

Definition base_face (k : Z) : face :=
  nth (Z.to_nat k) ico_faces (0, 0, 0)%Z.

(** The weight of corner [v] of the icosahedron in the point with weights
    [i], [j], [c] on the corners of [f]. *)
Definition weight_on (f : face) (i j c : Z) (v : Z) : Z :=
  let '(f0, f1, f2) := f in
  ((if v =? f0 then i else 0) + (if v =? f1 then j else 0) +
   (if v =? f2 then c else 0))%Z.

(** The weights of the twelve corners. *)
Definition corner_weights (w : Z -> Z) : list Z := map w (py_range 12).

Definition combination (freq : Z) (p : position) : list Z :=
  let '(k, i, j) := p in
  corner_weights (weight_on (base_face k) i j (freq - i - j)).

(** The points of the subdivided icosahedron, each once: the 12 corners,
    the [freq - 1] inner points of each of the 30 edges, and the inner
    points of each of the 20 faces. *)
Inductive lattice_point : Type :=
| AtCorner (v : Z)
| OnEdge (u v t : Z)
| Inside (k i j : Z).

Definition ico_edges : list (Z * Z) :=
  [ (1, 2); (0, 2); (0, 1); (2, 3); (0, 3); (3, 4); (0, 4); (4, 5); (0, 5);
    (1, 5); (5, 6); (1, 6); (1, 7); (2, 7); (2, 8); (3, 8); (3, 9); (4, 9);
    (4, 10); (5, 10); (6, 7); (7, 8); (8, 9); (9, 10); (6, 10); (6, 11);
    (7, 11); (8, 11); (9, 11); (10, 11) ]%Z.

Definition edge_points (freq : Z) (e : Z * Z) : list lattice_point :=
  map (fun t => OnEdge (fst e) (snd e) (t + 1)) (py_range (freq - 1)).

Definition inner_points (freq k : Z) : list lattice_point :=
  flat_map (fun i => map (fun j => Inside k (i + 1) (j + 1))
                         (py_range (freq - 2 - i)))
           (py_range (freq - 2)).

Definition lattice_points (freq : Z) : list lattice_point :=
  map AtCorner (py_range 12) ++
  flat_map (edge_points freq) ico_edges ++
  flat_map (inner_points freq) (py_range 20).

Definition lattice_combination (freq : Z) (x : lattice_point) : list Z :=
  match x with
  | AtCorner v => corner_weights (fun x => if (x =? v)%Z then freq else 0%Z)
  | OnEdge u v t =>
      corner_weights (fun x => ((if x =? u then t else 0) +
                                (if x =? v then freq - t else 0))%Z)
  | Inside k i j => combination freq (k, i, j)
  end.

(** Facts of the face table, decided by evaluation. *)
Definition face_has (f : face) (v : Z) : bool :=
  let '(f0, f1, f2) := f in ((v =? f0) || (v =? f1) || (v =? f2))%Z%bool.

Definition face_proper (f : face) : bool :=
  let '(f0, f1, f2) := f in
  (negb (f0 =? f1) && negb (f1 =? f2) && negb (f0 =? f2) &&
   (0 <=? f0) && (f0 <? 12) && (0 <=? f1) && (f1 <? 12) &&
   (0 <=? f2) && (f2 <? 12))%Z%bool.

Definition sorted_pair (u v : Z) : Z * Z :=
  if (u <? v)%Z then (u, v) else (v, u).

Definition pair_eqb (e1 e2 : Z * Z) : bool :=
  ((fst e1 =? fst e2) && (snd e1 =? snd e2))%Z%bool.

Definition is_edge (e : Z * Z) : bool := existsb (pair_eqb e) ico_edges.

Section Sampling.
Variable round8 : float -> float.
Variables math_cos math_sin : float -> float.
Variable self : GeodesicCalculator.

(** The sample produced at a position. *)
Definition position_sample (p : position) : point :=
  let '(k, i, j) := p in
  let '(f0, f1, f2) := base_face k in
  grid_point self (corner math_cos math_sin self f0)
    (corner math_cos math_sin self f1) (corner math_cos math_sin self f2)
    (frequency self) i j.

(** Perfect merging: two samples have equal rounded keys exactly when they
    are the same point of the subdivided icosahedron. *)
Definition perfect_merging : Prop :=
  forall p q : position,
    In p (positions (frequency self)) -> In q (positions (frequency self)) ->
    (key_eqb (key_of round8 (position_sample p))
             (key_of round8 (position_sample q)) = true <->
     combination (frequency self) p = combination (frequency self) q).

(** Its decidable form. *)
Definition perfect_mergingb : bool :=
  let ps := positions (frequency self) in
  let keyed :=
    map (fun p => (key_of round8 (position_sample p),
                   combination (frequency self) p)) ps in
  forallb (fun a =>
    forallb (fun b =>
      Bool.eqb (key_eqb (fst a) (fst b))
               (if list_eq_dec Z.eq_dec (snd a) (snd b) then true else false))
      keyed) keyed.
End Sampling.

(** ** Notions for the further properties of the calculator *)

(** The point opposite to [v]. *)
Definition neg_point (v : point) : point :=
  let '(x, y, z) := v in (- x, - y, - z)%float.

(** The point whose three coordinates are NaN. *)
Definition nan_point : point := (nan, nan, nan).

(** A float that is a NaN or plus infinity. *)
Definition sf_huge (x : spec_float) : Prop :=
  x = S754_nan \/ x = S754_infinity false.

(** [b == -a], or both are NaN. *)
Definition opposite (a b : float) : bool :=
  ((b =? - a)%float || (is_nan a && is_nan b))%bool.

(** Opposite points: coordinate by coordinate. *)
Definition antipodal (p q : point) : bool :=
  let '(x, y, z) := p in
  let '(x', y', z') := q in
  (opposite x x' && opposite y y' && opposite z z')%bool.

(** The pairs of opposite corners of the icosahedron. *)
Definition antipodes : list (Z * Z) :=
  [ (0, 11); (1, 9); (2, 10); (3, 6); (4, 7); (5, 8) ]%Z.

(** The sides of a face, in the direction of its corners. *)
Definition directed_edges (f : face) : list (Z * Z) :=
  let '(a, b, c) := f in [(a, b); (b, c); (c, a)].

(** How often the directed side [e] occurs. *)
Definition count_edge (e : Z * Z) (edges : list (Z * Z)) : Z :=
  len (filter (pair_eqb e) edges).

(** A closed surface with one orientation: every side of a face is the
    side of no other face in the same direction, and of exactly one face
    in the other direction. *)
Definition closed_surface (faces : list face) : bool :=
  let edges := flat_map directed_edges faces in
  forallb (fun e => (count_edge e edges =? 1)%Z &&
                    (count_edge (snd e, fst e) edges =? 1)%Z) edges.

(** Two coordinates of opposite corners before the projection: one is the
    negation of the other, or both are the literal [0.0]. *)
Definition mirrored (a b : float) : Prop :=
  b = (- a)%float \/ (a = 0%float /\ b = 0%float).

(** [l[i]] is defined for [-len(l) <= i < len(l)]; a negative index counts
    from the end. *)
Definition wrap_index (n i : Z) : Z := if (i <? 0)%Z then (n + i)%Z else i.

(** An index a face may hold without the merge raising: it is inside the
    vertex list, and the rounded key of the vertex there equals itself
    (no coordinate rounds to a NaN). *)
Definition index_good (round8 : float -> float) (verts : list point) (i : Z)
  : Prop :=
  (- len verts <= i < len verts)%Z /\
  let v := nth (Z.to_nat (wrap_index (len verts) i)) verts zero_point in
  key_eqb (key_of round8 v) (key_of round8 v) = true.

(** A face with three good indices. *)
Definition face_good (round8 : float -> float) (verts : list point) (f : face)
  : Prop :=
  let '(a, b, c) := f in
  index_good round8 verts a /\ index_good round8 verts b /\
  index_good round8 verts c.

(** Corner [i] of an input face and corner [n] of the output face it
    became: the output vertex at [n] has the key of the input vertex at
    [i]. *)
Definition same_key (round8 : float -> float) (verts merged_verts : list point)
    (i n : Z) : Prop :=
  exists v : point,
    py_index verts i = Ok v /\ (0 <= n < len merged_verts)%Z /\
    key_eqb (key_of round8 (nth (Z.to_nat n) merged_verts zero_point))
            (key_of round8 v) = true.

(** The same, for the three corners of a face. *)
Definition face_same_keys (round8 : float -> float)
    (verts merged_verts : list point) (f g : face) : Prop :=
  let '(f0, f1, f2) := f in
  let '(g0, g1, g2) := g in
  same_key round8 verts merged_verts f0 g0 /\
  same_key round8 verts merged_verts f1 g1 /\
  same_key round8 verts merged_verts f2 g2.

(** The three vertices of a face have pairwise different keys. *)
Definition keys_differ (round8 : float -> float) (verts : list point)
    (f : face) : bool :=
  let '(a, b, c) := f in
  let k := fun i : Z => key_of round8 (nth (Z.to_nat i) verts zero_point) in
  (negb (key_eqb (k a) (k b)) && negb (key_eqb (k b) (k c)) &&
   negb (key_eqb (k a) (k c)))%bool.

(** ** Meshes that differ in the sign of zeros *)

(** The same value up to the sign of a zero: [x] and [y] are the same
    float, or both are zeros. *)
Definition same_value (x y : float) : Prop :=
  x = y \/ ((x =? 0)%float = true /\ (y =? 0)%float = true).

Definition same_point (p q : point) : Prop :=
  let '(x, y, z) := p in
  let '(x', y', z') := q in
  same_value x x' /\ same_value y y' /\ same_value z z'.

(** The same relation on [spec_float]. *)
Definition sf_same (x y : spec_float) : Prop :=
  x = y \/ exists s s' : bool, x = S754_zero s /\ y = S754_zero s'.

(** [p'] is the point opposite to [p], up to the sign of zeros. *)
Definition opposite_point (p' p : point) : Prop :=
  same_point p' (neg_point p).

(** Two meshes with the same faces and the same vertices up to the sign
    of zero coordinates. *)
Definition same_mesh (m' m : list point * list face) : Prop :=
  Forall2 same_point (fst m') (fst m) /\ snd m' = snd m.

(** Two dicts with the same keys up to the sign of zeros, in the same
    order and with the same values. *)
Definition same_dict (d' d : dict (K := point) (V := Z)) : Prop :=
  Forall2 (fun kv' kv => same_point (fst kv') (fst kv) /\ snd kv' = snd kv)
          d' d.

(** * The add-in (BuckmisterFusion.py)

    The host application is outside the program.  What the add-in does to
    it is the sequence of calls that change the design or show a dialog,
    in order: the journal.  A call to the host is taken to return; the
    answers of the host that the add-in branches on are parameters. *)

(** The three corners of a triangle drawn in a sketch. *)
Definition triangle : Type := (point * point * point)%type.

Inductive host_call : Type :=
| addNewComponent                     (* occs.addNewComponent(mat) *)
| sketches_add                        (* comp.sketches.add(...) *)
| addByTwoPoints (p q : point)        (* sketchLines.addByTwoPoints(p, q) *)
| patches_add                         (* patches.add(patchInput) *)
| deleteMe                            (* temp_sketch.deleteMe() *)
| stitchFeatures_add (bodies : list triangle)
                                      (* stitchFeatures.add(stitchInput) *)
| messageBox.                         (* ui.messageBox(...) *)

Definition journal : Type := list host_call.

(** A command extends the journal, and returns or raises. *)
Definition command (A : Type) : Type := journal -> journal * result A.

Definition ret {A : Type} (a : A) : command A := fun h => (h, Ok a).

Definition lift {A : Type} (c : result A) : command A := fun h => (h, c).

Definition call (c : host_call) : command unit := fun h => (h ++ [c], Ok tt).

Definition and_then {A B : Type} (c : command A) (k : A -> command B)
  : command B :=
  fun h => match c h with
           | (h', Ok a) => k a h'
           | (h', Raise e) => (h', Raise e)
           end.

Notation "x <~ c ;; k" := (and_then c (fun x => k))
  (at level 61, c at next level, right associativity) : py_scope.

(** [try: c  except: handler]. *)
Definition try_except {A : Type} (c : command A) (handler : command A)
  : command A :=
  fun h => match c h with
           | (h', Ok a) => (h', Ok a)
           | (h', Raise _) => handler h'
           end.

(** A [for] loop over [l] that threads a value. *)
Fixpoint for_in {S A : Type} (body : S -> A -> command S) (s : S) (l : list A)
  : command S :=
  match l with
  | [] => ret s
  | a :: l' => s' <~ body s a ;; for_in body s' l'
  end.

(** The calls that draw the face [f] of a mesh with vertices [points]. *)
Definition triangle_of (points : list point) (f : face) : triangle :=
  let '(a, b, c) := f in
  (nth (Z.to_nat a) points zero_point, nth (Z.to_nat b) points zero_point,
   nth (Z.to_nat c) points zero_point).

Definition sketch_calls (t : triangle) : list host_call :=
  let '(v0, v1, v2) := t in
  [sketches_add; addByTwoPoints v0 v1; addByTwoPoints v1 v2;
   addByTwoPoints v2 v0].

Section AddIn.
Variable round8 : float -> float.
Variables math_cos math_sin : float -> float.
(** [temp_sketch.profiles.count] for the sketch of a triangle. *)
Variable profiles_count : triangle -> Z.
(** [patch.bodies.count] for the patch of a triangle, or [None] when
    [patch] is not truthy. *)
Variable patch_bodies_count : triangle -> option Z.

(** The three corners of a face and the sketch of its triangle. *)
Definition sketch_triangle (points : list point) (f : face)
  : command triangle :=
  let '(f0, f1, f2) := f in
  v0 <~ lift (py_index points f0) ;;
  v1 <~ lift (py_index points f1) ;;
  v2 <~ lift (py_index points f2) ;;
  _ <~ call sketches_add ;;
  _ <~ call (addByTwoPoints v0 v1) ;;
  _ <~ call (addByTwoPoints v1 v2) ;;
  _ <~ call (addByTwoPoints v2 v0) ;;
  ret (v0, v1, v2).

(** The body of the loop that draws each face in a sketch of its own. *)
Definition sketch_face (points : list point) (_ : unit) (f : face)
  : command unit :=
  _ <~ sketch_triangle points f ;; ret tt.

(** The body of the loop that patches each face. *)
Definition patch_face (points : list point) (surface_bodies : list triangle)
    (f : face) : command (list triangle) :=
  t <~ sketch_triangle points f ;;
  surface_bodies <~
    (if (profiles_count t >? 0)%Z then
       _ <~ call patches_add ;;
       match patch_bodies_count t with
       | Some n =>
           if (n >? 0)%Z then ret (surface_bodies ++ [t])
           else ret surface_bodies
       | None => ret surface_bodies
       end
     else ret surface_bodies) ;;
  _ <~ call deleteMe ;;
  ret surface_bodies.

Definition stitch (surface_bodies : list triangle) : command unit :=
  if (len surface_bodies >? 1)%Z then call (stitchFeatures_add surface_bodies)
  else ret tt.

(** [CommandExecuteHandler.createGeodesicSphere]. *)
Definition createGeodesicSphere (radius : float) (frequency : Z)
    (createSolid : bool) : command unit :=
  calculator <~ lift (calculate round8 math_cos math_sin
                        (init radius frequency)) ;;
  let points := points calculator in
  let faces := faces calculator in
  _ <~ call addNewComponent ;;
  if createSolid then
    try_except
      (surface_bodies <~ for_in (patch_face points) [] faces ;;
       stitch surface_bodies)
      (call messageBox)
  else
    for_in (sketch_face points) tt faces.

(** [CommandExecuteHandler.notify], on the values of the three inputs. *)
Definition notify (radius : float) (frequency : Z) (createSolid : bool)
  : command unit :=
  try_except (createGeodesicSphere radius frequency createSolid)
             (call messageBox).

(** The calls made for one face when a solid is asked for, and whether
    the face contributes a surface body. *)
Definition patch_calls (t : triangle) : list host_call :=
  sketch_calls t ++
  (if (profiles_count t >? 0)%Z then [patches_add] else []) ++ [deleteMe].

Definition has_body (t : triangle) : bool :=
  ((profiles_count t >? 0)%Z &&
   match patch_bodies_count t with
   | Some n => (n >? 0)%Z
   | None => false
   end)%bool.

Definition stitch_calls (surface_bodies : list triangle) : list host_call :=
  if (len surface_bodies >? 1)%Z then [stitchFeatures_add surface_bodies]
  else [].
End AddIn.

(** The inputs [CommandCreatedHandler.notify] offers at first. *)
Definition default_radius : float := 10.
Definition default_frequency : Z := 3.
Definition default_createSolid : bool := false.

Definition count_calls (p : host_call -> bool) (h : journal) : Z :=
  len (filter p h).

Definition is_sketches_add (c : host_call) : bool :=
  match c with sketches_add => true | _ => false end.

Definition is_line (c : host_call) : bool :=
  match c with addByTwoPoints _ _ => true | _ => false end.

Definition is_deleteMe (c : host_call) : bool :=
  match c with deleteMe => true | _ => false end.

Definition is_stitch (c : host_call) : bool :=
  match c with stitchFeatures_add _ => true | _ => false end.

Definition is_messageBox (c : host_call) : bool :=
  match c with messageBox => true | _ => false end.

(** The sketches added and not yet deleted. *)
Definition open_sketches (h : journal) : Z :=
  (count_calls is_sketches_add h - count_calls is_deleteMe h)%Z.

(** Calls that neither add nor delete a sketch. *)
Definition neutral (l : journal) : bool :=
  forallb (fun c => negb (is_sketches_add c) && negb (is_deleteMe c)) l.

(** A piece of journal during which at most one sketch is open, and none
    at its end. *)
Definition tidy (l : journal) : Prop :=
  open_sketches l = 0%Z /\
  forall h1 h2 : journal, l = h1 ++ h2 -> (0 <= open_sketches h1 <= 1)%Z.

(** * Properties *)

(** ** Binary64 facts used by the program *)

Lemma binary_round_aux_nonneg (m e : Z) (l : location) :
  sf_nonneg (binary_round_aux prec emax false m e l) = true.
Proof.
  unfold binary_round_aux.
  destruct (shr_fexp prec emax m e l) as [mrs' e'].
  destruct (shr_fexp prec emax _ e' loc_Exact) as [mrs'' e''].
  destruct (shr_m mrs''); try reflexivity.
  destruct (Z.leb e'' (Z.sub emax prec)); reflexivity.
Qed.

Lemma binary_round_nonneg (m : positive) (e : Z) :
  sf_nonneg (binary_round prec emax false m e) = true.
Proof.
  unfold binary_round.
  destruct (shl_align m e _) as [mz ez].
  apply binary_round_aux_nonneg.
Qed.

Lemma SFmul_square_nonneg (x : spec_float) :
  sf_nonneg (SFmul prec emax x x) = true.
Proof.
  destruct x as [s | s | | s m e]; unfold SFmul;
    try reflexivity; try (destruct s; reflexivity).
  rewrite xorb_nilpotent. apply binary_round_aux_nonneg.
Qed.

Lemma SFadd_nonneg (x y : spec_float) :
  sf_nonneg x = true -> sf_nonneg y = true ->
  sf_nonneg (SFadd prec emax x y) = true.
Proof.
  destruct x as [sx | sx | | sx mx ex], y as [sy | sy | | sy my ey];
    unfold sf_nonneg at 1 2; intros Hx Hy;
    try (apply negb_true_iff in Hx; subst sx);
    try (apply negb_true_iff in Hy; subst sy);
    try discriminate; try reflexivity.
  unfold SFadd, binary_normalize, cond_Zopp.
  rewrite <- Pos2Z.inj_add.
  apply binary_round_nonneg.
Qed.

Lemma sf_nonneg_not_neg (x : spec_float) :
  sf_nonneg x = true -> SFltb x (S754_zero false) = false.
Proof.
  destruct x as [s | s | | s m e]; simpl; intros H;
    try (apply negb_true_iff in H; subst s); reflexivity.
Qed.

Lemma Prim2SF_zero : Prim2SF 0 = S754_zero false.
Proof. reflexivity. Qed.

(** A sum of three squares is never below zero (it may be a NaN), so the
    square root in [_normalize_and_scale] has no domain error. *)
Lemma sum_of_squares_not_neg (x y z : float) :
  (x * x + y * y + z * z <? 0)%float = false.
Proof.
  rewrite ltb_spec, Prim2SF_zero.
  apply sf_nonneg_not_neg.
  rewrite !add_spec, !mul_spec.
  repeat apply SFadd_nonneg; apply SFmul_square_nonneg.
Qed.

Lemma SFeqb_left_refl (x y : spec_float) :
  SFeqb x y = true -> SFeqb x x = true.
Proof.
  unfold SFeqb.
  destruct x as [sx | sx | | sx mx ex]; simpl; try reflexivity.
  - destruct sx; reflexivity.
  - destruct y; discriminate.
  - intros _. rewrite Z.compare_refl.
    change (Pos.compare_cont Eq mx mx) with (Pos.compare mx mx).
    rewrite Pos.compare_refl. destruct sx; reflexivity.
Qed.

Lemma SFeqb_right_refl (x y : spec_float) :
  SFeqb x y = true -> SFeqb y y = true.
Proof.
  unfold SFeqb.
  destruct y as [sy | sy | | sy my ey]; simpl; try reflexivity.
  - destruct sy; reflexivity.
  - destruct x; discriminate.
  - intros _. rewrite Z.compare_refl.
    change (Pos.compare_cont Eq my my) with (Pos.compare my my).
    rewrite Pos.compare_refl. destruct sy; reflexivity.
Qed.

(** [==] on floats: a value that equals anything equals itself (it is not
    a NaN). *)
Lemma float_eqb_left_refl (x y : float) :
  (x =? y)%float = true -> (x =? x)%float = true.
Proof. rewrite !eqb_spec. apply SFeqb_left_refl. Qed.

Lemma float_eqb_right_refl (x y : float) :
  (x =? y)%float = true -> (y =? y)%float = true.
Proof. rewrite !eqb_spec. apply SFeqb_right_refl. Qed.

Lemma key_eqb_left_refl (k1 k2 : point) :
  key_eqb k1 k2 = true -> key_eqb k1 k1 = true.
Proof.
  destruct k1 as [[a1 b1] c1], k2 as [[a2 b2] c2]. simpl.
  rewrite !andb_true_iff. intros [[Ha Hb] Hc].
  repeat split; eapply float_eqb_left_refl; eassumption.
Qed.

Lemma key_eqb_right_refl (k1 k2 : point) :
  key_eqb k1 k2 = true -> key_eqb k2 k2 = true.
Proof.
  destruct k1 as [[a1 b1] c1], k2 as [[a2 b2] c2]. simpl.
  rewrite !andb_true_iff. intros [[Ha Hb] Hc].
  repeat split; eapply float_eqb_right_refl; eassumption.
Qed.

(** ** Normalize-and-scale *)

Section NormalizeAndScale.
Variable self : GeodesicCalculator.

Lemma normalize_and_scale_eq (v : point) :
  _normalize_and_scale self v = Ok (project self v).
Proof.
  destruct v as [[x y] z].
  unfold _normalize_and_scale, project, length_of, sum_of_squares, math_sqrt.
  rewrite sum_of_squares_not_neg. simpl.
  destruct (sqrt (x * x + y * y + z * z) =? 0)%float eqn:E; [reflexivity|].
  unfold py_truediv. rewrite E. reflexivity.
Qed.

(** C10. [_normalize_and_scale] returns a point for every input and never
    raises: when the computed length is exactly zero the result is the
    zero vector, and otherwise it is [radius * coord / length] for each
    coordinate, the divisions being by a nonzero length ([py_truediv]
    raises [ZeroDivisionError] on a zero divisor, and no exception is
    raised here). *)
Theorem normalize_and_scale_total (v : point) :
  exists p : point,
    _normalize_and_scale self v = Ok p /\
    (forall e : exn, _normalize_and_scale self v <> Raise e) /\
    ((length_of v =? 0)%float = true -> p = zero_point) /\
    ((length_of v =? 0)%float = false ->
     py_truediv (radius self * fst (fst v)) (length_of v) = Ok (fst (fst p)) /\
     py_truediv (radius self * snd (fst v)) (length_of v) = Ok (snd (fst p)) /\
     py_truediv (radius self * snd v) (length_of v) = Ok (snd p)).
Proof.
  rewrite normalize_and_scale_eq.
  eexists. split; [reflexivity|]. split; [discriminate|].
  unfold project.
  destruct v as [[x y] z]. split; intros E; rewrite E.
  - reflexivity.
  - unfold py_truediv. rewrite E. simpl. auto.
Qed.
End NormalizeAndScale.

(** ** Loops, ranges and indexing *)

Lemma for_each_app {S A : Type} (body : S -> A -> result S) (s : S)
    (l1 l2 : list A) :
  for_each body s (l1 ++ l2) =
  (s' <- for_each body s l1 ;; for_each body s' l2).
Proof.
  revert s. induction l1 as [|a l1 IH]; intros s; simpl; [reflexivity|].
  destruct (body s a) as [s'|e]; simpl; [apply IH|reflexivity].
Qed.

Lemma py_range_nonpos (n : Z) : (n <= 0)%Z -> py_range n = [].
Proof.
  intros H. unfold py_range.
  replace (Z.to_nat n) with 0%nat by lia. reflexivity.
Qed.

Lemma py_range_succ (n : Z) :
  (0 <= n)%Z -> py_range (n + 1) = py_range n ++ [n].
Proof.
  intros H. unfold py_range.
  replace (Z.to_nat (n + 1)) with (Z.to_nat n + 1)%nat by lia.
  rewrite seq_app, map_app. simpl. rewrite Z2Nat.id by lia. reflexivity.
Qed.

Lemma py_range_length (n : Z) : length (py_range n) = Z.to_nat n.
Proof. unfold py_range. rewrite length_map, length_seq. reflexivity. Qed.

Lemma len_py_range (n : Z) : (0 <= n)%Z -> len (py_range n) = n.
Proof. intros H. unfold len. rewrite py_range_length. lia. Qed.

Lemma In_py_range (n x : Z) : In x (py_range n) <-> (0 <= x < n)%Z.
Proof.
  unfold py_range. rewrite in_map_iff. split.
  - intros [k [<- Hk]]. apply in_seq in Hk. lia.
  - intros H. exists (Z.to_nat x). split; [lia|]. apply in_seq. lia.
Qed.

Lemma nth_py_range (n : Z) (k : nat) (d : Z) :
  (k < Z.to_nat n)%nat -> nth k (py_range n) d = Z.of_nat k.
Proof.
  intros H. unfold py_range.
  rewrite nth_indep with (d' := Z.of_nat 0)
    by (rewrite length_map, length_seq; exact H).
  rewrite map_nth, seq_nth by exact H. reflexivity.
Qed.

Lemma len_app {A : Type} (l1 l2 : list A) : len (l1 ++ l2) = (len l1 + len l2)%Z.
Proof. unfold len. rewrite length_app. lia. Qed.

Lemma len_nonneg {A : Type} (l : list A) : (0 <= len l)%Z.
Proof. unfold len. lia. Qed.

Lemma py_index_nth {A : Type} (l : list A) (i : Z) (d : A) :
  (0 <= i < len l)%Z -> py_index l i = Ok (nth (Z.to_nat i) l d).
Proof.
  intros H. unfold py_index, len in *.
  destruct (i <? 0)%Z eqn:E; [lia|]. rewrite E.
  destruct (nth_error l (Z.to_nat i)) as [a|] eqn:N.
  - f_equal. symmetry. apply nth_error_nth. exact N.
  - apply nth_error_None in N. lia.
Qed.

Lemma py_index_ok_inv {A : Type} (l : list A) (i : Z) (a : A) :
  py_index l i = Ok a -> In a l.
Proof.
  unfold py_index. destruct (_ <? 0)%Z; [discriminate|].
  destruct (nth_error l _) as [b|] eqn:N; [|discriminate].
  intros [= <-]. eapply nth_error_In. exact N.
Qed.

(** ** Dictionaries *)

Section DictFacts.
Context {K V : Type}.
Variable eqb : K -> K -> bool.

Lemma dict_set_absent (d : dict) (k : K) (v : V) :
  dict_get eqb d k = None -> dict_set eqb d k v = d ++ [(k, v)].
Proof.
  induction d as [|[k' v'] d IH]; simpl; [reflexivity|].
  destruct (eqb k' k); [discriminate|].
  intros H. rewrite IH by exact H. reflexivity.
Qed.

Lemma dict_get_app (d1 d2 : dict (K := K) (V := V)) (k : K) :
  dict_get eqb (d1 ++ d2) k =
  match dict_get eqb d1 k with
  | Some v => Some v
  | None => dict_get eqb d2 k
  end.
Proof.
  induction d1 as [|[k' v'] d1 IH]; simpl; [reflexivity|].
  destruct (eqb k' k); [reflexivity|apply IH].
Qed.

Lemma dict_get_in (d : dict) (k : K) (v : V) :
  dict_get eqb d k = Some v -> exists k', In (k', v) d /\ eqb k' k = true.
Proof.
  induction d as [|[k' v'] d IH]; simpl; [discriminate|].
  destruct (eqb k' k) eqn:E.
  - intros [= <-]. exists k'. auto.
  - intros H. destruct (IH H) as [k'' [Hin He]]. exists k''. auto.
Qed.

Lemma dict_get_none (d : dict (K := K) (V := V)) (k : K) :
  dict_get eqb d k = None <-> forall k' v, In (k', v) d -> eqb k' k = false.
Proof.
  induction d as [|[k' v'] d IH]; simpl.
  - split; [intros _ ? ? []|reflexivity].
  - destruct (eqb k' k) eqn:E.
    + split; [discriminate|]. intros H. rewrite (H k' v') in E by auto.
      discriminate.
    + rewrite IH. split.
      * intros H k'' v'' [[= <- <-]|Hin]; [exact E|eapply H; eauto].
      * intros H k'' v'' Hin. eapply H; eauto.
Qed.
End DictFacts.

(** ** The grid of one triangle *)

Section Grid.
Variable round8 : float -> float.
Variable self : GeodesicCalculator.
Variables v0 v1 v2 : point.
Variable freq : Z.

Local Abbreviation index_dict := (index_dict round8).
Local Abbreviation intern := (intern round8).
Local Abbreviation intern_all := (intern_all round8).
Local Abbreviation intern_rows := (intern_rows round8).
Local Abbreviation grid_point := (grid_point self v0 v1 v2 freq).
Local Abbreviation sample_row := (sample_row self v0 v1 v2 freq).

Lemma grid_sample_eq (i j : Z) :
  grid_sample self v0 v1 v2 freq i j = Ok (grid_point i j).
Proof.
  unfold grid_sample, grid_point, interpolate,
    weights, weight, int_truediv.
  destruct v0 as [[v0x v0y] v0z], v1 as [[v1x v1y] v1z],
    v2 as [[v2x v2y] v2z].
  destruct (freq >? 0)%Z eqn:E.
  - replace (freq =? 0)%Z with false by lia. cbn [bind].
    apply normalize_and_scale_eq.
  - cbn [bind]. apply normalize_and_scale_eq.
Qed.

Lemma combine_snoc {A B : Type} (l1 : list A) (l2 : list B) (a : A) (b : B) :
  length l1 = length l2 ->
  combine (l1 ++ [a]) (l2 ++ [b]) = combine l1 l2 ++ [(a, b)].
Proof.
  revert l2. induction l1 as [|x l1 IH]; intros [|y l2] H;
    simpl in *; try discriminate; [reflexivity|].
  rewrite IH by lia. reflexivity.
Qed.

Lemma index_dict_snoc (verts : list point) (pt : point) :
  index_dict (verts ++ [pt]) =
  index_dict verts ++ [(key_of round8 pt, len verts)].
Proof.
  unfold index_dict.
  rewrite len_app. change (len [pt]) with 1%Z.
  rewrite py_range_succ by apply len_nonneg.
  rewrite map_app. simpl. apply combine_snoc.
  rewrite length_map, py_range_length. unfold len. lia.
Qed.

Lemma grid_cell_eq (i : Z) (verts : list point) (row : list Z) (j : Z) :
  grid_cell round8 self v0 v1 v2 freq i (verts, index_dict verts, row) j =
  Ok (let '(verts', idx) := intern verts (grid_point i j) in
      (verts', index_dict verts', row ++ [idx])).
Proof.
  unfold grid_cell. rewrite grid_sample_eq. simpl.
  unfold intern, dict_mem, dict_lookup.
  destruct (dict_get key_eqb (index_dict verts) _) as [idx|] eqn:E; simpl.
  - reflexivity.
  - rewrite dict_set_absent by exact E.
    rewrite index_dict_snoc. reflexivity.
Qed.

Lemma grid_cells_eq (i : Z) (js : list Z) :
  forall (verts : list point) (row : list Z),
    for_each (grid_cell round8 self v0 v1 v2 freq i)
             (verts, index_dict verts, row) js =
    Ok (let '(verts', idxs) := intern_all verts (map (grid_point i) js) in
        (verts', index_dict verts', row ++ idxs)).
Proof.
  induction js as [|j js IH]; intros verts row; cbn [for_each map].
  - cbn. rewrite app_nil_r. reflexivity.
  - rewrite grid_cell_eq. cbn [bind intern_all].
    destruct (intern verts (grid_point i j)) as [verts1 idx].
    rewrite IH.
    destruct (intern_all verts1 _) as [verts2 idxs].
    rewrite <- app_assoc. reflexivity.
Qed.

Lemma grid_row_eq (verts : list point) (grid : list (list Z)) (i : Z) :
  grid_row round8 self v0 v1 v2 freq (verts, index_dict verts, grid) i =
  Ok (let '(verts', idxs) := intern_all verts (sample_row i) in
      (verts', index_dict verts', grid ++ [idxs])).
Proof.
  unfold grid_row. rewrite grid_cells_eq. cbn [bind app].
  unfold sample_row.
  destruct (intern_all verts _) as [verts' idxs]. reflexivity.
Qed.

Lemma grid_rows_eq (rows : list Z) :
  forall (verts : list point) (grid : list (list Z)),
    for_each (grid_row round8 self v0 v1 v2 freq)
             (verts, index_dict verts, grid) rows =
    Ok (let '(verts', g) := intern_rows verts (map sample_row rows) in
        (verts', index_dict verts', grid ++ g)).
Proof.
  induction rows as [|i rows IH]; intros verts grid; cbn [for_each map].
  - cbn. rewrite app_nil_r. reflexivity.
  - rewrite grid_row_eq. cbn [bind intern_rows].
    destruct (intern_all verts (sample_row i)) as [verts1 idxs].
    rewrite IH.
    destruct (intern_rows verts1 _) as [verts2 g].
    rewrite <- app_assoc. reflexivity.
Qed.

(** The first loop never raises, and its result is the pure function of
    the samples. *)
Lemma build_grid_eq :
  build_grid round8 self v0 v1 v2 freq =
  Ok (intern_rows [] (sample_rows self v0 v1 v2 freq)).
Proof.
  unfold build_grid.
  rewrite (grid_rows_eq _ [] []). cbn [bind app].
  unfold sample_rows.
  destruct (intern_rows [] _) as [verts g]. reflexivity.
Qed.
End Grid.

(** ** Interning samples *)

Section Intern.
Variable round8 : float -> float.

Local Abbreviation key_of := (key_of round8).
Local Abbreviation index_dict := (index_dict round8).
Local Abbreviation intern := (intern round8).
Local Abbreviation intern_all := (intern_all round8).
Local Abbreviation intern_rows := (intern_rows round8).
Local Abbreviation keys_distinct := (keys_distinct round8).

Lemma index_dict_in (verts : list point) (k : point) (n : Z) :
  In (k, n) (index_dict verts) ->
  (0 <= n < len verts)%Z /\ nth_error verts (Z.to_nat n) <> None /\
  k = key_of (nth (Z.to_nat n) verts zero_point).
Proof.
  unfold index_dict. intros H.
  remember (key_of zero_point) as kd eqn:Hkd.
  apply (In_nth _ _ (kd, 0%Z)) in H.
  destruct H as [p [Hp Hn]].
  rewrite length_combine, length_map, py_range_length in Hp.
  unfold len in *. rewrite Nat2Z.id in Hp.
  rewrite combine_nth in Hn
    by (rewrite length_map, py_range_length; lia).
  injection Hn as Hk Hv.
  rewrite nth_py_range in Hv by lia. subst n.
  rewrite Nat2Z.id. repeat split; try lia.
  - intros E. apply nth_error_None in E. lia.
  - rewrite <- Hk, Hkd. apply map_nth.
Qed.

Lemma intern_all_app (pts1 pts2 : list point) :
  forall verts : list point,
    intern_all verts (pts1 ++ pts2) =
    (let '(verts1, idxs1) := intern_all verts pts1 in
     let '(verts2, idxs2) := intern_all verts1 pts2 in
     (verts2, idxs1 ++ idxs2)).
Proof.
  induction pts1 as [|pt pts1 IH]; intros verts; cbn [app intern_all].
  - destruct (intern_all verts pts2). reflexivity.
  - destruct (intern verts pt) as [verts1 idx]. rewrite IH.
    destruct (intern_all verts1 pts1) as [verts2 idxs1].
    destruct (intern_all verts2 pts2) as [verts3 idxs2]. reflexivity.
Qed.

Lemma intern_all_length (pts : list point) :
  forall verts : list point,
    length (snd (intern_all verts pts)) = length pts.
Proof.
  induction pts as [|pt pts IH]; intros verts; cbn [intern_all];
    [reflexivity|].
  destruct (intern verts pt) as [verts1 idx].
  specialize (IH verts1). destruct (intern_all verts1 pts). simpl in *. lia.
Qed.

Lemma intern_extends (verts : list point) (pt : point) :
  exists extra : list point,
    fst (intern verts pt) = verts ++ extra /\ (length extra <= 1)%nat /\
    (0 <= snd (intern verts pt) < len (fst (intern verts pt)))%Z.
Proof.
  unfold intern.
  destruct (dict_get key_eqb (index_dict verts) (key_of pt)) as [idx|] eqn:E.
  - exists []. rewrite app_nil_r. simpl. repeat split; try lia.
    + apply dict_get_in in E. destruct E as [k [Hin _]].
      apply index_dict_in in Hin. lia.
    + apply dict_get_in in E. destruct E as [k [Hin _]].
      apply index_dict_in in Hin. lia.
  - exists [pt]. simpl. rewrite len_app. change (len [pt]) with 1%Z.
    pose proof (len_nonneg verts). repeat split; lia.
Qed.

(** Interning only appends: the vertices found so far are kept, at most
    one is added per sample, and every index handed out is in range. *)
Lemma intern_all_extends (pts : list point) :
  forall verts : list point,
  exists extra : list point,
    fst (intern_all verts pts) = verts ++ extra /\
    (length extra <= length pts)%nat /\
    Forall (fun idx => (0 <= idx < len (fst (intern_all verts pts)))%Z)
           (snd (intern_all verts pts)).
Proof.
  induction pts as [|pt pts IH]; intros verts; cbn [intern_all].
  - exists []. rewrite app_nil_r. simpl. auto.
  - destruct (intern_extends verts pt) as [e1 [H1 [L1 B1]]].
    destruct (intern verts pt) as [verts1 idx]. simpl in H1, B1.
    destruct (IH verts1) as [e2 [H2 [L2 B2]]].
    destruct (intern_all verts1 pts) as [verts2 idxs]. simpl in *.
    exists (e1 ++ e2). subst verts1 verts2.
    rewrite app_assoc, length_app. repeat split; try lia.
    constructor; [|exact B2].
    rewrite !len_app in *. pose proof (len_nonneg e2). lia.
Qed.

Lemma intern_rows_concat (rows : list (list point)) :
  forall verts : list point,
    fst (intern_rows verts rows) = fst (intern_all verts (concat rows)) /\
    concat (snd (intern_rows verts rows)) =
    snd (intern_all verts (concat rows)).
Proof.
  induction rows as [|row rows IH]; intros verts;
    cbn [intern_rows concat]; [auto|].
  rewrite intern_all_app.
  destruct (intern_all verts row) as [verts1 idxs].
  destruct (IH verts1) as [IH1 IH2].
  destruct (intern_rows verts1 rows) as [verts2 grid].
  destruct (intern_all verts1 (concat rows)) as [verts3 idxs3].
  simpl in *. subst. auto.
Qed.

Lemma intern_rows_lengths (rows : list (list point)) :
  forall verts : list point,
    map (@length Z) (snd (intern_rows verts rows)) =
    map (@length point) rows.
Proof.
  induction rows as [|row rows IH]; intros verts;
    cbn [intern_rows]; [reflexivity|].
  pose proof (intern_all_length row verts) as L.
  destruct (intern_all verts row) as [verts1 idxs].
  specialize (IH verts1).
  destruct (intern_rows verts1 rows) as [verts2 grid].
  simpl in *. congruence.
Qed.

(** When no two keys are equal nothing is reused: every sample is
    appended and its index is its position. *)
Lemma intern_all_distinct (pts : list point) :
  forall verts : list point,
    keys_distinct (verts ++ pts) ->
    intern_all verts pts =
    (verts ++ pts, map Z.of_nat (seq (length verts) (length pts))).
Proof.
  induction pts as [|pt pts IH]; intros verts D;
    cbn [intern_all].
  - rewrite app_nil_r. reflexivity.
  - assert (E : dict_get key_eqb (index_dict verts) (key_of pt) = None).
    { apply dict_get_none. intros k n Hin.
      apply index_dict_in in Hin. destruct Hin as [Hn [_ ->]].
      unfold len in Hn.
      specialize (D (Z.to_nat n) (length verts)).
      rewrite app_nth1 in D by lia.
      rewrite app_nth2, Nat.sub_diag in D by lia.
      apply D. rewrite length_app. simpl. lia. }
    unfold intern. rewrite E.
    rewrite IH by (rewrite <- app_assoc; exact D).
    rewrite <- app_assoc, length_app. simpl.
    replace (length verts + 1)%nat with (S (length verts)) by lia.
    reflexivity.
Qed.
End Intern.

(** ** The faces of one triangle *)

Section Faces.
Variable grid : list (list Z).
Variable freq : Z.
Hypothesis shape : grid_shape freq grid.

Local Abbreviation g := (grid_entry grid).

Lemma grid_at_entry (i j : Z) :
  (0 <= i <= freq)%Z -> (0 <= j <= freq - i)%Z ->
  grid_at grid i j = Ok (g i j).
Proof.
  intros Hi Hj. destruct shape as [Hlen Hrow].
  unfold grid_at, grid_entry.
  rewrite (py_index_nth grid [] (i := i)) by lia. cbn [bind].
  apply py_index_nth. rewrite Hrow by lia. lia.
Qed.

Lemma face_cell_eq (i j : Z) (faces : list face) :
  (0 <= i < freq)%Z -> (0 <= j < freq - i)%Z ->
  face_cell grid freq i faces j = Ok (faces ++ cell_faces g freq i j).
Proof.
  intros Hi Hj. unfold face_cell, cell_faces.
  rewrite !grid_at_entry by lia. cbn [bind].
  destruct (j <? freq - i - 1)%Z eqn:E.
  - rewrite grid_at_entry by lia. cbn [bind].
    rewrite <- app_assoc. reflexivity.
  - reflexivity.
Qed.

Lemma face_cells_eq (i : Z) (Hi : (0 <= i < freq)%Z) (m : Z) :
  (0 <= m)%Z -> (m <= freq - i)%Z ->
  forall faces : list face,
    for_each (face_cell grid freq i) faces (py_range m) =
    Ok (faces ++ flat_map (cell_faces g freq i) (py_range m)).
Proof.
  intros Hm. pattern m. apply natlike_ind; [| |exact Hm]; clear m Hm.
  - intros _ faces. simpl. rewrite app_nil_r. reflexivity.
  - intros m Hm IH Hle faces. unfold Z.succ.
    rewrite py_range_succ, for_each_app, flat_map_app by lia.
    rewrite IH by lia. cbn [bind for_each flat_map].
    rewrite face_cell_eq by lia. cbn [bind].
    rewrite app_nil_r, app_assoc. reflexivity.
Qed.

Lemma face_rows_eq (n : Z) :
  (0 <= n)%Z -> (n <= freq)%Z ->
  forall faces : list face,
    for_each (face_row grid freq) faces (py_range n) =
    Ok (faces ++
        flat_map (fun i => flat_map (cell_faces g freq i)
                                    (py_range (freq - i)))
                 (py_range n)).
Proof.
  intros Hn. pattern n. apply natlike_ind; [| |exact Hn]; clear n Hn.
  - intros _ faces. simpl. rewrite app_nil_r. reflexivity.
  - intros n Hn IH Hle faces. unfold Z.succ.
    rewrite py_range_succ, for_each_app, flat_map_app by lia.
    rewrite IH by lia. cbn [bind for_each flat_map].
    unfold face_row. rewrite face_cells_eq by lia. cbn [bind].
    rewrite app_nil_r, app_assoc. reflexivity.
Qed.

(** The second loop never raises on a grid of the right shape, and its
    result is the walk over the grid. *)
Lemma grid_faces_eq :
  (0 <= freq)%Z -> grid_faces grid freq = Ok (walk_faces g freq).
Proof.
  intros H. unfold grid_faces, walk_faces.
  rewrite face_rows_eq by lia. reflexivity.
Qed.
End Faces.

Section FaceCount.
Variable g : Z -> Z -> Z.
Variable freq : Z.

Lemma cells_count (i m : Z) :
  (0 <= m)%Z -> (m < freq - i)%Z ->
  len (flat_map (cell_faces g freq i) (py_range m)) = (2 * m)%Z.
Proof.
  intros Hm. pattern m. apply natlike_ind; [| |exact Hm]; clear m Hm.
  - intros _. reflexivity.
  - intros m Hm IH Hlt. unfold Z.succ.
    rewrite py_range_succ, flat_map_app, len_app by lia.
    rewrite IH by lia. cbn [flat_map]. unfold cell_faces.
    replace (m <? freq - i - 1)%Z with true by lia.
    change (len _) with 2%Z. lia.
Qed.

Lemma row_count (i : Z) :
  (0 <= i < freq)%Z ->
  len (flat_map (cell_faces g freq i) (py_range (freq - i))) =
  (2 * (freq - i) - 1)%Z.
Proof.
  intros Hi.
  replace (freq - i)%Z with ((freq - i - 1) + 1)%Z at 1 by lia.
  rewrite py_range_succ, flat_map_app, len_app by lia.
  rewrite cells_count by lia. cbn [flat_map]. unfold cell_faces.
  replace (freq - i - 1 <? freq - i - 1)%Z with false by lia.
  change (len _) with 1%Z. lia.
Qed.

Lemma rows_count (n : Z) :
  (0 <= n)%Z -> (n <= freq)%Z ->
  len (flat_map (fun i => flat_map (cell_faces g freq i)
                                   (py_range (freq - i)))
                (py_range n)) = (2 * n * freq - n * n)%Z.
Proof.
  intros Hn. pattern n. apply natlike_ind; [| |exact Hn]; clear n Hn.
  - intros _. reflexivity.
  - intros n Hn IH Hle. unfold Z.succ.
    rewrite py_range_succ, flat_map_app, len_app by lia.
    rewrite IH by lia. cbn [flat_map]. rewrite app_nil_r.
    rewrite row_count by lia. lia.
Qed.

(** The walk emits [freq * freq] triangles. *)
Lemma walk_faces_count :
  (0 <= freq)%Z -> len (walk_faces g freq) = (freq * freq)%Z.
Proof.
  intros H. unfold walk_faces. rewrite rows_count by lia. lia.
Qed.
End FaceCount.

(** ** Subdividing one triangle *)

Section Subdivide.
Variable round8 : float -> float.
Variable self : GeodesicCalculator.
Variables v0 v1 v2 : point.
Variable freq : Z.

Local Abbreviation sample_row := (sample_row self v0 v1 v2 freq).
Local Abbreviation sample_rows := (sample_rows self v0 v1 v2 freq).
Local Abbreviation samples := (samples self v0 v1 v2 freq).

Lemma sample_row_length (i : Z) :
  length (sample_row i) = Z.to_nat (freq + 1 - i).
Proof.
  unfold sample_row. rewrite length_map. apply py_range_length.
Qed.

Lemma sample_rows_count (n : Z) :
  (0 <= n)%Z -> (n <= freq + 1)%Z ->
  (2 * len (concat (map sample_row (py_range n))) =
   n * (2 * freq + 3 - n))%Z.
Proof.
  intros Hn. pattern n. apply natlike_ind; [| |exact Hn]; clear n Hn.
  - intros _. reflexivity.
  - intros n Hn IH Hle. unfold Z.succ.
    rewrite py_range_succ, map_app, concat_app, len_app by lia.
    cbn [map concat]. rewrite app_nil_r.
    unfold len at 2. rewrite sample_row_length. lia.
Qed.

(** There are [(freq + 1) * (freq + 2) / 2] grid samples. *)
Lemma samples_count :
  (0 <= freq)%Z -> len samples = ((freq + 1) * (freq + 2) / 2)%Z.
Proof.
  intros H. unfold samples, sample_rows.
  pose proof (sample_rows_count (n := freq + 1)) as C.
  apply Z.div_unique_exact; [lia|]. rewrite C by lia. lia.
Qed.

Lemma built_grid_shape (verts : list point) :
  (0 <= freq)%Z ->
  grid_shape freq (snd (intern_rows round8 verts sample_rows)).
Proof.
  intros H.
  pose proof (intern_rows_lengths round8 sample_rows verts) as L.
  set (grid := snd (intern_rows round8 verts sample_rows)) in *.
  assert (Hlen : length grid = Z.to_nat (freq + 1)).
  { rewrite <- (length_map (@length Z) grid), L, length_map.
    unfold sample_rows. rewrite length_map.
    apply py_range_length. }
  split; [unfold len; lia|].
  intros i Hi. unfold len.
  change (length (nth (Z.to_nat i) grid [])) with
    ((fun l => length l) (nth (Z.to_nat i) grid [])).
  rewrite <- (map_nth (@length Z)), L.
  unfold sample_rows. rewrite map_map.
  rewrite nth_indep with (d' := length (sample_row 0))
    by (rewrite length_map, py_range_length; lia).
  rewrite (map_nth (fun x => length (sample_row x))).
  rewrite nth_py_range, sample_row_length by lia. lia.
Qed.

Lemma subdivide_triangle_eq :
  (0 <= freq)%Z ->
  _subdivide_triangle round8 self v0 v1 v2 freq =
  Ok (fst (intern_rows round8 [] sample_rows),
      walk_faces (grid_entry (snd (intern_rows round8 [] sample_rows)))
                 freq).
Proof.
  intros H. unfold _subdivide_triangle. rewrite build_grid_eq.
  pose proof (built_grid_shape [] H) as S.
  destruct (intern_rows round8 [] sample_rows) as [verts grid].
  cbn [bind fst snd] in *.
  rewrite (grid_faces_eq S) by lia. reflexivity.
Qed.

(** C6. For every frequency [>= 1] (and every triangle, radius and
    rounding) the first loop returns a grid with rows [0 .. freq], row
    [i] holding [freq + 1 - i] local indices, and the faces returned by
    [_subdivide_triangle] are exactly the walk over that grid: for each
    row [i] in [0, freq-1] and column [j] in [0, freq-i-1] the upward
    triangle [(grid(i,j), grid(i+1,j), grid(i,j+1))], followed by the
    downward triangle [(grid(i+1,j), grid(i+1,j+1), grid(i,j+1))] when
    [j < freq-i-1]; they are [freq^2] in number. *)
Theorem subdivide_triangle_faces :
  (1 <= freq)%Z ->
  exists (verts : list point) (grid : list (list Z)),
    build_grid round8 self v0 v1 v2 freq = Ok (verts, grid) /\
    grid_shape freq grid /\
    (forall i j : Z, (0 <= i <= freq)%Z -> (0 <= j <= freq - i)%Z ->
       grid_at grid i j = Ok (grid_entry grid i j)) /\
    _subdivide_triangle round8 self v0 v1 v2 freq =
      Ok (verts, walk_faces (grid_entry grid) freq) /\
    len (walk_faces (grid_entry grid) freq) = (freq * freq)%Z.
Proof.
  intros H.
  exists (fst (intern_rows round8 [] sample_rows)),
         (snd (intern_rows round8 [] sample_rows)).
  assert (S := built_grid_shape [] (ltac:(lia) : (0 <= freq)%Z)).
  split; [|split; [exact S|split; [|split]]].
  - rewrite build_grid_eq. destruct (intern_rows _ _ _). reflexivity.
  - intros i j Hi Hj. apply (grid_at_entry S); assumption.
  - apply subdivide_triangle_eq. lia.
  - apply walk_faces_count. lia.
Qed.
End Subdivide.

Lemma keys_distinctb_sound (round8 : float -> float) (pts : list point) :
  keys_distinctb (map (key_of round8) pts) = true -> keys_distinct round8 pts.
Proof.
  induction pts as [|pt pts IH]; intros H p q Hpq; simpl in *; [lia|].
  apply andb_true_iff in H. destruct H as [H1 H2].
  destruct q as [|q]; [lia|]. destruct p as [|p].
  - rewrite forallb_forall in H1.
    apply negb_true_iff, H1, in_map, nth_In. lia.
  - apply IH; [exact H2|lia].
Qed.

Section SubdivideVertices.
Variable round8 : float -> float.
Variable self : GeodesicCalculator.
Variables v0 v1 v2 : point.
Variable freq : Z.

Local Abbreviation samples := (samples self v0 v1 v2 freq).

(** C7, amended. For every frequency [>= 1], [_subdivide_triangle] takes
    one barycentric sample per row [i] in [0, freq] and column [j] in
    [0, freq-i], [(freq+1)*(freq+2)/2] samples in all, each interpolated
    with the weights [a = i/freq], [b = j/freq], [c = 1-a-b] and
    projected onto the sphere.  The samples are interned in discovery
    order: a sample whose rounded key equals the key of a local vertex
    found earlier in the call reuses that vertex's index, any other
    sample is appended and gets the next index.  So the call returns at
    most [(freq+1)*(freq+2)/2] local vertices, and when no two samples
    have equal keys it returns exactly the samples, indexed in
    discovery order. *)
Theorem subdivide_triangle_vertices :
  (1 <= freq)%Z ->
  exists (verts : list point) (faces : list face) (grid : list (list Z)),
    _subdivide_triangle round8 self v0 v1 v2 freq = Ok (verts, faces) /\
    build_grid round8 self v0 v1 v2 freq = Ok (verts, grid) /\
    (forall i j : Z,
       weights freq i j = Ok (weight freq i, weight freq j) /\
       int_truediv i freq = Ok (weight freq i) /\
       grid_sample self v0 v1 v2 freq i j =
         Ok (grid_point self v0 v1 v2 freq i j)) /\
    len samples = ((freq + 1) * (freq + 2) / 2)%Z /\
    (verts, concat grid) = intern_all round8 [] samples /\
    (len verts <= (freq + 1) * (freq + 2) / 2)%Z /\
    (keys_distinct round8 samples ->
     verts = samples /\ concat grid = py_range (len samples)).
Proof.
  intros H.
  pose proof (subdivide_triangle_eq round8 self v0 v1 v2
                (ltac:(lia) : (0 <= freq)%Z)) as E.
  pose proof (build_grid_eq round8 self v0 v1 v2 freq) as B.
  destruct (intern_rows_concat round8 (sample_rows self v0 v1 v2 freq) [])
    as [C1 C2].
  destruct (intern_rows round8 [] (sample_rows self v0 v1 v2 freq))
    as [verts grid] eqn:R.
  cbn [fst snd] in *. fold samples in C1, C2.
  exists verts, (walk_faces (grid_entry grid) freq), grid.
  assert (Hc : len samples = ((freq + 1) * (freq + 2) / 2)%Z)
    by (apply samples_count; lia).
  split; [exact E|]. split; [exact B|]. split; [|split; [exact Hc|]].
  { intros i j. split; [|split].
    - unfold weights, int_truediv, weight.
      replace (freq >? 0)%Z with true by lia.
      replace (freq =? 0)%Z with false by lia. reflexivity.
    - unfold int_truediv, weight.
      replace (freq >? 0)%Z with true by lia.
      replace (freq =? 0)%Z with false by lia. reflexivity.
    - apply grid_sample_eq. }
  split; [|split].
  - rewrite C1, C2. destruct (intern_all round8 [] samples). reflexivity.
  - destruct (intern_all_extends round8 samples []) as [extra [X1 [X2 _]]].
    rewrite <- C1 in X1. simpl in X1. subst extra.
    rewrite <- Hc. unfold len. lia.
  - intros D. rewrite C1, C2.
    rewrite (intern_all_distinct (round8 := round8) samples [] D).
    simpl. split; [reflexivity|].
    unfold py_range, len. rewrite Nat2Z.id. reflexivity.
Qed.
End SubdivideVertices.

Section FrequencyOne.
Variable round8 : float -> float.
Variable self : GeodesicCalculator.
Variables v0 v1 v2 : point.

Lemma samples_frequency_one :
  samples self v0 v1 v2 1 =
  [ project self (interpolate v0 v1 v2 0 0);
    project self (interpolate v0 v1 v2 0 1);
    project self (interpolate v0 v1 v2 1 0) ].
Proof. reflexivity. Qed.

(** C9, amended. For frequency 1 the grid has three samples, the
    projections of the interpolations with weights [(a, b, c)] equal to
    [(0, 0, 1)], [(0, 1, 0)] and [(1, 0, 0)], that is of the corners
    [v2], [v1] and [v0], in this order.  When their rounded keys are
    pairwise different, [_subdivide_triangle] returns exactly these
    three vertices and the single face [(0, 2, 1)], which is the
    triangle over [v2], [v0], [v1]. *)
Theorem subdivide_triangle_frequency_one :
  keys_distinct round8 (samples self v0 v1 v2 1) ->
  _subdivide_triangle round8 self v0 v1 v2 1 =
  Ok ([ project self (interpolate v0 v1 v2 0 0);
        project self (interpolate v0 v1 v2 0 1);
        project self (interpolate v0 v1 v2 1 0) ],
      [(0, 2, 1)%Z]).
Proof.
  intros D.
  rewrite subdivide_triangle_eq by lia.
  destruct (intern_rows_concat round8 (sample_rows self v0 v1 v2 1) [])
    as [C1 C2].
  fold (samples self v0 v1 v2 1) in C1, C2.
  rewrite (intern_all_distinct (round8 := round8) _ [] D) in C1, C2.
  destruct (intern_rows round8 [] (sample_rows self v0 v1 v2 1))
    as [verts grid] eqn:R.
  pose proof (intern_rows_lengths round8 (sample_rows self v0 v1 v2 1) [])
    as L.
  rewrite R in L. cbn [fst snd] in *.
  rewrite samples_frequency_one in C1, C2. cbn in C2, L.
  destruct grid as [|[|a [|b [|]]] [|[|c [|]] [|]]]; try discriminate.
  injection C2 as -> -> ->. subst verts. reflexivity.
Qed.
End FrequencyOne.

(** ** The merge: the passes *)

Section MergePasses.
Variable round8 : float -> float.

Local Abbreviation key_of := (key_of round8).
Local Abbreviation index_dict := (index_dict round8).
Local Abbreviation intern := (intern round8).
Local Abbreviation intern_all := (intern_all round8).

Lemma enumerate_snd {A : Type} (l : list A) : map snd (enumerate l) = l.
Proof.
  unfold enumerate.
  assert (H : forall (l1 : list Z) (l2 : list A),
             length l1 = length l2 -> map snd (combine l1 l2) = l2).
  { induction l1 as [|x l1 IH]; intros [|y l2] E; simpl in *;
      try discriminate; [reflexivity|].
    rewrite IH by lia. reflexivity. }
  apply H. rewrite py_range_length. unfold len. lia.
Qed.

(** The dict of the first pass holds positions only, so the test on the
    rounded tuple never finds anything. *)
Lemma dict_get_int_keyed (d : dict (K := pykey) (V := Z)) (k : point) :
  Forall (fun kv => exists i, fst kv = KInt i) d ->
  dict_get pykey_eqb d (KTuple k) = None.
Proof.
  induction 1 as [|[k' v] d [i Hk] _ IH]; simpl in *; [reflexivity|].
  subst k'. exact IH.
Qed.

Lemma dict_set_int_keyed (d : dict (K := pykey) (V := Z)) (i v : Z) :
  Forall (fun kv => exists i, fst kv = KInt i) d ->
  Forall (fun kv => exists i, fst kv = KInt i)
         (dict_set pykey_eqb d (KInt i) v).
Proof.
  induction 1 as [|[k' v'] d Hk Hd IH]; simpl.
  - constructor; [exists i; reflexivity|constructor].
  - destruct (pykey_eqb k' (KInt i)); constructor;
      solve [exact Hk | assumption].
Qed.

Lemma merge_pass1_ok (l : list (Z * point)) :
  forall (vert_map : dict (K := pykey) (V := Z)) (unique_verts : list point),
    Forall (fun kv => exists i, fst kv = KInt i) vert_map ->
    exists st, for_each (merge_pass1 round8) (vert_map, unique_verts) l = Ok st.
Proof.
  induction l as [|[i v] l IH]; intros vert_map unique_verts H;
    cbn [for_each]; [eauto|].
  unfold merge_pass1 at 1. unfold dict_mem.
  rewrite dict_get_int_keyed by exact H. cbn [negb bind].
  apply IH, dict_set_int_keyed, H.
Qed.

Lemma merge_pass2_ok (verts : list point) (l : list Z) :
  Forall (fun i => (0 <= i < len verts)%Z) l ->
  forall st, exists st', for_each (merge_pass2 round8 verts) st l = Ok st'.
Proof.
  induction 1 as [|i l Hi _ IH]; intros [final_map unique_verts];
    cbn [for_each]; [eauto|].
  unfold merge_pass2 at 1.
  rewrite (py_index_nth verts zero_point Hi). cbn [bind].
  destruct (negb _); cbn [bind]; apply IH.
Qed.

Lemma merge_pass3_eq (l : list (Z * point)) :
  forall unique_verts : list point,
    for_each (merge_pass3 round8) (index_dict unique_verts, unique_verts) l =
    Ok (index_dict (fst (intern_all unique_verts (map snd l))),
        fst (intern_all unique_verts (map snd l))).
Proof.
  induction l as [|[i v] l IH]; intros unique_verts;
    cbn [for_each map snd intern_all]; [reflexivity|].
  unfold merge_pass3 at 1. unfold intern, dict_mem.
  destruct (dict_get key_eqb (index_dict unique_verts) (key_of v))
    as [idx|] eqn:E; cbn [negb bind].
  - rewrite IH. destruct (intern_all unique_verts (map snd l)). reflexivity.
  - rewrite dict_set_absent by exact E.
    rewrite <- index_dict_snoc, IH.
    destruct (intern_all (unique_verts ++ [v]) (map snd l)). reflexivity.
Qed.

(** The first two passes never raise and leave no trace: the result is
    the vertices of the third pass and the faces remapped through its
    [index_map]. *)
Lemma merge_duplicates_eq (verts : list point) (faces : list face) :
  _merge_duplicates round8 verts faces =
  (new_faces <-
     for_each (remap_face round8 verts
                 (index_dict (fst (intern_all [] verts)))) [] faces ;;
   Ok (fst (intern_all [] verts), new_faces)).
Proof.
  unfold _merge_duplicates.
  destruct (merge_pass1_ok (enumerate verts) (vert_map := []) []
              (Forall_nil _)) as [[vert_map u1] E1].
  match goal with
  | |- context [for_each (merge_pass1 round8) ?s ?l] =>
      replace (for_each (merge_pass1 round8) s l) with (Ok (vert_map, u1))
        by (symmetry; exact E1)
  end.
  cbn [bind].
  assert (R : Forall (fun i => (0 <= i < len verts)%Z)
                     (py_range (len verts))).
  { apply Forall_forall. intros i Hi. apply In_py_range in Hi. exact Hi. }
  destruct (@merge_pass2_ok verts _ R
              ([] : dict (K := point) (V := Z), u1))
    as [[final_map u2] E2].
  match goal with
  | |- context [for_each (merge_pass2 round8 verts) ?s ?l] =>
      replace (for_each (merge_pass2 round8 verts) s l)
        with (Ok (final_map, u2)) by (symmetry; exact E2)
  end.
  cbn [bind].
  pose proof (merge_pass3_eq (enumerate verts) []) as E3.
  rewrite enumerate_snd in E3.
  match goal with
  | |- context [for_each (merge_pass3 round8) ?s ?l] =>
      replace (for_each (merge_pass3 round8) s l)
        with (Ok (index_dict (fst (intern_all [] verts)),
                  fst (intern_all [] verts))) by (symmetry; exact E3)
  end.
  reflexivity.
Qed.
End MergePasses.

(** ** The merge against its specification *)

Lemma py_index_cases {A : Type} (l : list A) (i : Z) :
  (exists (n : nat) (a : A),
      nth_error l n = Some a /\ py_index l i = Ok a /\
      forall (B : Type) (l' : list B), length l' = length l ->
        py_index l' i = match nth_error l' n with
                        | Some b => Ok b
                        | None => Raise IndexError
                        end) \/
  (py_index l i = Raise IndexError /\
   forall (B : Type) (l' : list B), length l' = length l ->
     py_index l' i = Raise IndexError).
Proof.
  unfold py_index.
  set (j := fun n : Z => if (i <? 0)%Z then (n + i)%Z else i).
  change (if (i <? 0)%Z then (len l + i)%Z else i) with (j (len l)).
  destruct (j (len l) <? 0)%Z eqn:Ej.
  - right. split; [reflexivity|]. intros B l' L.
    change (if (i <? 0)%Z then (len l' + i)%Z else i) with (j (len l')).
    unfold len in *. rewrite L, Ej. reflexivity.
  - destruct (nth_error l (Z.to_nat (j (len l)))) as [a|] eqn:N.
    + left. exists (Z.to_nat (j (len l))), a.
      split; [exact N|]. split; [reflexivity|]. intros B l' L.
      change (if (i <? 0)%Z then (len l' + i)%Z else i) with (j (len l')).
      unfold len in *. rewrite L, Ej. reflexivity.
    + right. split; [reflexivity|]. intros B l' L.
      change (if (i <? 0)%Z then (len l' + i)%Z else i) with (j (len l')).
      unfold len in *. rewrite L, Ej.
      assert (N' : nth_error l' (Z.to_nat (j (Z.of_nat (length l)))) = None)
        by (apply nth_error_None; apply nth_error_None in N; lia).
      rewrite N'. reflexivity.
Qed.

Section MergeSpec.
Variable round8 : float -> float.

Local Abbreviation key_of := (key_of round8).
Local Abbreviation index_dict := (index_dict round8).
Local Abbreviation intern := (intern round8).
Local Abbreviation intern_all := (intern_all round8).

Lemma index_dict_app (verts extra : list point) :
  exists d, index_dict (verts ++ extra) = index_dict verts ++ d.
Proof.
  induction extra as [|pt extra IH] using rev_ind.
  - exists []. rewrite !app_nil_r. reflexivity.
  - destruct IH as [d IH]. exists (d ++ [(key_of pt, len (verts ++ extra))]).
    rewrite app_assoc, index_dict_snoc, IH, app_assoc. reflexivity.
Qed.

(** Looking a vertex's key up in the final [index_map] gives the index the
    vertex received when it was met, and fails only on a key that is not
    equal to itself. *)
Lemma lookup_merged (pts : list point) :
  forall (verts : list point) (n : nat) (v : point),
    nth_error pts n = Some v ->
    (forall idx : Z,
       dict_get key_eqb (index_dict (fst (intern_all verts pts))) (key_of v)
         = Some idx ->
       nth_error (snd (intern_all verts pts)) n = Some idx) /\
    (dict_get key_eqb (index_dict (fst (intern_all verts pts))) (key_of v)
       = None ->
     key_eqb (key_of v) (key_of v) = false).
Proof.
  induction pts as [|pt pts IH]; intros verts n v Hn;
    [destruct n; discriminate|].
  cbn [intern_all].
  destruct n as [|n]; simpl in Hn.
  - injection Hn as ->. unfold intern.
    destruct (dict_get key_eqb (index_dict verts) (key_of v))
      as [idx0|] eqn:E.
    + destruct (intern_all_extends round8 pts verts) as [extra [X _]].
      destruct (intern_all verts pts) as [U merged]. cbn [fst snd] in *.
      subst U. destruct (index_dict_app verts extra) as [d ->].
      rewrite dict_get_app, E. split; [|discriminate].
      intros idx [= <-]. reflexivity.
    + destruct (intern_all_extends round8 pts (verts ++ [v]))
        as [extra [X _]].
      destruct (intern_all (verts ++ [v]) pts) as [U merged].
      cbn [fst snd] in *. subst U.
      destruct (index_dict_app (verts ++ [v]) extra) as [d ->].
      rewrite index_dict_snoc, !dict_get_app, E. cbn [dict_get].
      destruct (key_eqb (key_of v) (key_of v)) eqn:S.
      * split; [|discriminate]. intros idx [= <-]. reflexivity.
      * split; [|reflexivity]. intros idx Hd.
        apply dict_get_in in Hd. destruct Hd as [k' [_ Hk]].
        apply key_eqb_right_refl in Hk. congruence.
  - destruct (intern verts pt) as [verts1 idx0].
    specialize (IH verts1 n v Hn).
    destruct (intern_all verts1 pts) as [U merged]. exact IH.
Qed.
End MergeSpec.

Section MergeFaces.
Variable round8 : float -> float.
Variable verts : list point.

Local Abbreviation key_of := (key_of round8).
Local Abbreviation merged_verts := (fst (intern_all round8 [] verts)).
Local Abbreviation merged := (snd (intern_all round8 [] verts)).
Local Abbreviation index_map := (index_dict round8 merged_verts).

Lemma remap_index_cases (i : Z) :
  (py_index verts i = Raise IndexError /\
   py_index merged i = Raise IndexError) \/
  (exists (v : point) (idx : Z),
      py_index verts i = Ok v /\ py_index merged i = Ok idx /\
      (dict_get key_eqb index_map (key_of v) = Some idx \/
       dict_get key_eqb index_map (key_of v) = None /\
       key_eqb (key_of v) (key_of v) = false)).
Proof.
  destruct (py_index_cases verts i) as [[n [v [N [P Q]]]]|[P Q]].
  - right.
    specialize (Q Z merged (intern_all_length round8 verts [])).
    destruct (lookup_merged round8 verts [] n N) as [L1 L2].
    destruct (nth_error merged n) as [idx|] eqn:M.
    + exists v, idx. split; [exact P|]. split; [exact Q|].
      destruct (dict_get key_eqb index_map (key_of v)) as [idx'|] eqn:D.
      * left. specialize (L1 idx' eq_refl). congruence.
      * right. auto.
    + apply nth_error_None in M.
      rewrite (intern_all_length round8 verts []) in M.
      assert (nth_error verts n <> None) by congruence.
      apply nth_error_Some in H. lia.
  - left. split; [exact P|].
    apply Q, (intern_all_length round8 verts []).
Qed.

Lemma remap_face_cases (new_faces : list face) (f : face) :
  match remap_face round8 verts index_map new_faces f with
  | Ok new_faces' =>
      exists f' : face,
        remap_spec merged f = Ok f' /\
        new_faces' = new_faces ++ filter pairwise_distinct [f']
  | Raise IndexError => remap_spec merged f = Raise IndexError
  | Raise KeyError =>
      exists (i : Z) (v : point),
        (i = fst (fst f) \/ i = snd (fst f) \/ i = snd f) /\
        py_index verts i = Ok v /\
        key_eqb (key_of v) (key_of v) = false
  | Raise _ => False
  end.
Proof.
  destruct f as [[f0 f1] f2]. unfold remap_face, remap_spec, dict_lookup.
  destruct (remap_index_cases f0)
    as [[P0 Q0]|[w0 [n0 [P0 [Q0 D0]]]]]; rewrite P0, Q0; cbn [bind];
    [reflexivity|].
  destruct (remap_index_cases f1)
    as [[P1 Q1]|[w1 [n1 [P1 [Q1 D1]]]]]; rewrite P1, Q1; cbn [bind];
    [reflexivity|].
  destruct (remap_index_cases f2)
    as [[P2 Q2]|[w2 [n2 [P2 [Q2 D2]]]]]; rewrite P2, Q2; cbn [bind];
    [reflexivity|].
  destruct D0 as [D0|[D0 S0]]; rewrite D0; cbn [bind];
    [|exists f0, w0; cbn [fst snd]; auto].
  destruct D1 as [D1|[D1 S1]]; rewrite D1; cbn [bind];
    [|exists f1, w1; cbn [fst snd]; auto].
  destruct D2 as [D2|[D2 S2]]; rewrite D2; cbn [bind];
    [|exists f2, w2; cbn [fst snd]; auto].
  destruct (negb (n0 =? n1)%Z && negb (n1 =? n2)%Z && negb (n0 =? n2)%Z)%bool
    eqn:E; exists (n0, n1, n2); (split; [reflexivity|]);
    cbn [filter pairwise_distinct]; rewrite E, ?app_nil_r; reflexivity.
Qed.

Lemma remap_faces_cases (faces : list face) :
  forall new_faces : list face,
    match for_each (remap_face round8 verts index_map) new_faces faces with
    | Ok new_faces' =>
        exists remapped : list face,
          map_result (remap_spec merged) faces = Ok remapped /\
          new_faces' = new_faces ++ filter pairwise_distinct remapped
    | Raise IndexError =>
        map_result (remap_spec merged) faces = Raise IndexError
    | Raise KeyError => refers_to_nan round8 verts faces
    | Raise _ => False
    end.
Proof.
  induction faces as [|f faces IH]; intros new_faces; cbn [for_each map_result].
  - exists []. rewrite app_nil_r. auto.
  - pose proof (remap_face_cases new_faces f) as C.
    destruct (remap_face round8 verts index_map new_faces f)
      as [new_faces1|[]]; cbn [bind]; try contradiction.
    + destruct C as [f' [-> ->]]. cbn [bind].
      specialize (IH (new_faces ++ filter pairwise_distinct [f'])).
      destruct (for_each _ _ faces) as [new_faces2|[]]; try contradiction.
      * destruct IH as [remapped [-> ->]]. cbn [bind].
        exists (f' :: remapped). split; [reflexivity|].
        rewrite <- app_assoc. cbn [filter].
        destruct (pairwise_distinct f'); reflexivity.
      * destruct IH as [g [i [v [Hin H]]]].
        exists g, i, v. split; [right; exact Hin|exact H].
      * rewrite IH. reflexivity.
    + destruct C as [i [v H]]. exists f, i, v. split; [left; reflexivity|].
      exact H.
    + rewrite C. reflexivity.
Qed.

(** The outcomes of the merge, against [merge_spec]. *)
Lemma merge_duplicates_cases (faces : list face) :
  match _merge_duplicates round8 verts faces with
  | Ok out => merge_spec round8 verts faces = Ok out
  | Raise IndexError => merge_spec round8 verts faces = Raise IndexError
  | Raise KeyError => refers_to_nan round8 verts faces
  | Raise _ => False
  end.
Proof.
  rewrite merge_duplicates_eq. unfold merge_spec.
  pose proof (remap_faces_cases faces []) as C.
  destruct (intern_all round8 [] verts) as [U M]. cbn [fst snd] in *.
  destruct (for_each _ _ faces) as [new_faces|[]]; cbn [bind];
    try contradiction.
  - destruct C as [remapped [-> ->]]. reflexivity.
  - exact C.
  - rewrite C. reflexivity.
Qed.

End MergeFaces.

(** ** The merge is idempotent *)

Section MergeIdempotent.
Variable round8 : float -> float.

Local Abbreviation key_of := (key_of round8).
Local Abbreviation index_dict := (index_dict round8).
Local Abbreviation intern_all := (intern_all round8).
Local Abbreviation keys_distinct := (keys_distinct round8).

Lemma index_dict_nth (verts : list point) (p : nat) :
  (p < length verts)%nat ->
  In (key_of (nth p verts zero_point), Z.of_nat p) (index_dict verts).
Proof.
  intros H. unfold index_dict.
  assert (E : nth p (combine (map key_of verts) (py_range (len verts)))
                (key_of zero_point, 0%Z) =
              (key_of (nth p verts zero_point), Z.of_nat p)).
  { rewrite combine_nth
      by (rewrite length_map, py_range_length; unfold len; lia).
    rewrite map_nth, nth_py_range by (unfold len; lia). reflexivity. }
  rewrite <- E. apply nth_In.
  rewrite length_combine, length_map, py_range_length. unfold len. lia.
Qed.

Lemma keys_distinct_snoc (verts : list point) (pt : point) :
  keys_distinct verts ->
  dict_get key_eqb (index_dict verts) (key_of pt) = None ->
  keys_distinct (verts ++ [pt]).
Proof.
  intros D E p q Hpq. rewrite length_app in Hpq. simpl in Hpq.
  destruct (Nat.eq_dec q (length verts)) as [->|Hq].
  - rewrite app_nth1 by lia. rewrite app_nth2, Nat.sub_diag by lia. simpl.
    rewrite dict_get_none in E. eapply E. apply index_dict_nth. lia.
  - rewrite !app_nth1 by lia. apply D. lia.
Qed.

(** The vertices kept by interning have pairwise different keys. *)
Lemma intern_all_keys_distinct (pts : list point) :
  forall verts : list point,
    keys_distinct verts -> keys_distinct (fst (intern_all verts pts)).
Proof.
  induction pts as [|pt pts IH]; intros verts D; cbn [intern_all];
    [exact D|].
  unfold intern.
  destruct (dict_get key_eqb (index_dict verts) (key_of pt)) as [idx|] eqn:E.
  - specialize (IH verts D). destruct (intern_all verts pts). exact IH.
  - specialize (IH (verts ++ [pt]) (@keys_distinct_snoc verts pt D E)).
    destruct (intern_all (verts ++ [pt]) pts). exact IH.
Qed.

(** Among vertices with pairwise different keys, an index that is found
    under some key is in range and is found under its own vertex's key. *)
Lemma index_found_self (verts : list point) (i : Z) :
  keys_distinct verts -> index_found round8 verts i ->
  (0 <= i < len verts)%Z /\
  dict_get key_eqb (index_dict verts)
    (key_of (nth (Z.to_nat i) verts zero_point)) = Some i.
Proof.
  intros D [k Hk].
  apply dict_get_in in Hk. destruct Hk as [k' [Hin Hk]].
  apply index_dict_in in Hin. destruct Hin as [Hi [_ ->]].
  apply key_eqb_left_refl in Hk. split; [exact Hi|].
  remember (Z.to_nat i) as p eqn:Hp.
  assert (Hlt : (p < length verts)%nat) by (unfold len in Hi; lia).
  replace i with (Z.of_nat p) by lia. clear i Hi Hp.
  revert p Hk Hlt.
  induction verts as [|x verts IH] using rev_ind; intros p Hk Hlt;
    [simpl in Hlt; lia|].
  rewrite length_app in Hlt. simpl in Hlt.
  rewrite index_dict_snoc, dict_get_app.
  assert (D' : keys_distinct verts).
  { intros a b Hab. specialize (D a b).
    rewrite !app_nth1 in D by lia. apply D. rewrite length_app. lia. }
  destruct (Nat.eq_dec p (length verts)) as [->|Hp].
  - rewrite app_nth2, Nat.sub_diag in * by lia. simpl in *.
    assert (E : dict_get key_eqb (index_dict verts) (key_of x) = None).
    { apply dict_get_none. intros k0 n Hin.
      apply index_dict_in in Hin. destruct Hin as [Hn [_ ->]].
      unfold len in Hn. specialize (D (Z.to_nat n) (length verts)).
      rewrite app_nth1 in D by lia.
      rewrite app_nth2, Nat.sub_diag in D by lia.
      apply D. rewrite length_app. simpl. lia. }
    rewrite E, Hk. reflexivity.
  - rewrite app_nth1 in * by lia.
    rewrite (IH D' p Hk) by lia. reflexivity.
Qed.

Lemma remap_face_found (verts : list point) (index_map_of : list point)
    (new_faces new_faces' : list face) (f : face) :
  remap_face round8 verts (index_dict index_map_of) new_faces f
    = Ok new_faces' ->
  Forall (face_found round8 index_map_of) new_faces ->
  Forall (face_found round8 index_map_of) new_faces'.
Proof.
  destruct f as [[f0 f1] f2]. unfold remap_face, dict_lookup.
  destruct (py_index verts f0) as [w0|]; [|discriminate].
  destruct (py_index verts f1) as [w1|]; [|discriminate].
  destruct (py_index verts f2) as [w2|]; [|discriminate]. cbn [bind].
  destruct (dict_get key_eqb _ (key_of w0)) as [n0|] eqn:D0; [|discriminate].
  destruct (dict_get key_eqb _ (key_of w1)) as [n1|] eqn:D1; [|discriminate].
  destruct (dict_get key_eqb _ (key_of w2)) as [n2|] eqn:D2; [|discriminate].
  cbn [bind].
  destruct (negb (n0 =? n1)%Z && negb (n1 =? n2)%Z && negb (n0 =? n2)%Z)%bool
    eqn:E; intros [= <-] H; [|exact H].
  apply Forall_app. split; [exact H|]. constructor; [|constructor].
  split; [exact E|]. repeat split; eexists; eassumption.
Qed.

Lemma remap_faces_found (verts : list point) (index_map_of : list point)
    (faces : list face) :
  forall new_faces new_faces' : list face,
    for_each (remap_face round8 verts (index_dict index_map_of))
             new_faces faces = Ok new_faces' ->
    Forall (face_found round8 index_map_of) new_faces ->
    Forall (face_found round8 index_map_of) new_faces'.
Proof.
  induction faces as [|f faces IH]; intros new_faces new_faces';
    cbn [for_each].
  - intros [= <-] H. exact H.
  - destruct (remap_face _ _ _ new_faces f) as [nf|] eqn:R; [|discriminate].
    cbn [bind]. intros H1 H2. eapply IH; [exact H1|].
    eapply remap_face_found; eassumption.
Qed.

(** Remapping faces that were found, over vertices with pairwise
    different keys, changes nothing. *)
Lemma remap_found_faces (verts : list point) (faces : list face) :
  keys_distinct verts ->
  Forall (face_found round8 verts) faces ->
  forall new_faces : list face,
    for_each (remap_face round8 verts (index_dict verts)) new_faces faces =
    Ok (new_faces ++ faces).
Proof.
  intros D. induction 1 as [|[[a b] c] faces [P [Ha [Hb Hc]]] _ IH];
    intros new_faces; cbn [for_each].
  - rewrite app_nil_r. reflexivity.
  - destruct (index_found_self D Ha) as [Ra La].
    destruct (index_found_self D Hb) as [Rb Lb].
    destruct (index_found_self D Hc) as [Rc Lc].
    unfold remap_face at 1. unfold dict_lookup.
    rewrite (py_index_nth verts zero_point Ra),
            (py_index_nth verts zero_point Rb),
            (py_index_nth verts zero_point Rc). cbn [bind].
    rewrite La, Lb, Lc. cbn [bind].
    unfold pairwise_distinct in P. rewrite P. cbn [bind].
    rewrite IH, <- app_assoc. reflexivity.
Qed.

(** C8. The merge is idempotent: if [_merge_duplicates] returns
    [(merged_verts, merged_faces)] on some input, then applied to
    [(merged_verts, merged_faces)] it returns the same pair. *)
Theorem merge_duplicates_idempotent (verts : list point) (faces : list face)
    (merged_verts : list point) (merged_faces : list face) :
  _merge_duplicates round8 verts faces = Ok (merged_verts, merged_faces) ->
  _merge_duplicates round8 merged_verts merged_faces =
    Ok (merged_verts, merged_faces).
Proof.
  rewrite !merge_duplicates_eq.
  destruct (for_each _ [] faces) as [new_faces|] eqn:R; [|discriminate].
  cbn [bind]. intros [= <- <-].
  assert (D : keys_distinct (fst (intern_all [] verts))).
  { apply intern_all_keys_distinct. intros p q H. simpl in H. lia. }
  assert (F : Forall (face_found round8 (fst (intern_all [] verts)))
                     new_faces).
  { eapply remap_faces_found; [exact R|constructor]. }
  rewrite (intern_all_distinct (round8 := round8) _ [] D). cbn [fst app].
  rewrite (remap_found_faces D F). reflexivity.
Qed.
End MergeIdempotent.

(** ** The local mesh of one triangle *)

Section LocalMesh.
Variable round8 : float -> float.
Variable self : GeodesicCalculator.
Variables v0 v1 v2 : point.
Variable freq : Z.

Local Abbreviation sample_rows := (sample_rows self v0 v1 v2 freq).
Local Abbreviation samples := (samples self v0 v1 v2 freq).
Local Abbreviation local_verts := (fst (intern_rows round8 [] sample_rows)).
Local Abbreviation local_grid := (snd (intern_rows round8 [] sample_rows)).

(** [_subdivide_triangle] returns for every frequency, also below 1. *)
Lemma subdivide_triangle_total :
  _subdivide_triangle round8 self v0 v1 v2 freq =
  Ok (local_verts, walk_faces (grid_entry local_grid) freq).
Proof.
  destruct (Z_le_gt_dec 0 freq) as [H|H].
  - apply subdivide_triangle_eq. exact H.
  - unfold _subdivide_triangle. rewrite build_grid_eq.
    destruct (intern_rows round8 [] sample_rows) as [verts grid].
    cbn [bind fst snd]. unfold grid_faces, walk_faces.
    rewrite py_range_nonpos by lia. reflexivity.
Qed.

Lemma grid_entry_in (grid : list (list Z)) (i j : Z) :
  grid_shape freq grid ->
  (0 <= i <= freq)%Z -> (0 <= j <= freq - i)%Z ->
  In (grid_entry grid i j) (concat grid).
Proof.
  intros [Hlen Hrow] Hi Hj. unfold grid_entry.
  apply in_concat. exists (nth (Z.to_nat i) grid []). split.
  - apply nth_In. unfold len in Hlen. lia.
  - apply nth_In. specialize (Hrow i Hi). unfold len in Hrow. lia.
Qed.

Lemma walk_faces_in_range (g : Z -> Z -> Z) (n : Z) :
  (forall i j : Z, (0 <= i <= freq)%Z -> (0 <= j <= freq - i)%Z ->
     (0 <= g i j < n)%Z) ->
  Forall (face_in_range n) (walk_faces g freq).
Proof.
  intros B. apply Forall_forall. intros f Hf.
  unfold walk_faces in Hf. apply in_flat_map in Hf.
  destruct Hf as [i [Hi Hf]]. apply In_py_range in Hi.
  apply in_flat_map in Hf. destruct Hf as [j [Hj Hf]].
  apply In_py_range in Hj. unfold cell_faces in Hf.
  destruct Hf as [<-|Hf].
  - repeat split; apply B; lia.
  - destruct (j <? freq - i - 1)%Z eqn:E; [|contradiction].
    destruct Hf as [<-|[]]. repeat split; apply B; lia.
Qed.

Lemma local_grid_in_range :
  Forall (fun idx => (0 <= idx < len local_verts)%Z) (concat local_grid).
Proof.
  destruct (intern_rows_concat round8 sample_rows []) as [C1 C2].
  destruct (intern_all_extends round8 (concat sample_rows) [])
    as [_ [_ [_ B]]].
  rewrite C1, C2. exact B.
Qed.

(** The local faces refer to local vertices. *)
Lemma local_faces_in_range :
  Forall (face_in_range (len local_verts))
         (walk_faces (grid_entry local_grid) freq).
Proof.
  destruct (Z_le_gt_dec 0 freq) as [H|H].
  - apply walk_faces_in_range. intros i j Hi Hj.
    pose proof local_grid_in_range as B. rewrite Forall_forall in B.
    apply B, grid_entry_in; try assumption.
    apply built_grid_shape. exact H.
  - unfold walk_faces. rewrite py_range_nonpos by lia. constructor.
Qed.

(** The local vertices are grid samples. *)
Lemma local_verts_incl : incl local_verts samples.
Proof.
  destruct (intern_rows_concat round8 sample_rows []) as [C1 _].
  rewrite C1. fold samples.
  assert (G : forall pts verts,
             incl (fst (intern_all round8 verts pts)) (verts ++ pts)).
  { induction pts as [|pt pts IH]; intros verts; cbn [intern_all].
    - rewrite app_nil_r. apply incl_refl.
    - unfold intern.
      destruct (dict_get key_eqb _ _).
      + specialize (IH verts). destruct (intern_all round8 verts pts).
        cbn [fst] in *. intros x Hx. apply IH in Hx.
        apply in_app_iff in Hx. apply in_app_iff. simpl. tauto.
      + specialize (IH (verts ++ [pt])).
        destruct (intern_all round8 (verts ++ [pt]) pts).
        cbn [fst] in *. rewrite <- app_assoc in IH. exact IH. }
  apply (G samples []).
Qed.

Lemma local_verts_count :
  (0 <= freq)%Z -> (len local_verts <= (freq + 1) * (freq + 2) / 2)%Z.
Proof.
  intros H.
  destruct (intern_rows_concat round8 sample_rows []) as [C1 _].
  destruct (intern_all_extends round8 (concat sample_rows) [])
    as [extra [X1 [X2 _]]].
  rewrite C1, X1. simpl.
  rewrite <- (samples_count self v0 v1 v2 H).
  unfold samples, len. lia.
Qed.
End LocalMesh.

(** ** The accumulated buffers *)

Section Accumulate.
Variable round8 : float -> float.
Variables math_cos math_sin : float -> float.
Variable self : GeodesicCalculator.

Local Abbreviation ico_verts := (ico_verts math_cos math_sin self).
Local Abbreviation local_mesh := (local_mesh round8 math_cos math_sin self).
Local Abbreviation accumulated := (accumulated round8 math_cos math_sin self).

Lemma map_result_project (l : list point) :
  map_result (_normalize_and_scale self) l = Ok (map (project self) l).
Proof.
  induction l as [|v l IH]; cbn [map_result map]; [reflexivity|].
  rewrite normalize_and_scale_eq, IH. reflexivity.
Qed.

Lemma create_icosahedron_eq :
  _create_icosahedron math_cos math_sin self = Ok (ico_verts, ico_faces).
Proof.
  unfold _create_icosahedron.
  change (math_sqrt 5) with (Ok (A := float) (sqrt 5)). cbn [bind].
  change (py_truediv 2 (sqrt 5)) with (Ok (A := float) sine_of_phi).
  cbn [bind]. rewrite map_result_project. reflexivity.
Qed.

Lemma ico_verts_length : len ico_verts = 12%Z.
Proof. reflexivity. Qed.

Lemma ico_faces_in_range : Forall (face_in_range 12) ico_faces.
Proof. repeat (constructor; [unfold face_in_range; lia|]). constructor. Qed.

Lemma subdivide_face_eq (acc : list point * list face) (idx : Z) (f : face) :
  face_in_range 12 f ->
  subdivide_face round8 self ico_verts acc (idx, f) =
  Ok (append_mesh acc (local_mesh f)).
Proof.
  destruct acc as [all_verts all_faces], f as [[f0 f1] f2].
  intros [H0 [H1 H2]]. unfold subdivide_face.
  rewrite (py_index_nth ico_verts zero_point (i := f0)),
          (py_index_nth ico_verts zero_point (i := f1)),
          (py_index_nth ico_verts zero_point (i := f2))
    by (rewrite ico_verts_length; assumption).
  cbn [bind]. rewrite subdivide_triangle_total. reflexivity.
Qed.

Lemma subdivide_faces_eq (l : list (Z * face)) :
  Forall (face_in_range 12) (map snd l) ->
  forall acc : list point * list face,
    for_each (subdivide_face round8 self ico_verts) acc l =
    Ok (fold_left append_mesh (map local_mesh (map snd l)) acc).
Proof.
  induction l as [|[idx f] l IH]; intros H acc; cbn [for_each map snd fold_left];
    [reflexivity|].
  inversion H as [|? ? Hf Hl]; subst.
  rewrite subdivide_face_eq by exact Hf. cbn [bind]. apply IH, Hl.
Qed.

(** The accumulation never raises. *)
Lemma accumulate_eq :
  accumulate round8 math_cos math_sin self = Ok accumulated.
Proof.
  unfold accumulate. rewrite create_icosahedron_eq. cbn [bind].
  rewrite subdivide_faces_eq; rewrite enumerate_snd;
    [reflexivity|apply ico_faces_in_range].
Qed.
End Accumulate.

Section AppendMeshes.
Lemma face_in_range_le (n m : Z) (f : face) :
  (n <= m)%Z -> face_in_range n f -> face_in_range m f.
Proof. destruct f as [[a b] c]. unfold face_in_range. lia. Qed.

Lemma face_in_range_offset (off n : Z) (f : face) :
  (0 <= off)%Z -> face_in_range n f ->
  face_in_range (off + n) (offset_face off f).
Proof. destruct f as [[a b] c]. unfold face_in_range, offset_face. lia. Qed.

Lemma fold_append_verts (meshes : list (list point * list face)) :
  forall acc : list point * list face,
    fst (fold_left append_mesh meshes acc) =
    fst acc ++ concat (map fst meshes).
Proof.
  induction meshes as [|[fv ff] meshes IH]; intros [av af];
    cbn [fold_left map concat fst].
  - rewrite app_nil_r. reflexivity.
  - rewrite IH. cbn [append_mesh fst]. rewrite app_assoc. reflexivity.
Qed.

Lemma fold_append_faces_count (k : Z) (meshes : list (list point * list face)) :
  Forall (fun mesh => len (snd mesh) = k) meshes ->
  forall acc : list point * list face,
    len (snd (fold_left append_mesh meshes acc)) =
    (len (snd acc) + len meshes * k)%Z.
Proof.
  induction 1 as [|[fv ff] meshes Hk _ IH]; intros [av af];
    cbn [fold_left snd].
  - unfold len. simpl. lia.
  - rewrite IH. cbn [append_mesh snd] in *.
    rewrite len_app. unfold len in *. rewrite length_map.
    simpl length. lia.
Qed.

Lemma fold_append_in_range (meshes : list (list point * list face)) :
  Forall (fun mesh => Forall (face_in_range (len (fst mesh))) (snd mesh))
         meshes ->
  forall acc : list point * list face,
    Forall (face_in_range (len (fst acc))) (snd acc) ->
    Forall (face_in_range (len (fst (fold_left append_mesh meshes acc))))
           (snd (fold_left append_mesh meshes acc)).
Proof.
  induction 1 as [|[fv ff] meshes Hm _ IH]; intros [av af] Hacc;
    cbn [fold_left]; [exact Hacc|].
  apply IH. cbn [append_mesh fst snd] in *.
  rewrite len_app. apply Forall_app. split.
  - eapply Forall_impl; [|exact Hacc]. intros f.
    apply face_in_range_le. pose proof (len_nonneg fv). lia.
  - rewrite Forall_forall in *. intros f Hf.
    apply in_map_iff in Hf. destruct Hf as [f' [<- Hf']].
    apply face_in_range_offset; [apply len_nonneg|auto].
Qed.
End AppendMeshes.

Section AccumulatedFacts.
Variable round8 : float -> float.
Variables math_cos math_sin : float -> float.
Variable self : GeodesicCalculator.

Local Abbreviation local_mesh := (local_mesh round8 math_cos math_sin self).
Local Abbreviation accumulated := (accumulated round8 math_cos math_sin self).

Lemma local_mesh_in_range (f : face) :
  Forall (face_in_range (len (fst (local_mesh f)))) (snd (local_mesh f)).
Proof.
  destruct f as [[f0 f1] f2]. unfold local_mesh. cbn [fst snd].
  apply local_faces_in_range.
Qed.

(** The faces handed to the merge refer to vertices handed to it. *)
Lemma accumulated_in_range :
  Forall (face_in_range (len (fst accumulated))) (snd accumulated).
Proof.
  unfold accumulated. apply fold_append_in_range; [|constructor].
  apply Forall_forall. intros mesh Hm. apply in_map_iff in Hm.
  destruct Hm as [f [<- _]]. apply local_mesh_in_range.
Qed.

(** Before the merge there are [20 * frequency^2] faces. *)
Lemma accumulated_faces_count :
  (0 <= frequency self)%Z ->
  len (snd accumulated) = (20 * (frequency self * frequency self))%Z.
Proof.
  intros H. unfold accumulated.
  rewrite (@fold_append_faces_count (frequency self * frequency self)).
  - reflexivity.
  - apply Forall_forall. intros mesh Hm. apply in_map_iff in Hm.
    destruct Hm as [[[f0 f1] f2] [<- _]]. unfold local_mesh. cbn [snd].
    apply walk_faces_count. exact H.
Qed.

Lemma accumulated_verts :
  fst accumulated = concat (map fst (map local_mesh ico_faces)).
Proof. unfold accumulated. rewrite fold_append_verts. reflexivity. Qed.
End AccumulatedFacts.

(** ** The merged mesh *)

Section MergedMesh.
Variable round8 : float -> float.

Lemma remap_spec_in_range (verts : list point) (faces : list face) :
  Forall (face_in_range (len verts)) faces ->
  exists remapped : list face,
    map_result (remap_spec (snd (intern_all round8 [] verts))) faces
      = Ok remapped /\
    Forall (face_in_range (len (fst (intern_all round8 [] verts)))) remapped /\
    length remapped = length faces.
Proof.
  destruct (intern_all_extends round8 verts []) as [_ [_ [_ B]]].
  pose proof (intern_all_length round8 verts []) as L.
  destruct (intern_all round8 [] verts) as [U merged]. cbn [fst snd] in *.
  rewrite Forall_forall in B.
  assert (P : forall i, (0 <= i < len verts)%Z ->
            exists idx, py_index merged i = Ok idx /\ (0 <= idx < len U)%Z).
  { intros i Hi. exists (nth (Z.to_nat i) merged 0%Z). split.
    - apply py_index_nth. unfold len in *. lia.
    - apply B, nth_In. unfold len in *. lia. }
  induction 1 as [|[[f0 f1] f2] faces [H0 [H1 H2]] _ IH]; cbn [map_result].
  - exists []. auto.
  - destruct IH as [remapped [-> [R Len]]]. unfold remap_spec at 1.
    destruct (P f0 H0) as [n0 [-> B0]]. destruct (P f1 H1) as [n1 [-> B1]].
    destruct (P f2 H2) as [n2 [-> B2]]. cbn [bind].
    exists ((n0, n1, n2) :: remapped). split; [reflexivity|]. split.
    + constructor; [unfold face_in_range; auto|exact R].
    + simpl. rewrite Len. reflexivity.
Qed.

Lemma filter_face_ok (n : Z) (remapped : list face) :
  Forall (face_in_range n) remapped ->
  Forall (face_ok n) (filter pairwise_distinct remapped).
Proof.
  intros H. apply Forall_forall. intros [[a b] c] Hf.
  apply filter_In in Hf. destruct Hf as [Hin Hd].
  rewrite Forall_forall in H. specialize (H _ Hin).
  unfold pairwise_distinct in Hd. unfold face_ok, face_in_range in *.
  rewrite !andb_true_iff, !negb_true_iff, !Z.eqb_neq in Hd. tauto.
Qed.

(** On faces that refer to vertices of the input, the merge returns the
    specified mesh, whose faces have three different indices in range,
    or it raises [KeyError] because of a NaN. *)
Lemma merge_duplicates_in_range (verts : list point) (faces : list face) :
  Forall (face_in_range (len verts)) faces ->
  match _merge_duplicates round8 verts faces with
  | Ok (merged_verts, merged_faces) =>
      merge_spec round8 verts faces = Ok (merged_verts, merged_faces) /\
      merged_verts = fst (intern_all round8 [] verts) /\
      Forall (face_ok (len merged_verts)) merged_faces /\
      (len merged_faces <= len faces)%Z
  | Raise e => e = KeyError /\ refers_to_nan round8 verts faces
  end.
Proof.
  intros H. pose proof (merge_duplicates_cases round8 verts faces) as S.
  destruct (@remap_spec_in_range verts faces H) as [remapped [M [R Len]]].
  assert (E : merge_spec round8 verts faces =
              Ok (fst (intern_all round8 [] verts),
                  filter pairwise_distinct remapped)).
  { unfold merge_spec.
    destruct (intern_all round8 [] verts) as [U merged]. cbn [fst snd] in *.
    rewrite M. reflexivity. }
  destruct (_merge_duplicates round8 verts faces) as [[mv mf]|[]];
    try contradiction.
  - split; [exact S|]. rewrite E in S. injection S as <- <-.
    split; [reflexivity|]. split.
    + apply filter_face_ok, R.
    + unfold len. pose proof (filter_length_le pairwise_distinct remapped).
      lia.
  - auto.
  - rewrite E in S. discriminate.
Qed.
End MergedMesh.

(** ** The whole computation *)

Section Calculate.
Variable round8 : float -> float.
Variables math_cos math_sin : float -> float.
Variable self : GeodesicCalculator.

Local Abbreviation accumulated := (accumulated round8 math_cos math_sin self).
Local Abbreviation calculate := (calculate round8 math_cos math_sin self).

Lemma map_Point3D_create (pts : list point) : map Point3D_create pts = pts.
Proof.
  induction pts as [|[[x y] z] pts IH]; simpl; [reflexivity|].
  rewrite IH. reflexivity.
Qed.

Lemma calculate_eq :
  calculate =
  ('(points, faces) <-
     _merge_duplicates round8 (fst accumulated) (snd accumulated) ;;
   Ok {| radius := radius self; frequency := frequency self;
         points := points; faces := faces |}).
Proof.
  unfold calculate. rewrite accumulate_eq.
  destruct accumulated as [all_verts all_faces]. cbn [bind fst snd].
  destruct (_merge_duplicates round8 all_verts all_faces) as [[pts fcs]|e];
    cbn [bind]; [|reflexivity].
  rewrite map_Point3D_create. reflexivity.
Qed.

(** The outcomes of [calculate]. *)
Lemma calculate_cases :
  match calculate with
  | Ok mesh => Forall (face_ok (len (points mesh))) (faces mesh)
  | Raise e =>
      e = KeyError /\
      refers_to_nan round8 (fst accumulated) (snd accumulated)
  end.
Proof.
  rewrite calculate_eq.
  pose proof (@merge_duplicates_in_range round8 _ _
                (accumulated_in_range round8 math_cos math_sin self)) as M.
  destruct (_merge_duplicates round8 (fst accumulated) (snd accumulated))
    as [[pts fcs]|e]; cbn [bind].
  - cbn [points faces]. tauto.
  - exact M.
Qed.

(** C5. For every radius and frequency (in particular every radius [> 0]
    and frequency [>= 1]), in the mesh [calculate] returns every face has
    three pairwise different indices, each within the bounds of the
    vertex sequence.  [calculate] returns such a mesh unless a rounded
    coordinate is a NaN, in which case it raises [KeyError]. *)
Theorem calculate_faces_valid :
  match calculate with
  | Ok mesh => Forall (face_ok (len (points mesh))) (faces mesh)
  | Raise e =>
      e = KeyError /\
      refers_to_nan round8 (fst accumulated) (snd accumulated)
  end.
Proof. exact calculate_cases. Qed.
End Calculate.

(** ** Arguments outside the documented domain *)

Section Arguments.
Variable round8 : float -> float.
Variables math_cos math_sin : float -> float.

Lemma local_mesh_nonpositive (self : GeodesicCalculator) (f : face) :
  (frequency self <= 0)%Z ->
  snd (local_mesh round8 math_cos math_sin self f) = [].
Proof.
  intros H. destruct f as [[f0 f1] f2]. unfold local_mesh. cbn [snd].
  unfold walk_faces. rewrite py_range_nonpos by exact H. reflexivity.
Qed.

Lemma local_mesh_negative (self : GeodesicCalculator) (f : face) :
  (frequency self < 0)%Z ->
  fst (local_mesh round8 math_cos math_sin self f) = [].
Proof.
  intros H. destruct f as [[f0 f1] f2]. unfold local_mesh. cbn [fst].
  unfold sample_rows. rewrite py_range_nonpos by lia. reflexivity.
Qed.

Lemma accumulated_nonpositive (self : GeodesicCalculator) :
  (frequency self <= 0)%Z ->
  snd (accumulated round8 math_cos math_sin self) = [].
Proof.
  intros H.
  assert (L : len (snd (accumulated round8 math_cos math_sin self)) = 0%Z).
  { unfold accumulated. rewrite (@fold_append_faces_count 0).
    - simpl. lia.
    - apply Forall_forall. intros mesh Hm. apply in_map_iff in Hm.
      destruct Hm as [f [<- _]]. rewrite local_mesh_nonpositive by exact H.
      reflexivity. }
  destruct (snd (accumulated _ _ _ _)); [reflexivity|]. discriminate.
Qed.

Lemma accumulated_negative (self : GeodesicCalculator) :
  (frequency self < 0)%Z ->
  fst (accumulated round8 math_cos math_sin self) = [].
Proof.
  intros H. rewrite accumulated_verts.
  induction ico_faces as [|f l IH]; [reflexivity|].
  cbn [map concat]. rewrite local_mesh_negative by exact H. exact IH.
Qed.

(** C2, amended. The calculator validates nothing.  [__init__] stores any
    radius and any frequency.  [calculate] never raises for an argument:
    the only exception it can raise is [KeyError] (a rounded coordinate
    that is a NaN).  With a frequency below 1 it returns a mesh that has
    no faces, and no vertices either when the frequency is negative;
    with a radius [<= 0] it computes as with any other radius. *)
Theorem calculate_validates_nothing (r : float) (f : Z) :
  init r f = {| radius := r; frequency := f; points := []; faces := [] |} /\
  (forall e : exn,
     calculate round8 math_cos math_sin (init r f) = Raise e ->
     e = KeyError) /\
  ((f < 1)%Z ->
   exists pts : list point,
     calculate round8 math_cos math_sin (init r f) =
       Ok {| radius := r; frequency := f; points := pts; faces := [] |} /\
     ((f < 0)%Z -> pts = [])).
Proof.
  split; [reflexivity|]. split.
  - intros e He.
    pose proof (calculate_cases round8 math_cos math_sin (init r f))
      as V.
    rewrite He in V. tauto.
  - intros Hf. rewrite calculate_eq, merge_duplicates_eq.
    rewrite accumulated_nonpositive by (simpl; lia).
    cbn [for_each bind radius frequency init].
    eexists. split; [reflexivity|].
    intros Hn. rewrite accumulated_negative by (simpl; lia). reflexivity.
Qed.
End Arguments.

(** ** The properties at concrete inputs *)

(** The triangle with corners on the three axes, at radius 1. *)
Lemma subdivide_triangle_faces_witness :
  exists (verts : list point) (grid : list (list Z)),
    build_grid py_round8 (init 1 2) (1, 0, 0)%float (0, 1, 0)%float (0, 0, 1)%float 2
      = Ok (verts, grid) /\
    grid_shape 2 grid /\
    (forall i j : Z, (0 <= i <= 2)%Z -> (0 <= j <= 2 - i)%Z ->
       grid_at grid i j = Ok (grid_entry grid i j)) /\
    _subdivide_triangle py_round8 (init 1 2) (1, 0, 0)%float (0, 1, 0)%float (0, 0, 1)%float 2 =
      Ok (verts, walk_faces (grid_entry grid) 2) /\
    len (walk_faces (grid_entry grid) 2) = (2 * 2)%Z.
Proof.
  apply (@subdivide_triangle_faces py_round8 (init 1 2)
           (1, 0, 0)%float (0, 1, 0)%float (0, 0, 1)%float 2).
  lia.
Defined.

(** The four faces of that triangle at frequency 2. *)
Example subdivide_triangle_frequency_two :
  _subdivide_triangle py_round8 (init 1 2) (1, 0, 0)%float (0, 1, 0)%float (0, 0, 1)%float 2 =
  Ok ([ (0, 0, 1); (0, 0x1.6a09e667f3bccp-1, 0x1.6a09e667f3bccp-1); (0, 1, 0);
        (0x1.6a09e667f3bccp-1, 0, 0x1.6a09e667f3bccp-1);
        (0x1.6a09e667f3bccp-1, 0x1.6a09e667f3bccp-1, 0); (1, 0, 0) ]%float,
      [ (0, 3, 1); (3, 4, 1); (1, 4, 2); (3, 5, 4) ]%Z).
Proof. vm_compute. reflexivity. Qed.

Lemma subdivide_triangle_vertices_witness :
  exists (verts : list point) (faces : list face) (grid : list (list Z)),
    _subdivide_triangle py_round8 (init 1 2) (1, 0, 0)%float (0, 1, 0)%float (0, 0, 1)%float 2
      = Ok (verts, faces) /\
    len verts = 6%Z /\
    verts = samples (init 1 2) (1, 0, 0)%float (0, 1, 0)%float (0, 0, 1)%float 2 /\
    concat grid = [0; 1; 2; 3; 4; 5]%Z.
Proof.
  destruct (@subdivide_triangle_vertices py_round8 (init 1 2)
              (1, 0, 0)%float (0, 1, 0)%float (0, 0, 1)%float 2)
    as [verts [faces [grid [S [_ [_ [C [_ [_ D]]]]]]]]]; [lia|].
  destruct D as [D1 D2].
  { apply keys_distinctb_sound. vm_compute. reflexivity. }
  exists verts, faces, grid. split; [exact S|].
  split; [rewrite D1, C; reflexivity|]. split; [exact D1|].
  rewrite D2, C. reflexivity.
Defined.

(** C7 is false as stated: the call deduplicates by rounded key.  At radius
    [2^-40] the corners [(r,0,0)], [(0,r,0)], [(0,0,r)] lie on the sphere,
    all six samples of frequency 2 round to the key [(0,0,0)], and a single
    local vertex comes out where the claim has [(2+1)*(2+2)/2 = 6]. *)
Lemma subdivide_triangle_vertices_counterexample :
  _subdivide_triangle py_round8 (init 0x1p-40 2)
    (0x1p-40, 0, 0)%float (0, 0x1p-40, 0)%float (0, 0, 0x1p-40)%float 2 =
  Ok ([(0, 0, 0x1p-40)%float], [(0, 0, 0); (0, 0, 0); (0, 0, 0); (0, 0, 0)]%Z)
  /\ len [(0, 0, 0x1p-40)%float] <> ((2 + 1) * (2 + 2) / 2)%Z.
Proof. split; [vm_compute; reflexivity|discriminate]. Qed.

Lemma subdivide_triangle_frequency_one_witness :
  _subdivide_triangle py_round8 (init 1 1) (1, 0, 0)%float (0, 1, 0)%float (0, 0, 1)%float 1 =
  Ok ([(0, 0, 1); (0, 1, 0); (1, 0, 0)]%float, [(0, 2, 1)%Z]).
Proof.
  rewrite (@subdivide_triangle_frequency_one py_round8 (init 1 1)
             (1, 0, 0)%float (0, 1, 0)%float (0, 0, 1)%float).
  - vm_compute. reflexivity.
  - apply keys_distinctb_sound. vm_compute. reflexivity.
Defined.

(** C9 is false as stated: at radius [2^-40] the three corners below lie on
    the sphere exactly (each is its own projection and has computed length
    [2^-40]), yet their rounded keys are all [(0,0,0)]: one sample is kept
    instead of three and the face that comes out is degenerate. *)
Lemma subdivide_triangle_frequency_one_counterexample :
  let r := 0x1p-40%float in
  let self := init r 1 in
  let v0 := (r, 0, 0)%float in
  let v1 := (0, r, 0)%float in
  let v2 := (0, 0, r)%float in
  (project self v0 = v0 /\ project self v1 = v1 /\ project self v2 = v2) /\
  (length_of v0 = r /\ length_of v1 = r /\ length_of v2 = r) /\
  _subdivide_triangle py_round8 self v0 v1 v2 1 = Ok ([v2], [(0, 0, 0)%Z]) /\
  _subdivide_triangle py_round8 self v0 v1 v2 1 <>
    Ok ([v2; v1; v0], [(0, 2, 1)%Z]).
Proof.
  cbv zeta. repeat split; try (vm_compute; reflexivity).
  vm_compute. discriminate.
Qed.

Lemma merge_duplicates_idempotent_witness :
  _merge_duplicates py_round8
    [(0, 0, 1); (0, 1, 0); (1, 0, 0)]%float [(0, 1, 2); (0, 1, 2)]%Z =
  Ok ([(0, 0, 1); (0, 1, 0); (1, 0, 0)]%float, [(0, 1, 2); (0, 1, 2)]%Z).
Proof.
  apply (@merge_duplicates_idempotent py_round8
           [(0, 0, 1); (0, 1, 0); (1, 0, 0); (0, 0, 1)]%float
           [(0, 1, 2); (3, 1, 2); (0, 3, 1)]%Z).
  vm_compute. reflexivity.
Defined.

(** The merge on a NaN: a vertex no face refers to is kept, a face that
    refers to it raises [KeyError]. *)
Example merge_duplicates_nan :
  _merge_duplicates py_round8 [(nan, 0, 0); (nan, 0, 0)]%float [] =
    Ok ([(nan, 0, 0); (nan, 0, 0)]%float, []) /\
  _merge_duplicates py_round8 [(nan, 0, 0); (0, 1, 0); (1, 0, 0)]%float
    [(0, 1, 2)%Z] = Raise KeyError.
Proof. split; vm_compute; reflexivity. Qed.

(** ** The vertices of the mesh *)

Section MeshVertices.
Variable round8 : float -> float.
Variables math_cos math_sin : float -> float.
Variable self : GeodesicCalculator.

Lemma intern_all_incl (pts : list point) :
  forall verts : list point,
    incl (fst (intern_all round8 verts pts)) (verts ++ pts).
Proof.
  induction pts as [|pt pts IH]; intros verts; cbn [intern_all].
  - rewrite app_nil_r. apply incl_refl.
  - unfold intern. destruct (dict_get key_eqb _ _).
    + specialize (IH verts). destruct (intern_all round8 verts pts).
      cbn [fst] in *. intros x Hx. apply IH in Hx.
      apply in_app_iff in Hx. apply in_app_iff. simpl. tauto.
    + specialize (IH (verts ++ [pt])).
      destruct (intern_all round8 (verts ++ [pt]) pts).
      cbn [fst] in *. rewrite <- app_assoc in IH. exact IH.
Qed.

Lemma samples_projected (v0 v1 v2 : point) (freq : Z) (v : point) :
  In v (samples self v0 v1 v2 freq) -> exists p, v = project self p.
Proof.
  unfold samples, sample_rows. intros H. apply in_concat in H.
  destruct H as [row [Hrow Hv]]. apply in_map_iff in Hrow.
  destruct Hrow as [i [<- _]]. unfold sample_row in Hv.
  apply in_map_iff in Hv. destruct Hv as [j [<- _]].
  unfold grid_point. eexists. reflexivity.
Qed.

Lemma accumulated_projected (v : point) :
  In v (fst (accumulated round8 math_cos math_sin self)) ->
  exists p, v = project self p.
Proof.
  rewrite accumulated_verts. intros H. apply in_concat in H.
  destruct H as [l [Hl Hv]]. rewrite map_map in Hl.
  apply in_map_iff in Hl. destruct Hl as [[[f0 f1] f2] [<- _]].
  unfold local_mesh in Hv. cbn [fst] in Hv.
  apply local_verts_incl in Hv. eapply samples_projected. exact Hv.
Qed.

(** Every vertex of the mesh is a value of normalize-and-scale. *)
Lemma calculate_points_projected (mesh : GeodesicCalculator) :
  calculate round8 math_cos math_sin self = Ok mesh ->
  Forall (fun v => exists p, v = project self p) (points mesh).
Proof.
  rewrite calculate_eq.
  pose proof (@merge_duplicates_in_range round8 _ _
                (accumulated_in_range round8 math_cos math_sin self)) as M.
  destruct (_merge_duplicates round8 _ _) as [[pts fcs]|e]; cbn [bind];
    [|discriminate].
  intros [= <-]. cbn [points]. destruct M as [_ [-> _]].
  apply Forall_forall. intros v Hv.
  apply intern_all_incl in Hv. apply accumulated_projected. exact Hv.
Qed.
End MeshVertices.



(** C2 is false as stated: the requests it names are served.  Radius -1
    with frequency 3 returns a mesh of 92 vertices and 180 faces, and
    radius 10 with frequency 0 returns 11 vertices and no face. *)
Lemma calculate_validates_nothing_counterexample :
  counts (generate (-1) 3) = Ok (92, 180)%Z /\
  counts (generate 10 0) = Ok (11, 0)%Z.
Proof. split; vm_compute; reflexivity. Qed.

Lemma calculate_validates_nothing_witness :
  exists pts : list point,
    generate 10 0 =
    Ok {| radius := 10; frequency := 0; points := pts; faces := [] |}.
Proof.
  destruct (calculate_validates_nothing py_round8 libm_cos libm_sin 10 0)
    as [_ [_ H]].
  destruct H as [pts [H _]]; [lia|]. exists pts. exact H.
Defined.

(** ** Faces the merge keeps *)

Lemma SFeqb_inv (x y : spec_float) :
  SFeqb x y = true ->
  match x, y with
  | S754_zero _, S754_zero _ => True
  | S754_infinity s, S754_infinity s' => s = s'
  | S754_finite s m e, S754_finite s' m' e' => s = s' /\ m = m' /\ e = e'
  | _, _ => False
  end.
Proof.
  unfold SFeqb.
  destruct x as [s | s | | s m e], y as [s' | s' | | s' m' e']; simpl;
    try discriminate; try (destruct s; discriminate);
    try (destruct s'; discriminate); try (intros _; exact I).
  - destruct s, s'; try discriminate; reflexivity.
  - change (Pos.compare_cont Eq m m') with (Pos.compare m m').
    destruct s, s'; try discriminate;
      destruct (Z.compare_spec e e'); try discriminate;
      destruct (Pos.compare_spec m m'); try discriminate;
      intros _; subst; auto.
Qed.

(** [==] on floats: two values equal to a third are equal. *)
Lemma SFeqb_euclid (x y z : spec_float) :
  SFeqb x y = true -> SFeqb x z = true -> SFeqb y z = true.
Proof.
  intros Hy Hz. pose proof (SFeqb_left_refl _ _ Hy) as Hx.
  apply SFeqb_inv in Hy. apply SFeqb_inv in Hz.
  destruct x as [s | s | | s m e], y as [s1 | s1 | | s1 m1 e1],
    z as [s2 | s2 | | s2 m2 e2]; try contradiction; try reflexivity.
  - subst. exact Hx.
  - destruct Hy as [-> [-> ->]]. destruct Hz as [-> [-> ->]]. exact Hx.
Qed.

Lemma key_eqb_euclid (k k1 k2 : point) :
  key_eqb k k1 = true -> key_eqb k k2 = true -> key_eqb k1 k2 = true.
Proof.
  destruct k as [[a b] c], k1 as [[a1 b1] c1], k2 as [[a2 b2] c2]. simpl.
  rewrite !andb_true_iff, !eqb_spec.
  intros [[Ha Hb] Hc] [[Ha' Hb'] Hc'].
  repeat split; eapply SFeqb_euclid; eassumption.
Qed.

Section KeptFaces.
Variable round8 : float -> float.
Variable verts : list point.
Hypothesis no_nan :
  forall v : point, In v verts ->
    key_eqb (key_of round8 v) (key_of round8 v) = true.

Local Abbreviation key_of := (key_of round8).
Local Abbreviation merged_verts := (fst (intern_all round8 [] verts)).
Local Abbreviation index_map := (index_dict round8 merged_verts).

(** A vertex of the input is found in the final [index_map], under the key
    of the merged vertex it is found at. *)
Lemma lookup_vertex (i : Z) :
  (0 <= i < len verts)%Z ->
  exists idx : Z,
    dict_get key_eqb index_map (key_of (nth (Z.to_nat i) verts zero_point))
      = Some idx /\
    key_eqb (key_of (nth (Z.to_nat idx) merged_verts zero_point))
            (key_of (nth (Z.to_nat i) verts zero_point)) = true.
Proof.
  intros Hi. unfold len in Hi.
  assert (N : nth_error verts (Z.to_nat i) =
              Some (nth (Z.to_nat i) verts zero_point))
    by (apply nth_error_nth'; lia).
  destruct (lookup_merged round8 verts [] _ N) as [_ L].
  destruct (dict_get key_eqb index_map _) as [idx|] eqn:D.
  - exists idx. split; [reflexivity|].
    apply dict_get_in in D. destruct D as [k [Hin Hk]].
    apply index_dict_in in Hin. destruct Hin as [_ [_ ->]]. exact Hk.
  - specialize (L eq_refl). rewrite no_nan in L; [discriminate|].
    apply nth_In. lia.
Qed.

Lemma remap_face_kept (new_faces : list face) (f : face) :
  face_keys_distinct round8 verts f ->
  exists f' : face,
    remap_face round8 verts index_map new_faces f = Ok (new_faces ++ [f']).
Proof.
  destruct f as [[a b] c]. intros [[Ra [Rb Rc]] [Dab [Dbc Dac]]].
  destruct (lookup_vertex Ra) as [n0 [L0 E0]].
  destruct (lookup_vertex Rb) as [n1 [L1 E1]].
  destruct (lookup_vertex Rc) as [n2 [L2 E2]].
  unfold remap_face, dict_lookup.
  rewrite (py_index_nth verts zero_point Ra),
          (py_index_nth verts zero_point Rb),
          (py_index_nth verts zero_point Rc). cbn [bind].
  rewrite L0, L1, L2. cbn [bind].
  assert (N01 : (n0 =? n1)%Z = false).
  { apply Z.eqb_neq. intros ->.
    rewrite (key_eqb_euclid _ _ _ E0 E1) in Dab. discriminate. }
  assert (N12 : (n1 =? n2)%Z = false).
  { apply Z.eqb_neq. intros ->.
    rewrite (key_eqb_euclid _ _ _ E1 E2) in Dbc. discriminate. }
  assert (N02 : (n0 =? n2)%Z = false).
  { apply Z.eqb_neq. intros ->.
    rewrite (key_eqb_euclid _ _ _ E0 E2) in Dac. discriminate. }
  rewrite N01, N12, N02. cbn [negb andb]. eexists. reflexivity.
Qed.

Lemma remap_faces_kept (faces : list face) :
  Forall (face_keys_distinct round8 verts) faces ->
  forall new_faces : list face,
  exists kept : list face,
    for_each (remap_face round8 verts index_map) new_faces faces =
      Ok (new_faces ++ kept) /\
    length kept = length faces.
Proof.
  induction 1 as [|f faces Hf _ IH]; intros new_faces; cbn [for_each].
  - exists []. rewrite app_nil_r. auto.
  - destruct (@remap_face_kept new_faces f Hf) as [f' ->]. cbn [bind].
    destruct (IH (new_faces ++ [f'])) as [kept [-> L]].
    exists (f' :: kept). rewrite <- app_assoc. simpl. auto.
Qed.

(** When no key is a NaN and every face has three vertices with pairwise
    different keys, the merge returns and keeps every face. *)
Lemma merge_duplicates_keeps_faces (faces : list face) :
  Forall (face_keys_distinct round8 verts) faces ->
  exists kept : list face,
    _merge_duplicates round8 verts faces = Ok (merged_verts, kept) /\
    length kept = length faces.
Proof.
  intros H. rewrite merge_duplicates_eq.
  destruct (@remap_faces_kept faces H []) as [kept [-> L]]. cbn [bind app].
  exists kept. auto.
Qed.
End KeptFaces.

(** ** Counting merged vertices

    When equality of rounded keys coincides with equality of some label of
    the samples, the merge keeps one sample per label. *)

Section Representatives.
Variable round8 : float -> float.
Context {P C : Type}.
Variable sample_of : P -> point.
Variable label : P -> C.
Variable all : list P.
Hypothesis perfect :
  forall p q : P, In p all -> In q all ->
    (key_eqb (key_of round8 (sample_of p)) (key_of round8 (sample_of q)) = true
     <-> label p = label q).

Lemma intern_all_representatives (l : list P) :
  incl l all ->
  exists reps : list P,
    fst (intern_all round8 [] (map sample_of l)) = map sample_of reps /\
    incl reps l /\
    NoDup (map label reps) /\
    (forall p : P, In p l -> In (label p) (map label reps)).
Proof.
  induction l as [|p l IH] using rev_ind; intros Hl.
  - exists []. simpl. repeat split; [apply incl_refl|constructor|tauto].
  - destruct IH as [reps [E [I [N Cov]]]].
    { intros x Hx. apply Hl, in_or_app. auto. }
    assert (Hp : In p all) by (apply Hl, in_or_app; simpl; auto).
    rewrite map_app, intern_all_app.
    destruct (intern_all round8 [] (map sample_of l)) as [V0 idxs0].
    cbn [fst] in E. subst V0. cbn [map intern_all].
    unfold intern.
    destruct (dict_get key_eqb (index_dict round8 (map sample_of reps))
                (key_of round8 (sample_of p))) as [idx|] eqn:D; cbn [fst].
    + exists reps. split; [reflexivity|]. split.
      { intros x Hx. apply in_or_app. auto. }
      split; [exact N|]. intros q Hq. apply in_app_or in Hq.
      destruct Hq as [Hq|[<-|[]]]; [auto|].
      apply dict_get_in in D. destruct D as [k [Hin Hk]].
      apply index_dict_in in Hin. destruct Hin as [Hr [_ ->]].
      unfold len in Hr. rewrite length_map in Hr.
      rewrite (nth_indep _ zero_point (sample_of p)) in Hk
        by (rewrite length_map; lia).
      rewrite map_nth in Hk.
      assert (Hin : In (nth (Z.to_nat idx) reps p) reps)
        by (apply nth_In; lia).
      apply perfect in Hk; [|apply Hl, in_or_app; auto|exact Hp].
      rewrite <- Hk. apply in_map. exact Hin.
    + exists (reps ++ [p]). split; [rewrite map_app; reflexivity|]. split.
      { intros x Hx. apply in_app_or in Hx. apply in_or_app.
        destruct Hx; auto. }
      split.
      * rewrite map_app. apply NoDup_app; [exact N|repeat constructor; auto|].
        intros a Ha [<-|[]]. apply in_map_iff in Ha.
        destruct Ha as [r [Hr Hin]].
        assert (K : key_eqb (key_of round8 (sample_of r))
                            (key_of round8 (sample_of p)) = true).
        { apply perfect; [apply Hl, in_or_app; auto|exact Hp|exact Hr]. }
        rewrite dict_get_none in D.
        apply (In_nth _ _ p) in Hin. destruct Hin as [n [Hn <-]].
        rewrite (D _ (Z.of_nat n)) in K; [discriminate|].
        replace (key_of round8 (sample_of (nth n reps p)))
          with (key_of round8 (nth n (map sample_of reps) zero_point)).
        { apply index_dict_nth. rewrite length_map. exact Hn. }
        rewrite (nth_indep _ zero_point (sample_of p))
          by (rewrite length_map; exact Hn).
        rewrite map_nth. reflexivity.
      * intros q Hq. rewrite map_app. apply in_or_app.
        apply in_app_or in Hq. destruct Hq as [Hq|[<-|[]]]; [auto|].
        right. simpl. auto.
Qed.

(** The merged vertices are as many as the labels of any duplicate-free
    list that has the labels of the samples as its elements. *)
Lemma intern_all_count (labels : list C) :
  NoDup labels ->
  (forall x : C, In x labels <-> In x (map label all)) ->
  length (fst (intern_all round8 [] (map sample_of all))) = length labels.
Proof.
  intros N S.
  destruct (intern_all_representatives (incl_refl all))
    as [reps [-> [I [Nr Cov]]]].
  rewrite length_map, <- (length_map label reps).
  apply Permutation.Permutation_length, Permutation.NoDup_Permutation;
    [exact Nr|exact N|].
  intros x. rewrite S. split.
  - intros Hx. apply in_map_iff in Hx. destruct Hx as [r [<- Hr]].
    apply in_map, I, Hr.
  - intros Hx. apply in_map_iff in Hx. destruct Hx as [p [<- Hp]].
    apply Cov, Hp.
Qed.
End Representatives.

(** ** The face table of the icosahedron *)

Lemma forallb_py_range (n : Z) (P : Z -> bool) :
  forallb P (py_range n) = true ->
  forall k : Z, (0 <= k < n)%Z -> P k = true.
Proof.
  intros H k Hk. rewrite forallb_forall in H. apply H, In_py_range, Hk.
Qed.

Lemma existsb_py_range (n : Z) (P : Z -> bool) :
  existsb P (py_range n) = true ->
  exists k : Z, (0 <= k < n)%Z /\ P k = true.
Proof.
  intros H. apply existsb_exists in H. destruct H as [k [Hk HP]].
  apply In_py_range in Hk. eauto.
Qed.

Lemma ico_faces_base : ico_faces = map base_face (py_range 20).
Proof. reflexivity. Qed.

Lemma face_proper_spec (f : face) :
  face_proper f = true ->
  let '(A, B, C) := f in
  (A <> B /\ B <> C /\ A <> C /\
   0 <= A < 12 /\ 0 <= B < 12 /\ 0 <= C < 12)%Z.
Proof.
  destruct f as [[A B] C]. unfold face_proper.
  rewrite !andb_true_iff, !negb_true_iff, !Z.eqb_neq. lia.
Qed.

Lemma face_has_spec (f : face) (v : Z) :
  face_has f v = true <->
  let '(A, B, C) := f in v = A \/ v = B \/ v = C.
Proof.
  destruct f as [[A B] C]. unfold face_has.
  rewrite !orb_true_iff, !Z.eqb_eq. tauto.
Qed.

Lemma base_face_proper (k : Z) :
  (0 <= k < 20)%Z -> face_proper (base_face k) = true.
Proof.
  apply (@forallb_py_range 20%Z (fun k => face_proper (base_face k))).
  reflexivity.
Qed.

(** Every corner lies on a base face. *)
Lemma corner_on_face (v : Z) :
  (0 <= v < 12)%Z ->
  exists k : Z, (0 <= k < 20)%Z /\ face_has (base_face k) v = true.
Proof.
  intros Hv. apply existsb_py_range.
  revert v Hv.
  apply (@forallb_py_range 12%Z
           (fun v => existsb (fun k => face_has (base_face k) v)
                             (py_range 20))).
  reflexivity.
Qed.

Lemma is_edge_spec (e : Z * Z) : is_edge e = true -> In e ico_edges.
Proof.
  unfold is_edge. intros H. apply existsb_exists in H.
  destruct H as [e' [Hin He]]. unfold pair_eqb in He.
  apply andb_true_iff in He. rewrite !Z.eqb_eq in He.
  destruct e, e'. simpl in He. destruct He; subst. exact Hin.
Qed.

(** The three sides of a base face are edges. *)
Lemma face_sides (k : Z) :
  (0 <= k < 20)%Z ->
  let '(A, B, C) := base_face k in
  In (sorted_pair A B) ico_edges /\ In (sorted_pair A C) ico_edges /\
  In (sorted_pair B C) ico_edges.
Proof.
  intros Hk.
  assert (H : (let '(A, B, C) := base_face k in
               is_edge (sorted_pair A B) && is_edge (sorted_pair A C) &&
               is_edge (sorted_pair B C)) = true).
  { revert k Hk.
    apply (@forallb_py_range 20%Z
             (fun k => let '(A, B, C) := base_face k in
                       is_edge (sorted_pair A B) && is_edge (sorted_pair A C) &&
                       is_edge (sorted_pair B C))).
    reflexivity. }
  destruct (base_face k) as [[A B] C].
  rewrite !andb_true_iff in H. destruct H as [[H1 H2] H3].
  auto using is_edge_spec.
Qed.

(** Every edge is a side of a base face, and is listed with its smaller
    corner first. *)
Lemma edge_on_face (e : Z * Z) :
  In e ico_edges ->
  (0 <= fst e < snd e)%Z /\ (snd e < 12)%Z /\
  exists k : Z, (0 <= k < 20)%Z /\
    face_has (base_face k) (fst e) = true /\
    face_has (base_face k) (snd e) = true.
Proof.
  intros He.
  assert (H : forallb (fun e =>
                (0 <=? fst e)%Z && (fst e <? snd e)%Z && (snd e <? 12)%Z &&
                existsb (fun k => face_has (base_face k) (fst e) &&
                                  face_has (base_face k) (snd e))
                        (py_range 20)) ico_edges = true) by reflexivity.
  rewrite forallb_forall in H. specialize (H e He).
  rewrite !andb_true_iff in H. destruct H as [[[H1 H2] H3] H4].
  apply existsb_py_range in H4. destruct H4 as [k [Hk H4]].
  apply andb_true_iff in H4. split; [lia|]. split; [lia|].
  exists k. tauto.
Qed.

(** A base face that holds the three corners of another one is that
    one. *)
Lemma base_face_unique (k k' : Z) :
  (0 <= k < 20)%Z -> (0 <= k' < 20)%Z ->
  (let '(A, B, C) := base_face k in
   face_has (base_face k') A = true /\ face_has (base_face k') B = true /\
   face_has (base_face k') C = true) ->
  k = k'.
Proof.
  intros Hk Hk' H.
  assert (T : forallb (fun k => forallb (fun k' =>
                implb (let '(A, B, C) := base_face k in
                       face_has (base_face k') A && face_has (base_face k') B &&
                       face_has (base_face k') C) (k =? k')%Z)
                (py_range 20)) (py_range 20) = true) by reflexivity.
  pose proof (@forallb_py_range _ _ (@forallb_py_range _ _ T k Hk) k' Hk') as E.
  cbv beta in E. destruct (base_face k) as [[A B] C].
  destruct H as [H1 [H2 H3]]. rewrite H1, H2, H3 in E.
  apply Z.eqb_eq, E.
Qed.

Lemma ico_edges_NoDup : NoDup ico_edges.
Proof.
  unfold ico_edges.
  repeat (constructor;
          [simpl; intros H;
           repeat (destruct H as [H|H]; [discriminate H|]); exact H|]).
  constructor.
Qed.

Lemma py_range_NoDup (n : Z) : NoDup (py_range n).
Proof.
  unfold py_range. apply NoDup_map_NoDup_ForallPairs; [|apply seq_NoDup].
  intros x y _ _ H. lia.
Qed.

(** ** Positions and points of the subdivided icosahedron *)

Ltac eqb_cases :=
  repeat match goal with
         | |- context [(?a =? ?b)%Z] => destruct (Z.eqb_spec a b); try lia
         | H : context [(?a =? ?b)%Z] |- _ =>
             destruct (Z.eqb_spec a b); try lia
         end.

Lemma corner_weights_eq (w w' : Z -> Z) :
  corner_weights w = corner_weights w' <->
  forall v : Z, (0 <= v < 12)%Z -> w v = w' v.
Proof.
  unfold corner_weights. rewrite map_ext_in_iff. split.
  - intros H v Hv. apply H, In_py_range, Hv.
  - intros H v Hv. apply H, In_py_range, Hv.
Qed.

Lemma In_face_positions (freq k : Z) (p : position) :
  In p (face_positions freq k) <->
  let '(k', i, j) := p in
  k' = k /\ (0 <= i <= freq)%Z /\ (0 <= j <= freq - i)%Z.
Proof.
  destruct p as [[k' i] j]. unfold face_positions. rewrite in_flat_map. split.
  - intros [i' [Hi H]]. apply In_py_range in Hi. apply in_map_iff in H.
    destruct H as [j' [[= <- <- <-] Hj]]. apply In_py_range in Hj. lia.
  - intros [-> [Hi Hj]]. exists i. split; [apply In_py_range; lia|].
    apply in_map_iff. exists j. split; [reflexivity|apply In_py_range; lia].
Qed.

Lemma In_positions (freq : Z) (p : position) :
  In p (positions freq) <->
  let '(k, i, j) := p in
  (0 <= k < 20)%Z /\ (0 <= i <= freq)%Z /\ (0 <= j <= freq - i)%Z.
Proof.
  destruct p as [[k i] j]. unfold positions. rewrite in_flat_map. split.
  - intros [k' [Hk H]]. apply In_py_range in Hk.
    apply In_face_positions in H. destruct H as [-> H]. tauto.
  - intros [Hk H]. exists k. split; [apply In_py_range, Hk|].
    apply In_face_positions. tauto.
Qed.

Lemma In_lattice_points (freq : Z) (x : lattice_point) :
  In x (lattice_points freq) <->
  match x with
  | AtCorner v => (0 <= v < 12)%Z
  | OnEdge u v t => In (u, v) ico_edges /\ (1 <= t <= freq - 1)%Z
  | Inside k i j =>
      (0 <= k < 20)%Z /\ (1 <= i)%Z /\ (1 <= j)%Z /\ (i + j <= freq - 1)%Z
  end.
Proof.
  unfold lattice_points. rewrite !in_app_iff, in_map_iff, !in_flat_map. split.
  - intros [[v [<- Hv]]|[[e [He H]]|[k [Hk H]]]].
    + apply In_py_range, Hv.
    + unfold edge_points in H. apply in_map_iff in H.
      destruct H as [t [<- Ht]]. apply In_py_range in Ht.
      destruct e. simpl. split; [exact He|lia].
    + apply In_py_range in Hk. unfold inner_points in H.
      apply in_flat_map in H. destruct H as [i [Hi H]].
      apply In_py_range in Hi. apply in_map_iff in H.
      destruct H as [j [<- Hj]]. apply In_py_range in Hj. lia.
  - destruct x as [v | u v t | k i j].
    + intros Hv. left. exists v. split; [reflexivity|apply In_py_range, Hv].
    + intros [He Ht]. right. left. exists (u, v). split; [exact He|].
      unfold edge_points. apply in_map_iff. exists (t - 1)%Z. simpl.
      split; [f_equal; lia|apply In_py_range; lia].
    + intros [Hk [Hi [Hj H]]]. right. right. exists k.
      split; [apply In_py_range, Hk|].
      unfold inner_points. apply in_flat_map. exists (i - 1)%Z.
      split; [apply In_py_range; lia|].
      apply in_map_iff. exists (j - 1)%Z.
      split; [f_equal; lia|apply In_py_range; lia].
Qed.

Lemma sorted_pair_cases (u v : Z) :
  (u < v)%Z /\ sorted_pair u v = (u, v) \/
  (v <= u)%Z /\ sorted_pair u v = (v, u).
Proof.
  unfold sorted_pair. destruct (Z.ltb_spec u v); [left|right]; auto.
Qed.

(** Every position is a point of the subdivided icosahedron. *)
Lemma position_is_lattice_point (freq : Z) (p : position) :
  (1 <= freq)%Z -> In p (positions freq) ->
  exists x : lattice_point,
    In x (lattice_points freq) /\
    lattice_combination freq x = combination freq p.
Proof.
  intros Hf Hp. destruct p as [[k i] j].
  apply In_positions in Hp. destruct Hp as [Hk [Hi Hj]].
  pose proof (face_proper_spec _ (base_face_proper Hk)) as FP.
  pose proof (face_sides Hk) as FS.
  unfold combination. destruct (base_face k) as [[A B] C] eqn:EB.
  destruct FP as [AB [BC [AC [RA [RB RC]]]]].
  destruct FS as [SAB [SAC SBC]].
  destruct (Z.eq_dec i 0) as [I0|I0], (Z.eq_dec j 0) as [J0|J0],
    (Z.eq_dec (freq - i - j) 0) as [C0|C0]; try lia.
  - (* corner C *)
    exists (AtCorner C). split; [apply In_lattice_points; lia|].
    apply corner_weights_eq. intros v Hv. unfold weight_on. eqb_cases.
  - (* corner B *)
    exists (AtCorner B). split; [apply In_lattice_points; lia|].
    apply corner_weights_eq. intros v Hv. unfold weight_on. eqb_cases.
  - (* edge B C *)
    destruct (sorted_pair_cases B C) as [[L E]|[L E]]; rewrite E in SBC.
    + exists (OnEdge B C j). split; [apply In_lattice_points; split; [exact SBC|lia]|].
      apply corner_weights_eq. intros v Hv. unfold weight_on. eqb_cases.
    + exists (OnEdge C B (freq - i - j)).
      split; [apply In_lattice_points; split; [exact SBC|lia]|].
      apply corner_weights_eq. intros v Hv. unfold weight_on. eqb_cases.
  - (* corner A *)
    exists (AtCorner A). split; [apply In_lattice_points; lia|].
    apply corner_weights_eq. intros v Hv. unfold weight_on. eqb_cases.
  - (* edge A C *)
    destruct (sorted_pair_cases A C) as [[L E]|[L E]]; rewrite E in SAC.
    + exists (OnEdge A C i). split; [apply In_lattice_points; split; [exact SAC|lia]|].
      apply corner_weights_eq. intros v Hv. unfold weight_on. eqb_cases.
    + exists (OnEdge C A (freq - i - j)).
      split; [apply In_lattice_points; split; [exact SAC|lia]|].
      apply corner_weights_eq. intros v Hv. unfold weight_on. eqb_cases.
  - (* edge A B *)
    destruct (sorted_pair_cases A B) as [[L E]|[L E]]; rewrite E in SAB.
    + exists (OnEdge A B i). split; [apply In_lattice_points; split; [exact SAB|lia]|].
      apply corner_weights_eq. intros v Hv. unfold weight_on. eqb_cases.
    + exists (OnEdge B A j).
      split; [apply In_lattice_points; split; [exact SAB|lia]|].
      apply corner_weights_eq. intros v Hv. unfold weight_on. eqb_cases.
  - (* inside *)
    exists (Inside k i j). split; [apply In_lattice_points; lia|].
    cbn [lattice_combination combination]. rewrite EB. reflexivity.
Qed.

(** Every point of the subdivided icosahedron is sampled at some
    position. *)
Lemma lattice_point_is_position (freq : Z) (x : lattice_point) :
  (1 <= freq)%Z -> In x (lattice_points freq) ->
  exists p : position,
    In p (positions freq) /\
    combination freq p = lattice_combination freq x.
Proof.
  intros Hf Hx. apply In_lattice_points in Hx.
  destruct x as [v | u v t | k i j].
  - destruct (corner_on_face Hx) as [k [Hk Hv]].
    pose proof (face_proper_spec _ (base_face_proper Hk)) as FP.
    apply face_has_spec in Hv.
    destruct (base_face k) as [[A B] C] eqn:EB.
    destruct FP as [AB [BC [AC [RA [RB RC]]]]].
    destruct Hv as [-> | [-> | ->]].
    + exists (k, freq, 0)%Z. split; [apply In_positions; lia|].
      unfold combination. rewrite EB. apply corner_weights_eq.
      intros x Hr. unfold weight_on. eqb_cases.
    + exists (k, 0, freq)%Z. split; [apply In_positions; lia|].
      unfold combination. rewrite EB. apply corner_weights_eq.
      intros x Hr. unfold weight_on. eqb_cases.
    + exists (k, 0, 0)%Z. split; [apply In_positions; lia|].
      unfold combination. rewrite EB. apply corner_weights_eq.
      intros x Hr. unfold weight_on. eqb_cases.
  - destruct Hx as [He Ht].
    destruct (@edge_on_face _ He) as [Huv [Hv12 [k [Hk [Hu Hv]]]]].
    simpl in Huv, Hv12, Hu, Hv.
    pose proof (face_proper_spec _ (base_face_proper Hk)) as FP.
    apply face_has_spec in Hu. apply face_has_spec in Hv.
    destruct (base_face k) as [[A B] C] eqn:EB.
    destruct FP as [AB [BC [AC [RA [RB RC]]]]].
    assert (P : forall i j : Z,
              (0 <= i <= freq)%Z -> (0 <= j <= freq - i)%Z ->
              (forall x : Z, (0 <= x < 12)%Z ->
                 weight_on (A, B, C) i j (freq - i - j) x =
                 ((if x =? u then t else 0) +
                  (if x =? v then freq - t else 0))%Z) ->
              exists p : position,
                In p (positions freq) /\
                combination freq p = lattice_combination freq (OnEdge u v t)).
    { intros i j Hi Hj H. exists (k, i, j). split; [apply In_positions; lia|].
      unfold combination. rewrite EB. apply corner_weights_eq. exact H. }
    destruct Hu as [-> | [-> | ->]], Hv as [-> | [-> | ->]]; try lia.
    + apply (P t (freq - t)%Z); try lia.
      intros x Hr. unfold weight_on. eqb_cases.
    + apply (P t 0%Z); try lia.
      intros x Hr. unfold weight_on. eqb_cases.
    + apply (P (freq - t)%Z t); try lia.
      intros x Hr. unfold weight_on. eqb_cases.
    + apply (P 0%Z t); try lia.
      intros x Hr. unfold weight_on. eqb_cases.
    + apply (P (freq - t)%Z 0%Z); try lia.
      intros x Hr. unfold weight_on. eqb_cases.
    + apply (P 0%Z (freq - t)%Z); try lia.
      intros x Hr. unfold weight_on. eqb_cases.
  - exists (k, i, j). split; [apply In_positions; lia|]. reflexivity.
Qed.

(** Two positions of one base face are one point only when they are one
    position. *)
Lemma combination_inj_face (freq k i j i' j' : Z) :
  (0 <= k < 20)%Z ->
  combination freq (k, i, j) = combination freq (k, i', j') ->
  i = i' /\ j = j'.
Proof.
  intros Hk H. unfold combination in H.
  pose proof (face_proper_spec _ (base_face_proper Hk)) as FP.
  destruct (base_face k) as [[A B] C].
  destruct FP as [AB [BC [AC [RA [RB RC]]]]].
  rewrite corner_weights_eq in H.
  pose proof (H A RA) as HA. pose proof (H B RB) as HB.
  unfold weight_on in HA, HB. split.
  - clear HB. eqb_cases.
  - clear HA. eqb_cases.
Qed.

(** A corner that carries weight in a combination is a corner of the
    face. *)
Lemma weight_on_support (f : face) (i j c v : Z) :
  weight_on f i j c v <> 0%Z -> face_has f v = true.
Proof.
  destruct f as [[A B] C]. unfold weight_on, face_has.
  intros H. rewrite !orb_true_iff, !Z.eqb_eq.
  destruct (Z.eq_dec v A); [tauto|]. destruct (Z.eq_dec v B); [tauto|].
  destruct (Z.eq_dec v C); [tauto|]. exfalso. apply H. eqb_cases.
Qed.

(** Different points of the subdivided icosahedron are different
    combinations. *)
Lemma lattice_combination_inj (freq : Z) (x y : lattice_point) :
  (1 <= freq)%Z ->
  In x (lattice_points freq) -> In y (lattice_points freq) ->
  lattice_combination freq x = lattice_combination freq y -> x = y.
Proof.
  intros Hf Hx Hy H.
  apply In_lattice_points in Hx. apply In_lattice_points in Hy.
  destruct x as [v | u v t | k i j], y as [v' | u' v' t' | k' i' j'];
    cbn [lattice_combination] in H;
    try (destruct Hx as [Hex Htx];
         destruct (@edge_on_face _ Hex) as [Hux [Hvx _]]; simpl in Hux, Hvx);
    try (destruct Hy as [Hey Hty];
         destruct (@edge_on_face _ Hey) as [Huy [Hvy _]]; simpl in Huy, Hvy).
  - (* corner, corner *)
    rewrite corner_weights_eq in H. specialize (H v Hx). cbv beta in H.
    f_equal. eqb_cases.
  - (* corner, edge *)
    exfalso. rewrite corner_weights_eq in H.
    pose proof (H u' ltac:(lia)) as H1. pose proof (H v' ltac:(lia)) as H2.
    cbv beta in H1, H2. eqb_cases.
  - (* corner, inside *)
    exfalso. destruct Hy as [Hk [Hi [Hj Hc]]]. unfold combination in H.
    pose proof (face_proper_spec _ (base_face_proper Hk)) as FP.
    destruct (base_face k') as [[A B] C].
    destruct FP as [AB [BC [AC [RA [RB RC]]]]].
    rewrite corner_weights_eq in H.
    pose proof (H A RA) as H1. pose proof (H B RB) as H2.
    unfold weight_on in H1, H2. cbv beta in H1, H2. eqb_cases.
  - (* edge, corner *)
    exfalso. rewrite corner_weights_eq in H.
    pose proof (H u ltac:(lia)) as H1. pose proof (H v ltac:(lia)) as H2.
    cbv beta in H1, H2. eqb_cases.
  - (* edge, edge *)
    rewrite corner_weights_eq in H.
    pose proof (H u ltac:(lia)) as H1. pose proof (H v ltac:(lia)) as H2.
    pose proof (H u' ltac:(lia)) as H3. pose proof (H v' ltac:(lia)) as H4.
    cbv beta in H1, H2, H3, H4.
    assert (E : u = u' /\ v = v' /\ t = t') by (clear H; eqb_cases).
    destruct E as [-> [-> ->]]. reflexivity.
  - (* edge, inside *)
    exfalso. destruct Hy as [Hk [Hi [Hj Hc]]]. unfold combination in H.
    pose proof (face_proper_spec _ (base_face_proper Hk)) as FP.
    destruct (base_face k') as [[A B] C].
    destruct FP as [AB [BC [AC [RA [RB RC]]]]].
    rewrite corner_weights_eq in H.
    pose proof (H A RA) as H1. pose proof (H B RB) as H2.
    pose proof (H C RC) as H3.
    unfold weight_on in H1, H2, H3. cbv beta in H1, H2, H3.
    clear H. eqb_cases.
  - (* inside, corner *)
    exfalso. destruct Hx as [Hk [Hi [Hj Hc]]]. unfold combination in H.
    pose proof (face_proper_spec _ (base_face_proper Hk)) as FP.
    destruct (base_face k) as [[A B] C].
    destruct FP as [AB [BC [AC [RA [RB RC]]]]].
    rewrite corner_weights_eq in H.
    pose proof (H A RA) as H1. pose proof (H B RB) as H2.
    unfold weight_on in H1, H2. cbv beta in H1, H2. eqb_cases.
  - (* inside, edge *)
    exfalso. destruct Hx as [Hk [Hi [Hj Hc]]]. unfold combination in H.
    pose proof (face_proper_spec _ (base_face_proper Hk)) as FP.
    destruct (base_face k) as [[A B] C].
    destruct FP as [AB [BC [AC [RA [RB RC]]]]].
    rewrite corner_weights_eq in H.
    pose proof (H A RA) as H1. pose proof (H B RB) as H2.
    pose proof (H C RC) as H3.
    unfold weight_on in H1, H2, H3. cbv beta in H1, H2, H3.
    clear H. eqb_cases.
  - (* inside, inside *)
    destruct Hx as [Hk [Hi [Hj Hc]]]. destruct Hy as [Hk' [Hi' [Hj' Hc']]].
    assert (E : k = k').
    { apply base_face_unique; try assumption.
      unfold combination in H.
      pose proof (face_proper_spec _ (base_face_proper Hk)) as FP.
      destruct (base_face k) as [[A B] C].
      destruct FP as [AB [BC [AC [RA [RB RC]]]]].
      rewrite corner_weights_eq in H.
      repeat split;
        apply (@weight_on_support _ i' j' (freq - i' - j')%Z);
        [rewrite <- (H A RA)|rewrite <- (H B RB)|rewrite <- (H C RC)];
        unfold weight_on; eqb_cases. }
    subst k'. apply combination_inj_face in H; [|exact Hk].
    destruct H as [-> ->]. reflexivity.
Qed.

(** ** Counting the points of the subdivided icosahedron *)

Lemma NoDup_flat_map {A B : Type} (h : A -> list B) (l : list A) :
  NoDup l ->
  (forall a : A, In a l -> NoDup (h a)) ->
  (forall (a a' : A) (x : B),
     In a l -> In a' l -> In x (h a) -> In x (h a') -> a = a') ->
  NoDup (flat_map h l).
Proof.
  induction 1 as [|a l Ha Hl IH]; intros H1 H2; cbn [flat_map];
    [constructor|].
  apply NoDup_app.
  - apply H1. left. reflexivity.
  - apply IH.
    + intros b Hb. apply H1. right. exact Hb.
    + intros b b' x Hb Hb'. apply H2; right; assumption.
  - intros x Hx Hx'. apply in_flat_map in Hx'. destruct Hx' as [b [Hb Hx']].
    assert (a = b) by (apply (H2 a b x); simpl; auto).
    subst b. contradiction.
Qed.

Lemma length_flat_map_const {A B : Type} (h : A -> list B) (n : Z)
    (l : list A) :
  (forall a : A, len (h a) = n) -> len (flat_map h l) = (len l * n)%Z.
Proof.
  intros H. induction l as [|a l IH]; cbn [flat_map]; [reflexivity|].
  rewrite len_app, IH, H. unfold len. simpl length. lia.
Qed.

Lemma edge_points_NoDup (freq : Z) (e : Z * Z) : NoDup (edge_points freq e).
Proof.
  unfold edge_points.
  apply NoDup_map_NoDup_ForallPairs; [|apply py_range_NoDup].
  intros t t' _ _ [= H]. lia.
Qed.

Lemma inner_points_NoDup (freq k : Z) : NoDup (inner_points freq k).
Proof.
  unfold inner_points. apply NoDup_flat_map.
  - apply py_range_NoDup.
  - intros i _. apply NoDup_map_NoDup_ForallPairs; [|apply py_range_NoDup].
    intros j j' _ _ [= H]. lia.
  - intros i i' x _ _ Hx Hx'. apply in_map_iff in Hx, Hx'.
    destruct Hx as [j [<- _]]. destruct Hx' as [j' [[= H _] _]]. lia.
Qed.

Lemma lattice_points_NoDup (freq : Z) : NoDup (lattice_points freq).
Proof.
  unfold lattice_points. apply NoDup_app; [|apply NoDup_app|].
  - apply NoDup_map_NoDup_ForallPairs; [|apply py_range_NoDup].
    intros v v' _ _ [= H]. exact H.
  - apply NoDup_flat_map.
    + apply ico_edges_NoDup.
    + intros e _. apply edge_points_NoDup.
    + intros [u v] [u' v'] x _ _ Hx Hx'. unfold edge_points in Hx, Hx'.
      apply in_map_iff in Hx, Hx'. simpl in Hx, Hx'.
      destruct Hx as [t [<- _]]. destruct Hx' as [t' [[= -> -> _] _]].
      reflexivity.
  - apply NoDup_flat_map.
    + apply py_range_NoDup.
    + intros k _. apply inner_points_NoDup.
    + intros k k' x _ _ Hx Hx'. unfold inner_points in Hx, Hx'.
      apply in_flat_map in Hx, Hx'.
      destruct Hx as [i [_ Hx]]. destruct Hx' as [i' [_ Hx']].
      apply in_map_iff in Hx, Hx'.
      destruct Hx as [j [<- _]]. destruct Hx' as [j' [[= -> _ _] _]].
      reflexivity.
  - intros x Hx Hx'. apply in_flat_map in Hx, Hx'.
    destruct Hx as [e [_ Hx]]. destruct Hx' as [k [_ Hx']].
    unfold edge_points in Hx. apply in_map_iff in Hx.
    destruct Hx as [t [<- _]].
    unfold inner_points in Hx'. apply in_flat_map in Hx'.
    destruct Hx' as [i [_ Hx']]. apply in_map_iff in Hx'.
    destruct Hx' as [j [[=] _]].
  - intros x Hx Hx'. apply in_map_iff in Hx. destruct Hx as [v [<- _]].
    apply in_app_or in Hx'. destruct Hx' as [Hx'|Hx'];
      apply in_flat_map in Hx'.
    + destruct Hx' as [e [_ Hx']]. unfold edge_points in Hx'.
      apply in_map_iff in Hx'. destruct Hx' as [t [[=] _]].
    + destruct Hx' as [k [_ Hx']]. unfold inner_points in Hx'.
      apply in_flat_map in Hx'. destruct Hx' as [i [_ Hx']].
      apply in_map_iff in Hx'. destruct Hx' as [j [[=] _]].
Qed.

Lemma inner_rows_count (freq k n : Z) :
  (0 <= n)%Z -> (n <= freq - 2)%Z ->
  (2 * len (flat_map (fun i => map (fun j => Inside k (i + 1) (j + 1))
                                   (py_range (freq - 2 - i)))
                     (py_range n)) = n * (2 * freq - 3 - n))%Z.
Proof.
  intros Hn. pattern n. apply natlike_ind; [| |exact Hn]; clear n Hn.
  - intros _. reflexivity.
  - intros n Hn IH Hle. unfold Z.succ.
    rewrite py_range_succ, flat_map_app, len_app by lia.
    cbn [flat_map]. rewrite app_nil_r.
    unfold len at 2. rewrite length_map, py_range_length. lia.
Qed.

Lemma inner_points_count (freq k : Z) :
  (1 <= freq)%Z ->
  (2 * len (inner_points freq k) = (freq - 2) * (freq - 1))%Z.
Proof.
  intros Hf. unfold inner_points.
  destruct (Z.eq_dec freq 1) as [->|H].
  - reflexivity.
  - rewrite inner_rows_count by lia. lia.
Qed.

(** There are [10 * freq^2 + 2] points. *)
Lemma lattice_points_count (freq : Z) :
  (1 <= freq)%Z ->
  len (lattice_points freq) = (10 * (freq * freq) + 2)%Z.
Proof.
  intros Hf. unfold lattice_points. rewrite !len_app.
  rewrite (@length_flat_map_const _ _ (edge_points freq) (freq - 1)%Z).
  2:{ intros e. unfold edge_points, len.
      rewrite length_map, py_range_length. lia. }
  rewrite (@length_flat_map_const _ _ (inner_points freq)
             (len (inner_points freq 0))).
  2:{ intros k. pose proof (inner_points_count k Hf).
      pose proof (inner_points_count 0 Hf). lia. }
  pose proof (inner_points_count 0 Hf) as T.
  change (len (map AtCorner (py_range 12))) with 12%Z.
  change (len ico_edges) with 30%Z. change (len (py_range 20)) with 20%Z.
  lia.
Qed.

(** The combinations of the sampled positions are the combinations of the
    points of the subdivided icosahedron, which are pairwise different and
    [10 * freq^2 + 2] in number. *)
Lemma distinct_combinations (freq : Z) :
  (1 <= freq)%Z ->
  NoDup (map (lattice_combination freq) (lattice_points freq)) /\
  (forall x : list Z,
     In x (map (lattice_combination freq) (lattice_points freq)) <->
     In x (map (combination freq) (positions freq))) /\
  len (map (lattice_combination freq) (lattice_points freq)) =
    (10 * (freq * freq) + 2)%Z.
Proof.
  intros Hf. split; [|split].
  - apply NoDup_map_NoDup_ForallPairs; [|apply lattice_points_NoDup].
    intros x y Hx Hy. apply lattice_combination_inj; assumption.
  - intros x. rewrite !in_map_iff. split.
    + intros [y [<- Hy]].
      destruct (@lattice_point_is_position freq y Hf Hy) as [p [Hp E]]. eauto.
    + intros [p [<- Hp]].
      destruct (@position_is_lattice_point freq p Hf Hp) as [y [Hy E]]. eauto.
  - unfold len. rewrite length_map. apply lattice_points_count, Hf.
Qed.

(** ** Grids without repeated entries *)

Lemma concat_NoDup_rows {A : Type} (L : list (list A)) :
  NoDup (concat L) ->
  (forall a : nat, NoDup (nth a L [])) /\
  (forall (a b : nat) (x : A),
     (a < length L)%nat -> (b < length L)%nat ->
     In x (nth a L []) -> In x (nth b L []) -> a = b).
Proof.
  induction L as [|row L IH]; cbn [concat]; intros N.
  - split; [intros [|a]; constructor|simpl; lia].
  - pose proof (NoDup_app_remove_l _ _ N) as NL.
    pose proof (NoDup_app_remove_r _ _ N) as Nrow.
    destruct (IH NL) as [IH1 IH2]. split.
    + intros [|a]; simpl; auto.
    + assert (D : forall x b, In x row -> (b < length L)%nat ->
                              In x (nth b L []) -> False).
      { intros x b Hx Hb Hx'.
        assert (Hc : In x (concat L))
          by (apply in_concat; exists (nth b L []); split;
              [apply nth_In, Hb|exact Hx']).
        clear - N Hx Hc. induction row as [|y row IHr]; [contradiction|].
        simpl in N. inversion N as [|? ? Hy N']; subst.
        destruct Hx as [->|Hx]; [apply Hy, in_or_app; auto|auto]. }
      intros [|a] [|b] x Ha Hb Hx Hx'; simpl in *; try reflexivity.
      * exfalso. apply (D x b); [exact Hx|lia|exact Hx'].
      * exfalso. apply (D x a); [exact Hx'|lia|exact Hx].
      * f_equal. apply (IH2 a b x); try assumption; lia.
Qed.

Section GridEntries.
Variable grid : list (list Z).
Variable freq : Z.
Hypothesis shape : grid_shape freq grid.
Hypothesis distinct : NoDup (concat grid).

(** Different positions of the grid hold different entries. *)
Lemma grid_entry_inj (i j i' j' : Z) :
  (0 <= i <= freq)%Z -> (0 <= j <= freq - i)%Z ->
  (0 <= i' <= freq)%Z -> (0 <= j' <= freq - i')%Z ->
  grid_entry grid i j = grid_entry grid i' j' -> i = i' /\ j = j'.
Proof.
  intros Hi Hj Hi' Hj' E. destruct shape as [Hlen Hrow].
  destruct (concat_NoDup_rows grid distinct) as [N1 N2].
  pose proof (Hrow i Hi) as Li. pose proof (Hrow i' Hi') as Li'.
  unfold len in *. unfold grid_entry in E.
  assert (Ei : Z.to_nat i = Z.to_nat i').
  { apply (N2 _ _ (nth (Z.to_nat j) (nth (Z.to_nat i) grid []) 0%Z));
      try lia.
    - apply nth_In. lia.
    - rewrite E. apply nth_In. lia. }
  assert (i = i') by lia. subst i'. split; [reflexivity|].
  pose proof (N1 (Z.to_nat i)) as Nr.
  rewrite NoDup_nth in Nr. specialize (Nr (Z.to_nat j) (Z.to_nat j')).
  assert (Z.to_nat j = Z.to_nat j') by (apply Nr; [lia|lia|exact E]).
  lia.
Qed.

(** The faces of the walk have three different indices. *)
Lemma walk_faces_distinct (f : face) :
  In f (walk_faces (grid_entry grid) freq) ->
  let '(a, b, c) := f in a <> b /\ b <> c /\ a <> c.
Proof.
  unfold walk_faces. intros Hf. apply in_flat_map in Hf.
  destruct Hf as [i [Hi Hf]]. apply In_py_range in Hi.
  apply in_flat_map in Hf. destruct Hf as [j [Hj Hf]].
  apply In_py_range in Hj. unfold cell_faces in Hf.
  destruct Hf as [<-|Hf].
  - repeat split; intros E; apply grid_entry_inj in E; lia.
  - destruct (j <? freq - i - 1)%Z eqn:L; [|contradiction].
    destruct Hf as [<-|[]].
    repeat split; intros E; apply grid_entry_inj in E; lia.
Qed.
End GridEntries.

(** ** Accumulating faces whose vertices have different keys *)

Section KeptAccumulation.
Variable round8 : float -> float.

Lemma face_keys_distinct_app (verts more : list point) (f : face) :
  face_keys_distinct round8 verts f ->
  face_keys_distinct round8 (verts ++ more) f.
Proof.
  destruct f as [[a b] c]. unfold face_keys_distinct, face_in_range.
  intros [[Ra [Rb Rc]] H]. rewrite len_app. pose proof (len_nonneg more).
  unfold len in *. rewrite !app_nth1 by lia. split; [lia|exact H].
Qed.

Lemma face_keys_distinct_offset (verts local : list point) (f : face) :
  face_keys_distinct round8 local f ->
  face_keys_distinct round8 (verts ++ local) (offset_face (len verts) f).
Proof.
  destruct f as [[a b] c].
  unfold face_keys_distinct, face_in_range, offset_face.
  intros [[Ra [Rb Rc]] H]. rewrite len_app. unfold len in *.
  rewrite !app_nth2 by lia.
  replace (Z.to_nat (a + Z.of_nat (length verts)) - length verts)%nat
    with (Z.to_nat a) by lia.
  replace (Z.to_nat (b + Z.of_nat (length verts)) - length verts)%nat
    with (Z.to_nat b) by lia.
  replace (Z.to_nat (c + Z.of_nat (length verts)) - length verts)%nat
    with (Z.to_nat c) by lia.
  split; [lia|exact H].
Qed.

Lemma fold_append_keys_distinct (meshes : list (list point * list face)) :
  Forall (fun mesh => Forall (face_keys_distinct round8 (fst mesh)) (snd mesh))
         meshes ->
  forall acc : list point * list face,
    Forall (face_keys_distinct round8 (fst acc)) (snd acc) ->
    Forall (face_keys_distinct round8 (fst (fold_left append_mesh meshes acc)))
           (snd (fold_left append_mesh meshes acc)).
Proof.
  induction 1 as [|[fv ff] meshes Hm _ IH]; intros [av af] Hacc;
    cbn [fold_left]; [exact Hacc|].
  apply IH. cbn [append_mesh fst snd] in *.
  apply Forall_app. split.
  - eapply Forall_impl; [|exact Hacc]. intros f.
    apply face_keys_distinct_app.
  - rewrite Forall_forall in *. intros f Hf.
    apply in_map_iff in Hf. destruct Hf as [f' [<- Hf']].
    apply face_keys_distinct_offset. auto.
Qed.
End KeptAccumulation.

(** ** The counts of the mesh under perfect merging *)

Section PerfectMerging.
Variable round8 : float -> float.
Variables math_cos math_sin : float -> float.
Variable self : GeodesicCalculator.
Hypothesis valid_frequency : (1 <= frequency self)%Z.
Hypothesis perfect : perfect_merging round8 math_cos math_sin self.

Local Abbreviation freq := (frequency self).
Local Abbreviation sample_at := (position_sample math_cos math_sin self).
Local Abbreviation local_mesh := (local_mesh round8 math_cos math_sin self).
Local Abbreviation accumulated := (accumulated round8 math_cos math_sin self).

Lemma face_positions_NoDup (k : Z) : NoDup (face_positions freq k).
Proof.
  unfold face_positions. apply NoDup_flat_map.
  - apply py_range_NoDup.
  - intros i _. apply NoDup_map_NoDup_ForallPairs; [|apply py_range_NoDup].
    intros j j' _ _ [= H]. exact H.
  - intros i i' x _ _ Hx Hx'. apply in_map_iff in Hx, Hx'.
    destruct Hx as [j [<- _]]. destruct Hx' as [j' [[= H _] _]]. auto.
Qed.

Lemma face_positions_incl (k : Z) (p : position) :
  (0 <= k < 20)%Z -> In p (face_positions freq k) -> In p (positions freq).
Proof.
  intros Hk Hp. destruct p as [[k' i] j].
  apply In_face_positions in Hp. apply In_positions.
  destruct Hp as [-> H]. tauto.
Qed.

(** The samples of base face [k] are the samples at its positions. *)
Lemma face_samples (k : Z) :
  (let '(f0, f1, f2) := base_face k in
   samples self (corner math_cos math_sin self f0)
     (corner math_cos math_sin self f1) (corner math_cos math_sin self f2)
     freq) =
  map sample_at (face_positions freq k).
Proof.
  unfold face_positions.
  rewrite flat_map_concat_map, concat_map, map_map.
  destruct (base_face k) as [[f0 f1] f2] eqn:EB.
  unfold samples, sample_rows. f_equal. apply map_ext. intros i.
  rewrite map_map. unfold sample_row. apply map_ext. intros j.
  unfold position_sample. rewrite EB. reflexivity.
Qed.

(** Within one base face, samples at different positions have different
    keys. *)
Lemma face_keys_differ (k : Z) (p q : position) :
  (0 <= k < 20)%Z ->
  In p (face_positions freq k) -> In q (face_positions freq k) -> p <> q ->
  key_eqb (key_of round8 (sample_at p)) (key_of round8 (sample_at q)) = false.
Proof.
  intros Hk Hp Hq Hne.
  destruct (key_eqb _ _) eqn:E; [|reflexivity]. exfalso. apply Hne.
  apply perfect in E; try (eapply face_positions_incl; eassumption).
  destruct p as [[kp i] j], q as [[kq i'] j'].
  apply In_face_positions in Hp, Hq.
  destruct Hp as [-> _]. destruct Hq as [-> _].
  apply combination_inj_face in E; [|exact Hk].
  destruct E as [-> ->]. reflexivity.
Qed.

Lemma face_samples_differ (k : Z) (a b : nat) :
  (0 <= k < 20)%Z ->
  (a < length (face_positions freq k))%nat ->
  (b < length (face_positions freq k))%nat -> a <> b ->
  key_eqb
    (key_of round8 (nth a (map sample_at (face_positions freq k)) zero_point))
    (key_of round8 (nth b (map sample_at (face_positions freq k)) zero_point))
  = false.
Proof.
  intros Hk Ha Hb Hne.
  set (d := ((0, 0, 0)%Z : position)).
  rewrite (nth_indep _ zero_point (sample_at d)) by (rewrite length_map; lia).
  rewrite (nth_indep _ zero_point (sample_at d)) by (rewrite length_map; lia).
  rewrite !map_nth.
  apply (face_keys_differ Hk); try (apply nth_In; lia).
  intros E. apply Hne.
  pose proof (face_positions_NoDup k) as N.
  rewrite (NoDup_nth _ d) in N. apply N; assumption.
Qed.

(** The local mesh of base face [k]: no sample is merged inside the call,
    and every local face has three vertices with different keys. *)
Lemma local_mesh_perfect (k : Z) :
  (0 <= k < 20)%Z ->
  fst (local_mesh (base_face k)) = map sample_at (face_positions freq k) /\
  Forall (face_keys_distinct round8 (fst (local_mesh (base_face k))))
         (snd (local_mesh (base_face k))).
Proof.
  intros Hk. pose proof (face_samples k) as S.
  pose proof (@local_faces_in_range round8 self) as R.
  pose proof (@built_grid_shape round8 self) as G.
  unfold local_mesh. destruct (base_face k) as [[f0 f1] f2]. cbn [fst snd].
  specialize (R (corner math_cos math_sin self f0)
                (corner math_cos math_sin self f1)
                (corner math_cos math_sin self f2) freq).
  specialize (G (corner math_cos math_sin self f0)
                (corner math_cos math_sin self f1)
                (corner math_cos math_sin self f2) freq []
                ltac:(lia)).
  destruct (intern_rows_concat round8
              (sample_rows self (corner math_cos math_sin self f0)
                 (corner math_cos math_sin self f1)
                 (corner math_cos math_sin self f2) freq) [])
    as [C1 C2].
  fold (samples self (corner math_cos math_sin self f0)
          (corner math_cos math_sin self f1)
          (corner math_cos math_sin self f2) freq) in C1, C2.
  rewrite S in C1, C2.
  assert (D : keys_distinct round8 (map sample_at (face_positions freq k))).
  { intros a b Hab. rewrite length_map in Hab.
    apply face_samples_differ; lia. }
  rewrite (intern_all_distinct (round8 := round8) _ [] D) in C1, C2.
  cbn [fst snd app length] in C1, C2.
  destruct (intern_rows round8 [] _) as [verts grid]. cbn [fst snd] in *.
  subst verts. split; [reflexivity|].
  assert (N : NoDup (concat grid)).
  { rewrite C2. apply NoDup_map_NoDup_ForallPairs; [|apply seq_NoDup].
    intros x y _ _ H. lia. }
  rewrite Forall_forall in *. intros [[a b] c] Hf.
  pose proof (R _ Hf) as Rf. pose proof (walk_faces_distinct G N _ Hf) as Df.
  unfold face_keys_distinct. split; [exact Rf|].
  unfold face_in_range, len in Rf. rewrite length_map in Rf.
  cbv beta iota in Df.
  repeat split; apply face_samples_differ; lia.
Qed.

Lemma local_meshes_perfect :
  map fst (map local_mesh ico_faces) =
    map (fun k => map sample_at (face_positions freq k)) (py_range 20) /\
  Forall (fun mesh => Forall (face_keys_distinct round8 (fst mesh)) (snd mesh))
         (map local_mesh ico_faces).
Proof.
  rewrite ico_faces_base, !map_map. split.
  - apply map_ext_in. intros k Hk. apply In_py_range in Hk.
    apply local_mesh_perfect, Hk.
  - apply Forall_forall. intros mesh Hm. apply in_map_iff in Hm.
    destruct Hm as [k [<- Hk]]. apply In_py_range in Hk.
    apply local_mesh_perfect, Hk.
Qed.

(** The vertices handed to the merge are the samples at all positions. *)
Lemma accumulated_samples :
  fst accumulated = map sample_at (positions freq).
Proof.
  rewrite accumulated_verts. destruct local_meshes_perfect as [-> _].
  unfold positions. rewrite flat_map_concat_map, concat_map, map_map.
  reflexivity.
Qed.

Lemma accumulated_keys_distinct :
  Forall (face_keys_distinct round8 (fst accumulated)) (snd accumulated).
Proof.
  unfold accumulated. apply fold_append_keys_distinct; [|constructor].
  apply local_meshes_perfect.
Qed.

(** C1, amended. For every radius and every frequency [>= 1], when merging
    is perfect, that is, when two samples have equal rounded keys exactly
    if they are the same point of the subdivided icosahedron (the same
    combination of its twelve corners), [calculate] returns a mesh with
    exactly [20 * frequency^2] faces and [10 * frequency^2 + 2]
    vertices. *)
Theorem calculate_counts :
  exists mesh : GeodesicCalculator,
    calculate round8 math_cos math_sin self = Ok mesh /\
    len (faces mesh) = (20 * (freq * freq))%Z /\
    len (points mesh) = (10 * (freq * freq) + 2)%Z.
Proof.
  rewrite calculate_eq.
  destruct (@merge_duplicates_keeps_faces round8 (fst accumulated))
    with (faces := snd accumulated) as [kept [-> K]].
  - intros v Hv. rewrite accumulated_samples in Hv.
    apply in_map_iff in Hv. destruct Hv as [p [<- Hp]].
    apply perfect; [exact Hp|exact Hp|reflexivity].
  - apply accumulated_keys_distinct.
  - cbn [bind]. eexists. split; [reflexivity|]. cbn [faces points]. split.
    + unfold len. rewrite K. fold (len (snd accumulated)).
      apply accumulated_faces_count. lia.
    + destruct (distinct_combinations valid_frequency) as [N [S L]].
      rewrite accumulated_samples. unfold len in *.
      rewrite (intern_all_count round8 sample_at (combination freq)
                 (positions freq) perfect N S).
      exact L.
Qed.
End PerfectMerging.

Lemma perfect_mergingb_sound (round8 math_cos math_sin : float -> float)
    (self : GeodesicCalculator) :
  perfect_mergingb round8 math_cos math_sin self = true ->
  perfect_merging round8 math_cos math_sin self.
Proof.
  unfold perfect_mergingb. intros H p q Hp Hq.
  rewrite forallb_forall in H.
  pose proof (H _ (in_map (fun p => (key_of round8
                                       (position_sample math_cos math_sin self p),
                                     combination (frequency self) p)) _ _ Hp))
    as Hpq.
  rewrite forallb_forall in Hpq.
  specialize (Hpq _ (in_map (fun p => (key_of round8
                                         (position_sample math_cos math_sin self p),
                                       combination (frequency self) p)) _ _ Hq)).
  cbn [fst snd] in Hpq. apply Bool.eqb_prop in Hpq. rewrite Hpq.
  destruct (list_eq_dec Z.eq_dec _ _); split; intros; congruence.
Qed.

(** At radius 10 merging is perfect for frequency 2: 42 vertices and 80
    faces. *)
Lemma calculate_counts_witness :
  exists mesh : GeodesicCalculator,
    generate 10 2 = Ok mesh /\
    len (faces mesh) = 80%Z /\ len (points mesh) = 42%Z.
Proof.
  apply (@calculate_counts py_round8 libm_cos libm_sin (init 10 2)).
  - simpl. lia.
  - apply perfect_mergingb_sound. vm_compute. reflexivity.
Defined.

(** The counts of the specification's test cases, at radius 10. *)
Example generate_counts :
  counts (generate 10 1) = Ok (12, 20)%Z /\
  counts (generate 10 2) = Ok (42, 80)%Z /\
  counts (generate 10 3) = Ok (92, 180)%Z.
Proof. split; [|split]; vm_compute; reflexivity. Qed.

(** C1 is false as stated: at radius [2^-40] and frequency 1 every
    coordinate rounds to 0, all samples have the key [(0, 0, 0)], one
    vertex is kept and every face is degenerate and dropped: 1 vertex and
    no face, where the claim has 12 and 20. *)
Lemma calculate_counts_counterexample :
  counts (generate 0x1p-40 1) = Ok (1, 0)%Z /\
  counts (generate 0x1p-40 1) <> Ok (10 * (1 * 1) + 2, 20 * (1 * 1))%Z.
Proof. split; vm_compute; [reflexivity|discriminate]. Qed.

(** * Further properties of the calculator *)

(** ** Normalize-and-scale: symmetry and values that are not finite *)

Lemma Prim2SF_inj (x y : float) : Prim2SF x = Prim2SF y -> x = y.
Proof.
  intros H. rewrite <- (SF2Prim_Prim2SF x), <- (SF2Prim_Prim2SF y), H.
  reflexivity.
Qed.

Lemma binary_round_aux_opp (s : bool) (m e : Z) (l : location) :
  binary_round_aux prec emax (negb s) m e l =
  SFopp (binary_round_aux prec emax s m e l).
Proof.
  unfold binary_round_aux.
  destruct (shr_fexp prec emax m e l) as [mrs' e'].
  destruct (shr_fexp prec emax _ e' loc_Exact) as [mrs'' e''].
  destruct (shr_m mrs''); try reflexivity.
  destruct (Z.leb e'' (Z.sub emax prec)); reflexivity.
Qed.

Lemma xorb_negb_r (a b : bool) : xorb a (negb b) = negb (xorb a b).
Proof. destruct a, b; reflexivity. Qed.

Lemma xorb_negb_l (a b : bool) : xorb (negb a) b = negb (xorb a b).
Proof. destruct a, b; reflexivity. Qed.

Lemma SFmul_opp_r (x y : spec_float) :
  SFmul prec emax x (SFopp y) = SFopp (SFmul prec emax x y).
Proof.
  destruct x as [sx | sx | | sx mx ex], y as [sy | sy | | sy my ey];
    cbn [SFmul SFopp]; rewrite ?xorb_negb_r; try reflexivity.
  apply binary_round_aux_opp.
Qed.

Lemma SFmul_opp_l (x y : spec_float) :
  SFmul prec emax (SFopp x) y = SFopp (SFmul prec emax x y).
Proof.
  destruct x as [sx | sx | | sx mx ex], y as [sy | sy | | sy my ey];
    cbn [SFmul SFopp]; rewrite ?xorb_negb_l; try reflexivity.
  apply binary_round_aux_opp.
Qed.

Lemma SFdiv_opp_l (x y : spec_float) :
  SFdiv prec emax (SFopp x) y = SFopp (SFdiv prec emax x y).
Proof.
  destruct x as [sx | sx | | sx mx ex], y as [sy | sy | | sy my ey];
    cbn [SFdiv SFopp]; rewrite ?xorb_negb_l; try reflexivity.
  destruct (SFdiv_core_binary prec emax (Z.pos mx) ex (Z.pos my) ey)
    as [[mz ez] lz].
  apply binary_round_aux_opp.
Qed.

Lemma SFopp_involutive (x : spec_float) : SFopp (SFopp x) = x.
Proof. destruct x as [s | s | | s m e]; simpl; rewrite ?negb_involutive; reflexivity. Qed.

Lemma float_mul_opp_r (x y : float) : (x * - y = - (x * y))%float.
Proof.
  apply Prim2SF_inj. rewrite opp_spec, !mul_spec, opp_spec.
  apply SFmul_opp_r.
Qed.

Lemma float_mul_opp_l (x y : float) : (- x * y = - (x * y))%float.
Proof.
  apply Prim2SF_inj. rewrite opp_spec, !mul_spec, opp_spec.
  apply SFmul_opp_l.
Qed.

Lemma float_opp_involutive (x : float) : (- - x = x)%float.
Proof.
  apply Prim2SF_inj. rewrite !opp_spec. apply SFopp_involutive.
Qed.

Lemma float_square_opp (x : float) : (- x * - x = x * x)%float.
Proof.
  rewrite float_mul_opp_r, float_mul_opp_l. apply float_opp_involutive.
Qed.

Lemma float_div_opp_l (x y : float) : (- x / y = - (x / y))%float.
Proof.
  apply Prim2SF_inj. rewrite opp_spec, !div_spec, opp_spec.
  apply SFdiv_opp_l.
Qed.

Section Odd.
Variable self : GeodesicCalculator.

Lemma length_of_neg (v : point) : length_of (neg_point v) = length_of v.
Proof.
  destruct v as [[x y] z]. unfold length_of, sum_of_squares, neg_point.
  rewrite !float_square_opp. reflexivity.
Qed.

Lemma project_neg (v : point) :
  project self (neg_point v) =
  if (length_of v =? 0)%float then zero_point
  else neg_point (project self v).
Proof.
  unfold project. rewrite length_of_neg.
  destruct (length_of v =? 0)%float; [reflexivity|].
  destruct v as [[x y] z]. cbn [neg_point].
  rewrite !float_mul_opp_r, !float_div_opp_l. reflexivity.
Qed.

(** X1. Normalize-and-scale is odd, exactly: the opposite point is sent to
    the opposite of the result, coordinate by coordinate and without any
    rounding difference.  The one exception is a point of computed length
    zero, for which both calls return the zero vector [(0, 0, 0)]. *)
Theorem normalize_and_scale_odd (v : point) :
  exists p : point,
    _normalize_and_scale self v = Ok p /\
    _normalize_and_scale self (neg_point v) =
      Ok (if (length_of v =? 0)%float then zero_point else neg_point p).
Proof.
  exists (project self v). rewrite !normalize_and_scale_eq, project_neg.
  destruct (length_of v =? 0)%float; auto.
Qed.
End Odd.

Lemma Prim2SF_nan : Prim2SF nan = S754_nan.
Proof. reflexivity. Qed.

Lemma is_nan_spec (x : float) : is_nan x = true <-> x = nan.
Proof.
  unfold is_nan. rewrite negb_true_iff, eqb_spec. split.
  - intros H. apply Prim2SF_inj. rewrite Prim2SF_nan.
    destruct (Prim2SF x) as [s | s | | s m e]; try reflexivity.
    + destruct s; discriminate.
    + destruct s; discriminate.
    + unfold SFeqb, SFcompare in H. rewrite Z.compare_refl in H.
      change (Pos.compare_cont Eq m m) with (Pos.compare m m) in H.
      rewrite Pos.compare_refl in H. destruct s; discriminate.
  - intros ->. reflexivity.
Qed.

Lemma SFadd_huge_l (x y : spec_float) :
  sf_huge x -> sf_nonneg y = true -> sf_huge (SFadd prec emax x y).
Proof.
  intros [->| ->]; [left; reflexivity|].
  destruct y as [s | s | | s m e]; simpl; intros H;
    try (apply negb_true_iff in H; subst s); unfold sf_huge; auto.
Qed.

Lemma SFadd_huge_r (x y : spec_float) :
  sf_nonneg x = true -> sf_huge y -> sf_huge (SFadd prec emax x y).
Proof.
  intros H [->| ->].
  - left. destruct x; reflexivity.
  - destruct x as [s | s | | s m e]; simpl in *;
      try (apply negb_true_iff in H; subst s); unfold sf_huge; auto.
Qed.

Lemma SFsqrt_huge (x : spec_float) :
  sf_huge x -> sf_huge (SFsqrt prec emax x).
Proof. intros [->| ->]; unfold sf_huge; auto. Qed.

Lemma SFmul_square_huge (x : spec_float) :
  (x = S754_nan \/ exists s, x = S754_infinity s) ->
  sf_huge (SFmul prec emax x x).
Proof.
  intros [->|[s ->]]; unfold sf_huge; simpl; auto.
  rewrite xorb_nilpotent. auto.
Qed.

Lemma SFdiv_huge (x y z : spec_float) :
  (y = S754_nan \/ exists s, y = S754_infinity s) -> sf_huge z ->
  SFdiv prec emax (SFmul prec emax x y) z = S754_nan.
Proof.
  intros [->|[s ->]] [->| ->];
    destruct x as [sx | sx | | sx mx ex]; reflexivity.
Qed.

Lemma sf_huge_not_zero (x : spec_float) :
  sf_huge x -> SFeqb x (S754_zero false) = false.
Proof. intros [->| ->]; reflexivity. Qed.

Lemma Prim2SF_shape (x : float) :
  is_nan x = true \/ is_infinity x = true ->
  Prim2SF x = S754_nan \/ exists s, Prim2SF x = S754_infinity s.
Proof.
  intros [H|H].
  - apply is_nan_spec in H. subst x. left. reflexivity.
  - unfold is_infinity in H. rewrite eqb_spec, abs_spec in H.
    destruct (Prim2SF x) as [s | s | | s m e]; try discriminate.
    right. exists s. reflexivity.
Qed.

Section NonFinite.
Variable self : GeodesicCalculator.

Lemma sum_of_squares_nonneg (x y z : float) :
  sf_nonneg (Prim2SF (x * x + y * y + z * z)) = true.
Proof.
  rewrite !add_spec, !mul_spec.
  repeat apply SFadd_nonneg; apply SFmul_square_nonneg.
Qed.

Lemma square_nonneg (x : float) : sf_nonneg (Prim2SF (x * x)) = true.
Proof. rewrite mul_spec. apply SFmul_square_nonneg. Qed.

(** The computed length of a vector with a NaN or infinite coordinate is
    a NaN or plus infinity. *)
Lemma length_huge (x y z : float) :
  (is_nan x = true \/ is_infinity x = true) \/
  (is_nan y = true \/ is_infinity y = true) \/
  (is_nan z = true \/ is_infinity z = true) ->
  sf_huge (Prim2SF (length_of (x, y, z))).
Proof.
  intros H. unfold length_of, sum_of_squares.
  rewrite sqrt_spec. apply SFsqrt_huge.
  rewrite add_spec. destruct H as [H|[H|H]].
  - apply SFadd_huge_l; [|apply square_nonneg].
    rewrite add_spec. apply SFadd_huge_l; [|apply square_nonneg].
    rewrite mul_spec. apply SFmul_square_huge, Prim2SF_shape, H.
  - apply SFadd_huge_l; [|apply square_nonneg].
    rewrite add_spec. apply SFadd_huge_r; [apply square_nonneg|].
    rewrite mul_spec. apply SFmul_square_huge, Prim2SF_shape, H.
  - apply SFadd_huge_r.
    + rewrite add_spec. apply SFadd_nonneg; apply square_nonneg.
    + rewrite mul_spec. apply SFmul_square_huge, Prim2SF_shape, H.
Qed.

Lemma scaled_nan (c l : float) :
  is_nan c = true \/ is_infinity c = true ->
  sf_huge (Prim2SF l) ->
  (radius self * c / l)%float = nan.
Proof.
  intros Hc Hl. apply Prim2SF_inj.
  rewrite div_spec, mul_spec, Prim2SF_nan.
  apply SFdiv_huge; [apply Prim2SF_shape, Hc|exact Hl].
Qed.

Lemma SFadd_nan_l (x : spec_float) : SFadd prec emax S754_nan x = S754_nan.
Proof. reflexivity. Qed.

Lemma SFadd_nan_r (x : spec_float) : SFadd prec emax x S754_nan = S754_nan.
Proof. destruct x; reflexivity. Qed.

Lemma SFdiv_nan_r (x : spec_float) : SFdiv prec emax x S754_nan = S754_nan.
Proof. destruct x; reflexivity. Qed.

(** A NaN coordinate makes every coordinate of the result a NaN. *)
Lemma project_nan (x y z : float) :
  is_nan x = true \/ is_nan y = true \/ is_nan z = true ->
  project self (x, y, z) = nan_point.
Proof.
  intros H.
  assert (L : Prim2SF (length_of (x, y, z)) = S754_nan).
  { unfold length_of, sum_of_squares.
    rewrite sqrt_spec, !add_spec, !mul_spec.
    unfold SF64sqrt, SF64add, SF64mul.
    destruct H as [H|[H|H]]; apply is_nan_spec in H; subst;
      rewrite Prim2SF_nan; cbn [SFmul];
      rewrite ?SFadd_nan_l, ?SFadd_nan_r, ?SFadd_nan_l; reflexivity. }
  unfold project.
  assert (E : (length_of (x, y, z) =? 0)%float = false)
    by (rewrite eqb_spec, L; reflexivity).
  rewrite E. unfold nan_point.
  assert (D : forall c : float, (c / length_of (x, y, z))%float = nan).
  { intros c. apply Prim2SF_inj. rewrite div_spec, L, Prim2SF_nan.
    apply SFdiv_nan_r. }
  rewrite !D. reflexivity.
Qed.

(** X2. Coordinates that are not finite.  A NaN in any coordinate of the
    input makes all three coordinates of the result NaN.  An infinite
    coordinate comes out as NaN (the computed length is infinite or NaN),
    whatever the radius: such a point is not projected onto the sphere.
    In both cases the function returns, and does not return the zero
    vector. *)
Theorem normalize_and_scale_nonfinite (x y z : float) :
  (is_nan x = true \/ is_nan y = true \/ is_nan z = true ->
   _normalize_and_scale self (x, y, z) = Ok nan_point) /\
  (is_infinity x = true \/ is_infinity y = true \/ is_infinity z = true ->
   exists px py pz : float,
     _normalize_and_scale self (x, y, z) = Ok (px, py, pz) /\
     (is_infinity x = true -> px = nan) /\
     (is_infinity y = true -> py = nan) /\
     (is_infinity z = true -> pz = nan)).
Proof.
  rewrite normalize_and_scale_eq. split.
  - intros H. rewrite project_nan by exact H. reflexivity.
  - intros H.
    assert (L : sf_huge (Prim2SF (length_of (x, y, z))))
      by (apply length_huge; tauto).
    unfold project.
    assert (E : (length_of (x, y, z) =? 0)%float = false)
      by (rewrite eqb_spec; apply sf_huge_not_zero, L).
    rewrite E. do 3 eexists. split; [reflexivity|].
    repeat split; intros I; apply scaled_nan; auto.
Qed.
End NonFinite.

(** ** The icosahedron *)

Lemma SFeqb_finite_refl (s : bool) (m : positive) (e : Z) :
  SFeqb (S754_finite s m e) (S754_finite s m e) = true.
Proof.
  unfold SFeqb, SFcompare. rewrite Z.compare_refl.
  replace (Pos.compare_cont Eq m m) with Eq
    by (symmetry; apply Pos.compare_cont_refl).
  destruct s; reflexivity.
Qed.

Lemma opposite_opp (x : float) : opposite x (- x) = true.
Proof.
  unfold opposite, is_nan. rewrite !eqb_spec, !opp_spec.
  destruct (Prim2SF x) as [s | s | | s m e]; simpl; try reflexivity.
  - destruct s; reflexivity.
  - rewrite SFeqb_finite_refl. reflexivity.
Qed.

(** [r * 0 / l] is a zero or a NaN. *)
Lemma opposite_scaled_zero (r l : float) :
  opposite (r * 0 / l) (r * 0 / l) = true.
Proof.
  unfold opposite, is_nan. rewrite !eqb_spec, !opp_spec, !div_spec, !mul_spec.
  change (Prim2SF 0) with (S754_zero false).
  destruct (Prim2SF r) as [sr | sr | | sr mr er],
           (Prim2SF l) as [sl | sl | | sl ml el];
    try reflexivity;
    try (destruct sr, sl; reflexivity).
Qed.

Lemma mirrored_square (a b : float) : mirrored a b -> (b * b = a * a)%float.
Proof.
  intros [->|[-> ->]]; [apply float_square_opp|reflexivity].
Qed.

Section Antipodes.
Variable self : GeodesicCalculator.

Lemma mirrored_scaled (a b l : float) :
  mirrored a b ->
  opposite (radius self * a / l) (radius self * b / l) = true.
Proof.
  intros [->|[-> ->]].
  - rewrite float_mul_opp_r, float_div_opp_l. apply opposite_opp.
  - apply opposite_scaled_zero.
Qed.

Lemma project_mirrored (x y z x' y' z' : float) :
  mirrored x x' -> mirrored y y' -> mirrored z z' ->
  antipodal (project self (x, y, z)) (project self (x', y', z')) = true.
Proof.
  intros Hx Hy Hz. unfold project, length_of, sum_of_squares.
  rewrite (mirrored_square Hx), (mirrored_square Hy), (mirrored_square Hz).
  destruct (sqrt (x * x + y * y + z * z) =? 0)%float; [reflexivity|].
  cbn [antipodal]. rewrite !mirrored_scaled by assumption. reflexivity.
Qed.
End Antipodes.

Lemma mirrored_opp (a : float) : mirrored a (- a).
Proof. left. reflexivity. Qed.

Lemma mirrored_zero : mirrored 0 0.
Proof. right. split; reflexivity. Qed.

Lemma mirrored_mul_l (s x : float) : mirrored (s * x) (- s * x).
Proof. left. apply float_mul_opp_l. Qed.

Lemma mirrored_mul_r (s x : float) : mirrored (- s * x) (s * x).
Proof.
  left. rewrite float_mul_opp_l. symmetry. apply float_opp_involutive.
Qed.

Create HintDb mirror.
#[local] Hint Resolve mirrored_opp mirrored_zero mirrored_mul_l mirrored_mul_r
  : mirror.

Section Icosahedron.
Variables math_cos math_sin : float -> float.
Variable self : GeodesicCalculator.

(** X3. For every radius, [_create_icosahedron] returns twelve vertices
    and twenty faces; each face has three different corners among the
    twelve, and the faces form a closed surface with one orientation:
    every directed side of a face belongs to that face only, and the
    reversed side to exactly one face. *)
Theorem create_icosahedron_closed :
  exists (verts : list point) (faces : list face),
    _create_icosahedron math_cos math_sin self = Ok (verts, faces) /\
    len verts = 12%Z /\ len faces = 20%Z /\
    Forall (face_ok (len verts)) faces /\
    closed_surface faces = true.
Proof.
  do 2 eexists. split; [apply create_icosahedron_eq|].
  split; [reflexivity|]. split; [reflexivity|]. split; [|reflexivity].
  rewrite ico_verts_length.
  repeat (constructor; [unfold face_ok; lia|]). constructor.
Qed.

(** X4. The corners of the icosahedron come in six opposite pairs, (0, 11),
    (1, 9), (2, 10), (3, 6), (4, 7) and (5, 8): each coordinate of one
    corner [==] the negation of the coordinate of the other (or both are
    NaN), exactly, for every radius and whatever [math.cos] and
    [math.sin] return. *)
Theorem create_icosahedron_antipodal :
  exists (verts : list point) (faces : list face),
    _create_icosahedron math_cos math_sin self = Ok (verts, faces) /\
    forall a b : Z, In (a, b) antipodes ->
      antipodal (nth (Z.to_nat a) verts zero_point)
                (nth (Z.to_nat b) verts zero_point) = true.
Proof.
  do 2 eexists. split; [apply create_icosahedron_eq|].
  intros a b H. unfold antipodes in H. cbn [In] in H.
  unfold ico_verts, raw_icosahedron.
  repeat (destruct H as [[= <- <-]|H];
          [cbn [map nth Z.to_nat Pos.to_nat Pos.iter_op Nat.add];
           apply project_mirrored; auto with mirror|]).
  contradiction.
Qed.
End Icosahedron.

(** ** One triangle, for every frequency *)

Lemma keys_distinct_nil (round8 : float -> float) : keys_distinct round8 [].
Proof. intros p q H. simpl in H. lia. Qed.

Section LocalMeshFacts.
Variable round8 : float -> float.
Variable self : GeodesicCalculator.
Variables v0 v1 v2 : point.
Variable freq : Z.

(** X5. For every frequency (also below 1) and every three corners,
    [_subdivide_triangle] returns: the division by [freq] is guarded and
    no [grid[i][j]] is out of range.  Each index of each face it returns
    is the position of a vertex it returns. *)
Theorem subdivide_triangle_in_range :
  exists (verts : list point) (faces : list face),
    _subdivide_triangle round8 self v0 v1 v2 freq = Ok (verts, faces) /\
    Forall (face_in_range (len verts)) faces.
Proof.
  do 2 eexists. split; [apply subdivide_triangle_total|].
  apply local_faces_in_range.
Qed.

(** X6. The vertices one call of [_subdivide_triangle] returns are grid
    samples, no two of them have equal keys, and every sample whose key
    equals itself (holds no NaN) has its key among them. *)
Theorem subdivide_triangle_local_vertices :
  exists (verts : list point) (faces : list face),
    _subdivide_triangle round8 self v0 v1 v2 freq = Ok (verts, faces) /\
    incl verts (samples self v0 v1 v2 freq) /\
    keys_distinct round8 verts /\
    forall pt : point, In pt (samples self v0 v1 v2 freq) ->
      key_eqb (key_of round8 pt) (key_of round8 pt) = true ->
      exists w : point,
        In w verts /\ key_eqb (key_of round8 w) (key_of round8 pt) = true.
Proof.
  do 2 eexists. split; [apply subdivide_triangle_total|].
  split; [apply local_verts_incl|].
  destruct (intern_rows_concat round8 (sample_rows self v0 v1 v2 freq) [])
    as [C1 _].
  rewrite C1. fold (samples self v0 v1 v2 freq). split.
  - apply intern_all_keys_distinct, (@keys_distinct_nil round8).
  - intros pt Hin Hk.
    destruct (In_nth_error _ _ Hin) as [n N].
    destruct (lookup_merged round8 (samples self v0 v1 v2 freq) [] n N)
      as [_ L].
    destruct (dict_get key_eqb
                (index_dict round8
                   (fst (intern_all round8 [] (samples self v0 v1 v2 freq))))
                (key_of round8 pt)) as [idx|] eqn:D.
    + apply dict_get_in in D. destruct D as [k [Hk' He]].
      apply index_dict_in in Hk'. destruct Hk' as [Hr [_ ->]].
      eexists. split; [|exact He].
      apply nth_In. unfold len in Hr. lia.
    + specialize (L eq_refl). congruence.
Qed.

(** X7. Below frequency 1 [_subdivide_triangle] returns no face.  For
    frequency 0 it returns one vertex, the projection of the sample with
    weights [a = b = 0] and [c = 1] (the branch [else: a = 0; b = 0]);
    for a negative frequency it returns no vertex. *)
Theorem subdivide_triangle_below_one :
  (freq <= 0)%Z ->
  _subdivide_triangle round8 self v0 v1 v2 freq =
  Ok (if (freq <? 0)%Z then []
      else [project self (interpolate v0 v1 v2 0 0)], []).
Proof.
  intros H. rewrite subdivide_triangle_total.
  unfold walk_faces. rewrite (py_range_nonpos H). cbn [flat_map].
  destruct (freq <? 0)%Z eqn:E.
  - unfold sample_rows. rewrite py_range_nonpos by lia. reflexivity.
  - assert (freq = 0%Z) by lia. subst freq. reflexivity.
Qed.
End LocalMeshFacts.

(** ** The merge: outcome, vertices and faces *)

Lemma py_index_wrap {A : Type} (l : list A) (i : Z) (d : A) :
  (- len l <= i < len l)%Z ->
  py_index l i = Ok (nth (Z.to_nat (wrap_index (len l) i)) l d).
Proof.
  intros H. unfold py_index, wrap_index, len in *.
  destruct (i <? 0)%Z eqn:E.
  - destruct (Z.of_nat (length l) + i <? 0)%Z eqn:E'; [lia|].
    destruct (nth_error l _) as [a|] eqn:N.
    + f_equal. symmetry. apply nth_error_nth. exact N.
    + apply nth_error_None in N. lia.
  - rewrite E.
    destruct (nth_error l _) as [a|] eqn:N.
    + f_equal. symmetry. apply nth_error_nth. exact N.
    + apply nth_error_None in N. lia.
Qed.

Lemma py_index_range {A : Type} (l : list A) (i : Z) (a : A) :
  py_index l i = Ok a -> (- len l <= i < len l)%Z.
Proof.
  unfold py_index, len.
  destruct (i <? 0)%Z eqn:E.
  - destruct (Z.of_nat (length l) + i <? 0)%Z eqn:E'; [discriminate|]. lia.
  - rewrite E. destruct (nth_error l (Z.to_nat i)) as [b|] eqn:N;
      [|discriminate].
    intros _. assert (nth_error l (Z.to_nat i) <> None) by congruence.
    apply nth_error_Some in H. lia.
Qed.

Section MergeOutcome.
Variable round8 : float -> float.
Variable verts : list point.

Local Abbreviation key_of := (key_of round8).
Local Abbreviation merged_verts := (fst (intern_all round8 [] verts)).
Local Abbreviation merged := (snd (intern_all round8 [] verts)).
Local Abbreviation index_map := (index_dict round8 merged_verts).
Local Abbreviation index_good := (index_good round8 verts).
Local Abbreviation face_good := (face_good round8 verts).

(** Looking up the key of [verts[i]] in the final [index_map]. *)
Lemma remap_index_good (i : Z) :
  (index_good i /\
   exists (v : point) (idx : Z),
     py_index verts i = Ok v /\
     dict_lookup key_eqb index_map (key_of v) = Ok idx /\
     same_key round8 verts merged_verts i idx) \/
  (~ index_good i /\
   (py_index verts i = Raise IndexError \/
    exists v : point,
      py_index verts i = Ok v /\
      dict_lookup key_eqb index_map (key_of v) = Raise KeyError)).
Proof.
  unfold dict_lookup.
  destruct (remap_index_cases round8 verts i)
    as [[P _]|[v [idx [P [_ [D|[D S]]]]]]].
  - right. split; [|left; exact P].
    intros [R _]. rewrite (py_index_wrap verts zero_point R) in P.
    discriminate.
  - left.
    pose proof (py_index_range _ _ P) as R.
    pose proof P as P'. rewrite (py_index_wrap verts zero_point R) in P'.
    injection P' as P'.
    pose proof D as D'. apply dict_get_in in D'.
    destruct D' as [k [Hin Hk]].
    apply index_dict_in in Hin. destruct Hin as [Hr [_ ->]].
    split.
    + split; [exact R|]. cbv zeta. rewrite P'.
      eapply key_eqb_right_refl. exact Hk.
    + exists v, idx. rewrite D. split; [exact P|]. split; [reflexivity|].
      exists v. auto.
  - right. split.
    + intros [R G]. cbv zeta in G.
      rewrite (py_index_wrap verts zero_point R) in P. injection P as P.
      rewrite P in G. congruence.
    + right. exists v. rewrite D. auto.
Qed.

Lemma remap_face_good (new_faces : list face) (f : face) :
  (face_good f /\
   exists new_faces' : list face,
     remap_face round8 verts index_map new_faces f = Ok new_faces' /\
     (new_faces' = new_faces \/
      exists g : face, new_faces' = new_faces ++ [g] /\
                       face_same_keys round8 verts merged_verts f g)) \/
  (~ face_good f /\
   exists e : exn, remap_face round8 verts index_map new_faces f = Raise e).
Proof.
  destruct f as [[f0 f1] f2]. unfold remap_face. cbn [face_good].
  destruct (remap_index_good f0)
    as [[G0 [w0 [n0 [P0 [L0 K0]]]]]|[B0 [P0|[w0 [P0 L0]]]]];
    rewrite P0; cbn [bind];
    try (right; split; [tauto|eexists; reflexivity]).
  - destruct (remap_index_good f1)
      as [[G1 [w1 [n1 [P1 [L1 K1]]]]]|[B1 [P1|[w1 [P1 L1]]]]];
      rewrite P1; cbn [bind];
      try (right; split; [tauto|eexists; reflexivity]).
    + destruct (remap_index_good f2)
        as [[G2 [w2 [n2 [P2 [L2 K2]]]]]|[B2 [P2|[w2 [P2 L2]]]]];
        rewrite P2; cbn [bind];
        try (right; split; [tauto|eexists; reflexivity]).
      * left. split; [auto|]. rewrite L0, L1, L2. cbn [bind].
        destruct (negb (n0 =? n1)%Z && negb (n1 =? n2)%Z
                  && negb (n0 =? n2)%Z)%bool;
          eexists; (split; [reflexivity|]); [right|left; reflexivity].
        exists (n0, n1, n2). split; [reflexivity|].
        cbn [face_same_keys]. auto.
      * right. split; [tauto|]. rewrite L0. cbn [bind].
        destruct (dict_lookup key_eqb index_map (key_of w1)); cbn [bind];
          [|eexists; reflexivity].
        rewrite L2. eexists; reflexivity.
    + destruct (py_index verts f2) as [w2|e2]; cbn [bind];
        [|right; split; [tauto|eexists; reflexivity]].
      right. split; [tauto|]. rewrite L0. cbn [bind]. rewrite L1.
      eexists; reflexivity.
  - destruct (py_index verts f1) as [w1|e1]; cbn [bind];
      [|right; split; [tauto|eexists; reflexivity]].
    destruct (py_index verts f2) as [w2|e2]; cbn [bind];
      [|right; split; [tauto|eexists; reflexivity]].
    right. split; [tauto|]. rewrite L0. eexists; reflexivity.
Qed.

Lemma remap_faces_good (faces : list face) :
  forall new_faces : list face,
    (Forall face_good faces /\
     exists new_faces' : list face,
       for_each (remap_face round8 verts index_map) new_faces faces
         = Ok (new_faces ++ new_faces') /\
       Forall (fun g => exists f, In f faces /\
                 face_same_keys round8 verts merged_verts f g) new_faces') \/
    (~ Forall face_good faces /\
     exists e : exn,
       for_each (remap_face round8 verts index_map) new_faces faces
         = Raise e).
Proof.
  induction faces as [|f faces IH]; intros new_faces; cbn [for_each].
  - left. split; [constructor|]. exists []. rewrite app_nil_r. auto.
  - destruct (remap_face_good new_faces f)
      as [[G [nf [-> Hnf]]]|[B [e ->]]]; cbn [bind].
    + destruct (IH nf) as [[Gs [nf' [E F]]]|[Bs [e E]]].
      * left. split; [constructor; assumption|].
        destruct Hnf as [->|[g [-> Hg]]].
        -- exists nf'. split; [exact E|].
           eapply Forall_impl; [|exact F].
           intros g [f' [Hin Hf']]. exists f'. split; [right|]; assumption.
        -- exists (g :: nf'). rewrite E, <- app_assoc. split; [reflexivity|].
           constructor.
           ++ exists f. split; [left; reflexivity|exact Hg].
           ++ eapply Forall_impl; [|exact F].
              intros g' [f' [Hin Hf']]. exists f'.
              split; [right|]; assumption.
      * right. split; [|exists e; exact E].
        intros H. inversion H; subst. contradiction.
    + right. split; [|exists e; reflexivity].
      intros H. inversion H; subst. contradiction.
Qed.

(** X8. [_merge_duplicates] returns exactly when every index [i] of every
    face satisfies [-len(verts) <= i < len(verts)] (a negative index
    counts from the end, as [verts[i]] does) and the rounded key of
    [verts[i]] equals itself, that is, holds no NaN.  Otherwise it
    raises. *)
Theorem merge_duplicates_returns (faces : list face) :
  (exists out, _merge_duplicates round8 verts faces = Ok out) <->
  Forall face_good faces.
Proof.
  rewrite merge_duplicates_eq.
  destruct (remap_faces_good faces []) as [[G [nf [E _]]]|[B [e E]]];
    rewrite E; cbn [bind].
  - split; [intros _; exact G|]. intros _. eexists. reflexivity.
  - split; [intros [out H]; discriminate|]. intros G. contradiction.
Qed.

(** X9. When [_merge_duplicates] returns, every face of the output comes
    from a face of the input, and corner by corner the output index is in
    range and points to an output vertex whose key equals the key of the
    input vertex the input index pointed to. *)
Theorem merge_duplicates_same_keys (faces : list face)
    (out_verts : list point) (out_faces : list face) :
  _merge_duplicates round8 verts faces = Ok (out_verts, out_faces) ->
  Forall (fun g => exists f, In f faces /\
            face_same_keys round8 verts out_verts f g) out_faces.
Proof.
  rewrite merge_duplicates_eq.
  destruct (remap_faces_good faces []) as [[G [nf [E F]]]|[B [e E]]];
    rewrite E; cbn [bind]; [|discriminate].
  intros [= <- <-]. exact F.
Qed.
End MergeOutcome.

Lemma key_eqb_sym (k1 k2 : point) :
  key_eqb k1 k2 = true -> key_eqb k2 k1 = true.
Proof.
  intros H. eapply key_eqb_euclid; [exact H|].
  eapply key_eqb_left_refl. exact H.
Qed.

Section MergeVertices.
Variable round8 : float -> float.

Local Abbreviation key_of := (key_of round8).
Local Abbreviation keys_distinct := (keys_distinct round8).

(** X10. When [_merge_duplicates] returns, no two vertices of the output
    have equal keys. *)
Theorem merge_duplicates_keys_distinct (verts : list point)
    (faces : list face) (out_verts : list point) (out_faces : list face) :
  _merge_duplicates round8 verts faces = Ok (out_verts, out_faces) ->
  forall p q : nat, (p < q < length out_verts)%nat ->
    key_eqb (key_of (nth p out_verts zero_point))
            (key_of (nth q out_verts zero_point)) = false.
Proof.
  rewrite merge_duplicates_eq.
  destruct (for_each _ [] faces) as [new_faces|]; [|discriminate].
  cbn [bind]. intros [= <- _].
  apply (intern_all_keys_distinct (round8 := round8) verts
           (@keys_distinct_nil round8)).
Qed.

(** X11. When [_merge_duplicates] returns, the output vertices are input
    vertices, there are no more of them than in the input, and every
    input vertex whose key equals itself has an output vertex with an
    equal key. *)
Theorem merge_duplicates_vertices (verts : list point)
    (faces : list face) (out_verts : list point) (out_faces : list face) :
  _merge_duplicates round8 verts faces = Ok (out_verts, out_faces) ->
  incl out_verts verts /\
  (len out_verts <= len verts)%Z /\
  forall v : point, In v verts ->
    key_eqb (key_of v) (key_of v) = true ->
    exists w : point,
      In w out_verts /\ key_eqb (key_of w) (key_of v) = true.
Proof.
  rewrite merge_duplicates_eq.
  destruct (for_each _ [] faces) as [new_faces|]; [|discriminate].
  cbn [bind]. intros [= <- _]. split; [|split].
  - apply (intern_all_incl round8 verts []).
  - destruct (intern_all_extends round8 verts []) as [extra [E [L _]]].
    rewrite E. unfold len. simpl. lia.
  - intros v Hin Hv.
    destruct (In_nth_error _ _ Hin) as [n N].
    destruct (lookup_merged round8 verts [] n N) as [_ L].
    destruct (dict_get key_eqb
                (index_dict round8 (fst (intern_all round8 [] verts)))
                (key_of v)) as [idx|] eqn:D.
    + apply dict_get_in in D. destruct D as [k [Hk He]].
      apply index_dict_in in Hk. destruct Hk as [Hr [_ ->]].
      eexists. split; [|exact He].
      apply nth_In. unfold len in Hr. lia.
    + specialize (L eq_refl). congruence.
Qed.

(** X12. A mesh in which no two vertices have equal keys, no key differs
    from itself, and every face has three different indices in
    [0, len(verts)) is returned as it is. *)
Theorem merge_duplicates_fixpoint (verts : list point) (faces : list face) :
  keys_distinct verts ->
  (forall v : point, In v verts -> key_eqb (key_of v) (key_of v) = true) ->
  Forall (face_ok (len verts)) faces ->
  _merge_duplicates round8 verts faces = Ok (verts, faces).
Proof.
  intros D N F. rewrite merge_duplicates_eq.
  rewrite (intern_all_distinct (round8 := round8) verts [] D). cbn [fst app].
  assert (G : forall i : Z, (0 <= i < len verts)%Z ->
                index_found round8 verts i).
  { intros i Hi. unfold len in Hi.
    set (v := nth (Z.to_nat i) verts zero_point).
    assert (Hv : In v verts) by (apply nth_In; lia).
    destruct (dict_get key_eqb (index_dict round8 verts) (key_of v))
      as [j|] eqn:E.
    - assert (Fj : index_found round8 verts j) by (exists (key_of v); exact E).
      destruct (index_found_self D Fj) as [Hj _].
      apply dict_get_in in E. destruct E as [k [Hk He]].
      apply index_dict_in in Hk. destruct Hk as [_ [_ ->]].
      unfold len in Hj.
      destruct (Z.lt_trichotomy i j) as [Hlt|[->|Hgt]].
      + apply key_eqb_sym in He. unfold v in He.
        rewrite (D (Z.to_nat i) (Z.to_nat j)) in He by lia. discriminate.
      + exact Fj.
      + unfold v in He.
        rewrite (D (Z.to_nat j) (Z.to_nat i)) in He by lia. discriminate.
    - rewrite dict_get_none in E.
      specialize (N v Hv). rewrite (E (key_of v) i) in N; [discriminate|].
      replace i with (Z.of_nat (Z.to_nat i)) by lia.
      apply index_dict_nth. lia. }
  rewrite (@remap_found_faces round8 verts faces D); [reflexivity|].
  eapply Forall_impl; [|exact F].
  intros [[a b] c] [[Hab [Hbc Hac]] [Ha [Hb Hc]]].
  split; [|auto].
  unfold pairwise_distinct.
  rewrite !andb_true_iff, !negb_true_iff, !Z.eqb_neq. auto.
Qed.
End MergeVertices.

Lemma key_eqb_trans (k1 k2 k3 : point) :
  key_eqb k1 k2 = true -> key_eqb k2 k3 = true -> key_eqb k1 k3 = true.
Proof.
  intros H12 H23. eapply key_eqb_euclid; [|exact H23].
  apply key_eqb_sym. exact H12.
Qed.

Section Degenerate.
Variable round8 : float -> float.
Variable verts : list point.
Hypothesis no_nan :
  forall v : point, In v verts ->
    key_eqb (key_of round8 v) (key_of round8 v) = true.

Local Abbreviation key_of := (key_of round8).
Local Abbreviation merged_verts := (fst (intern_all round8 [] verts)).
Local Abbreviation index_map := (index_dict round8 merged_verts).
Local Abbreviation key_at :=
  (fun i : Z => key_of (nth (Z.to_nat i) verts zero_point)).

(** Two vertices of the input get the same merged index exactly when
    their keys are equal. *)
Lemma lookup_same (i j : Z) :
  (0 <= i < len verts)%Z -> (0 <= j < len verts)%Z ->
  exists n m : Z,
    dict_get key_eqb index_map (key_at i) = Some n /\
    dict_get key_eqb index_map (key_at j) = Some m /\
    ((n =? m)%Z = key_eqb (key_at i) (key_at j)).
Proof.
  intros Hi Hj.
  destruct (lookup_vertex round8 verts no_nan Hi) as [n [Ln En]].
  destruct (lookup_vertex round8 verts no_nan Hj) as [m [Lm Em]].
  exists n, m. split; [exact Ln|]. split; [exact Lm|].
  assert (D : keys_distinct round8 merged_verts)
    by (apply intern_all_keys_distinct, (@keys_distinct_nil round8)).
  pose proof Ln as Rn. apply dict_get_in in Rn.
  destruct Rn as [kn [Rn _]]. apply index_dict_in in Rn.
  destruct Rn as [Rn _].
  pose proof Lm as Rm. apply dict_get_in in Rm.
  destruct Rm as [km [Rm _]]. apply index_dict_in in Rm.
  destruct Rm as [Rm _].
  unfold len in Rn, Rm.
  destruct (key_eqb (key_at i) (key_at j)) eqn:K.
  - apply Z.eqb_eq.
    assert (Enm : key_eqb (key_of (nth (Z.to_nat n) merged_verts zero_point))
                          (key_of (nth (Z.to_nat m) merged_verts zero_point))
                  = true).
    { eapply key_eqb_trans; [exact En|].
      eapply key_eqb_trans; [exact K|]. apply key_eqb_sym. exact Em. }
    destruct (Z.lt_trichotomy n m) as [Hlt|[Heq|Hgt]]; [|exact Heq|].
    + rewrite (D (Z.to_nat n) (Z.to_nat m)) in Enm by lia. discriminate.
    + apply key_eqb_sym in Enm.
      rewrite (D (Z.to_nat m) (Z.to_nat n)) in Enm by lia. discriminate.
  - apply Z.eqb_neq. intros ->.
    rewrite (key_eqb_euclid _ _ _ En Em) in K. discriminate.
Qed.

Lemma remap_face_degenerate (new_faces : list face) (f : face) :
  face_in_range (len verts) f ->
  exists kept : list face,
    remap_face round8 verts index_map new_faces f = Ok (new_faces ++ kept) /\
    length kept = length (filter (keys_differ round8 verts) [f]).
Proof.
  destruct f as [[a b] c]. intros [Ra [Rb Rc]].
  destruct (lookup_same Ra Rb) as [n0 [n1 [L0 [L1 E01]]]].
  destruct (lookup_same Rb Rc) as [n1' [n2 [L1' [L2 E12]]]].
  destruct (lookup_same Ra Rc) as [n0' [n2' [L0' [L2' E02]]]].
  assert (n1' = n1) by congruence. assert (n0' = n0) by congruence.
  assert (n2' = n2) by congruence. subst n1' n0' n2'.
  unfold remap_face, dict_lookup.
  rewrite (py_index_nth verts zero_point Ra),
          (py_index_nth verts zero_point Rb),
          (py_index_nth verts zero_point Rc). cbn [bind].
  rewrite L0, L1, L2. cbn [bind].
  cbn [filter keys_differ]. rewrite E01, E12, E02.
  destruct (negb _ && negb _ && negb _)%bool.
  - exists [(n0, n1, n2)]. auto.
  - exists []. rewrite app_nil_r. auto.
Qed.

Lemma remap_faces_degenerate (faces : list face) :
  Forall (face_in_range (len verts)) faces ->
  forall new_faces : list face,
  exists kept : list face,
    for_each (remap_face round8 verts index_map) new_faces faces =
      Ok (new_faces ++ kept) /\
    length kept = length (filter (keys_differ round8 verts) faces).
Proof.
  induction 1 as [|f faces Hf _ IH]; intros new_faces; cbn [for_each].
  - exists []. rewrite app_nil_r. auto.
  - destruct (@remap_face_degenerate new_faces f Hf) as [k1 [-> L1]].
    cbn [bind]. destruct (IH (new_faces ++ k1)) as [k2 [-> L2]].
    exists (k1 ++ k2). rewrite <- app_assoc. split; [reflexivity|].
    rewrite length_app, L1, L2. cbn [filter].
    destruct (keys_differ round8 verts f); simpl; lia.
Qed.

(** X13. On a mesh without NaN keys whose faces hold indices in
    [0, len(verts)), [_merge_duplicates] returns, and the faces it drops
    are exactly those with two corners of equal keys: as many faces are
    kept as have three corners with pairwise different keys. *)
Theorem merge_duplicates_degenerate (faces : list face) :
  Forall (face_in_range (len verts)) faces ->
  exists (out_verts : list point) (out_faces : list face),
    _merge_duplicates round8 verts faces = Ok (out_verts, out_faces) /\
    len out_faces = len (filter (keys_differ round8 verts) faces).
Proof.
  intros H. rewrite merge_duplicates_eq.
  destruct (@remap_faces_degenerate faces H []) as [kept [-> L]].
  cbn [bind app]. do 2 eexists. split; [reflexivity|].
  unfold len. rewrite L. reflexivity.
Qed.
End Degenerate.

(** X14. Without vertices, [_merge_duplicates] returns the empty mesh when
    there is no face, and raises [IndexError] at the first face
    otherwise. *)
Theorem merge_duplicates_no_vertices (round8 : float -> float)
    (faces : list face) :
  _merge_duplicates round8 [] faces =
  match faces with
  | [] => Ok ([], [])
  | _ :: _ => Raise IndexError
  end.
Proof.
  rewrite merge_duplicates_eq. destruct faces as [|[[a b] c] faces];
    [reflexivity|].
  cbn [for_each intern_all fst]. unfold remap_face at 1.
  assert (E : py_index (@nil point) a = Raise IndexError).
  { unfold py_index. destruct (_ <? 0)%Z; [reflexivity|].
    destruct (Z.to_nat _); reflexivity. }
  rewrite E. reflexivity.
Qed.

(** ** The whole computation: bounds and a radius that is not finite *)

Section Bounds.
Variable round8 : float -> float.
Variables math_cos math_sin : float -> float.
Variable self : GeodesicCalculator.

Lemma concat_length_le {A : Type} (k : Z) (L : list (list A)) :
  Forall (fun l => (len l <= k)%Z) L -> (len (concat L) <= len L * k)%Z.
Proof.
  induction 1 as [|l L Hl _ IH]; [reflexivity|].
  cbn [concat]. rewrite len_app. unfold len in *. simpl length. lia.
Qed.

Lemma accumulated_verts_count :
  (0 <= frequency self)%Z ->
  (len (fst (accumulated round8 math_cos math_sin self)) <=
   20 * ((frequency self + 1) * (frequency self + 2) / 2))%Z.
Proof.
  intros H. rewrite accumulated_verts.
  etransitivity; [apply concat_length_le|].
  - apply Forall_forall. intros l Hl. rewrite map_map in Hl.
    apply in_map_iff in Hl. destruct Hl as [[[f0 f1] f2] [<- _]].
    unfold local_mesh. cbn [fst]. apply local_verts_count. exact H.
  - reflexivity.
Qed.

(** X15. Whatever the radius, and however the keys fall, a mesh that
    [calculate] returns for a frequency [f >= 0] has at most [20 f^2]
    faces and at most [10 (f+1) (f+2)] vertices. *)
Theorem calculate_bounds (mesh : GeodesicCalculator) :
  (0 <= frequency self)%Z ->
  calculate round8 math_cos math_sin self = Ok mesh ->
  (len (faces mesh) <= 20 * (frequency self * frequency self))%Z /\
  (len (points mesh) <=
   10 * ((frequency self + 1) * (frequency self + 2)))%Z.
Proof.
  intros H. rewrite calculate_eq.
  pose proof (@merge_duplicates_in_range round8 _ _
                (accumulated_in_range round8 math_cos math_sin self)) as M.
  destruct (_merge_duplicates round8 _ _) as [[pts fcs]|e]; cbn [bind];
    [|discriminate].
  intros [= <-]. cbn [points faces]. destruct M as [_ [-> [_ Lf]]].
  rewrite accumulated_faces_count in Lf by exact H. split; [exact Lf|].
  destruct (intern_all_extends round8
              (fst (accumulated round8 math_cos math_sin self)) [])
    as [extra [E [L _]]].
  rewrite E. pose proof (accumulated_verts_count H) as B.
  unfold len in *. simpl length.
  pose proof (Z.mul_div_le ((frequency self + 1) * (frequency self + 2)) 2).
  lia.
Qed.
End Bounds.

Lemma py_range_cons (n : Z) :
  (1 <= n)%Z -> exists tl : list Z, py_range n = 0%Z :: tl.
Proof.
  intros H. unfold py_range.
  destruct (Z.to_nat n) as [|k] eqn:E; [lia|].
  simpl. eexists. reflexivity.
Qed.

Lemma fold_append_faces_prefix (meshes : list (list point * list face)) :
  forall acc : list point * list face,
  exists rest : list face,
    snd (fold_left append_mesh meshes acc) = snd acc ++ rest.
Proof.
  induction meshes as [|[fv ff] meshes IH]; intros [av af];
    cbn [fold_left].
  - exists []. rewrite app_nil_r. reflexivity.
  - destruct (IH (append_mesh (av, af) (fv, ff))) as [rest E].
    rewrite E. cbn [append_mesh snd]. rewrite <- app_assoc.
    eexists. reflexivity.
Qed.

Lemma weight_zero (freq : Z) : weight freq 0 = 0%float.
Proof.
  unfold weight. destruct freq as [|p|p]; reflexivity.
Qed.

Lemma float_mul_nan_r (x : float) : (x * nan)%float = nan.
Proof.
  apply Prim2SF_inj. rewrite mul_spec, Prim2SF_nan.
  destruct (Prim2SF x); reflexivity.
Qed.

Lemma float_add_nan_r (x : float) : (x + nan)%float = nan.
Proof.
  apply Prim2SF_inj. rewrite add_spec, Prim2SF_nan.
  destruct (Prim2SF x); reflexivity.
Qed.

Lemma sample_rows_first (self : GeodesicCalculator) (v0 v1 v2 : point)
    (freq : Z) :
  (0 <= freq)%Z ->
  exists (row : list point) (rows : list (list point)),
    sample_rows self v0 v1 v2 freq =
    (grid_point self v0 v1 v2 freq 0 0 :: row) :: rows.
Proof.
  intros H. unfold sample_rows.
  destruct (py_range_cons (n := freq + 1)) as [tl1 E1]; [lia|].
  rewrite E1. cbn [map]. unfold sample_row at 1.
  replace (freq + 1 - 0)%Z with (freq + 1)%Z by lia.
  rewrite E1. cbn [map]. do 2 eexists. reflexivity.
Qed.

Lemma intern_rows_first (round8 : float -> float) (p : point)
    (row : list point) (rows : list (list point)) :
  exists (verts : list point) (idxs : list Z) (grid : list (list Z)),
    intern_rows round8 [] ((p :: row) :: rows) =
    (p :: verts, (0%Z :: idxs) :: grid).
Proof.
  cbn [intern_rows intern_all]. unfold intern at 1.
  change (index_dict round8 []) with (@nil (point * Z)).
  cbn [dict_get app len length Z.of_nat].
  destruct (intern_all_extends round8 row [p]) as [extra [X _]].
  destruct (intern_all round8 [p] row) as [verts1 idxs].
  cbn [fst] in X. subst verts1.
  destruct (intern_rows_concat round8 rows ([p] ++ extra)) as [C _].
  destruct (intern_all_extends round8 (concat rows) ([p] ++ extra))
    as [extra2 [X2 _]].
  rewrite X2 in C.
  destruct (intern_rows round8 ([p] ++ extra) rows) as [verts2 grid].
  cbn [fst] in C. subst verts2.
  do 3 eexists. reflexivity.
Qed.

Lemma walk_faces_first (g : Z -> Z -> Z) (freq : Z) :
  (1 <= freq)%Z ->
  exists faces : list face,
    walk_faces g freq = (g 0 0, g (0 + 1) 0, g 0 (0 + 1))%Z :: faces.
Proof.
  intros H. unfold walk_faces.
  destruct (py_range_cons H) as [tl E]. rewrite E. cbn [flat_map].
  replace (freq - 0)%Z with freq by lia. rewrite E. cbn [flat_map].
  unfold cell_faces at 1. cbn [app]. eexists. reflexivity.
Qed.

Section NonFiniteRadius.
Variable round8 : float -> float.
Variables math_cos math_sin : float -> float.
Variable r : float.
Variable f : Z.
Hypothesis round8_nan : round8 nan = nan.
Hypothesis r_nonfinite : r = nan \/ r = infinity \/ r = neg_infinity.
Hypothesis f_positive : (1 <= f)%Z.

Local Abbreviation self := (init r f).
Local Abbreviation corner := (corner math_cos math_sin self).
Local Abbreviation accumulated := (accumulated round8 math_cos math_sin self).

(** The pole [(0, 0, 1)] times a radius that is not finite. *)
Lemma pole_nan : exists z : float, corner 0 = (nan, nan, z).
Proof.
  unfold corner, ico_verts. cbn [raw_icosahedron map nth Z.to_nat].
  destruct r_nonfinite as [-> | [-> | ->]]; eexists; vm_compute; reflexivity.
Qed.

(** The first sample of the first base face, [(1, 2, 0)], has weight 1 on
    the pole. *)
Lemma first_sample_nan :
  grid_point self (corner 1) (corner 2) (corner 0) f 0 0 = nan_point.
Proof.
  unfold grid_point. rewrite weight_zero.
  destruct pole_nan as [z ->].
  destruct (corner 1) as [[x1 y1] z1], (corner 2) as [[x2 y2] z2].
  cbn [interpolate]. rewrite float_mul_nan_r, float_add_nan_r.
  apply project_nan. left. reflexivity.
Qed.

Lemma key_nan_point :
  key_eqb (key_of round8 nan_point) (key_of round8 nan_point) = false.
Proof. unfold nan_point, key_of. rewrite round8_nan. reflexivity. Qed.

Lemma first_local_mesh :
  exists (verts : list point) (b c : Z) (faces : list face),
    local_mesh round8 math_cos math_sin self (1, 2, 0)%Z =
    (nan_point :: verts, (0, b, c)%Z :: faces).
Proof.
  unfold local_mesh. cbn [frequency init].
  destruct (@sample_rows_first self (corner 1) (corner 2) (corner 0) f)
    as [row [rows E]]; [lia|].
  rewrite E, first_sample_nan.
  destruct (intern_rows_first round8 nan_point row rows)
    as [verts [idxs [grid ->]]].
  cbn [fst snd].
  destruct (walk_faces_first (grid_entry ((0%Z :: idxs) :: grid)) f_positive)
    as [faces ->].
  unfold grid_entry at 1. cbn [Z.to_nat nth].
  do 4 eexists. reflexivity.
Qed.

Lemma accumulated_first :
  exists (verts : list point) (b c : Z) (faces : list face),
    fst accumulated = nan_point :: verts /\
    snd accumulated = (0, b, c)%Z :: faces.
Proof.
  destruct first_local_mesh as [verts [b [c [faces E]]]].
  unfold accumulated.
  change ico_faces with ((1, 2, 0)%Z :: tl ico_faces).
  cbn [map fold_left]. rewrite E.
  destruct (fold_append_faces_prefix
              (map (local_mesh round8 math_cos math_sin self) (tl ico_faces))
              (append_mesh ([], []) (nan_point :: verts, (0, b, c)%Z :: faces)))
    as [rest R].
  rewrite fold_append_verts, R.
  cbn [append_mesh fst snd app map offset_face len length].
  do 4 eexists. split; reflexivity.
Qed.

(** X16. With a radius that is NaN or infinite, and a frequency [>= 1],
    [calculate] raises [KeyError]: the pole [(0, 0, 1)] is scaled to a
    point with a NaN coordinate, the first sample of the first face gets
    a NaN key, and [index_map] does not find it ([round(nan, 8)] is
    NaN). *)
Theorem calculate_nonfinite_radius :
  calculate round8 math_cos math_sin (init r f) = Raise KeyError.
Proof.
  pose proof (calculate_cases round8 math_cos math_sin self) as C.
  destruct (calculate round8 math_cos math_sin self) as [mesh|e] eqn:E.
  - exfalso. clear C. rewrite calculate_eq in E.
    destruct accumulated_first as [verts [b [c [faces [Ev Ef]]]]].
    rewrite merge_duplicates_eq, Ev, Ef in E. cbn [for_each] in E.
    unfold remap_face at 1 in E.
    change (py_index (nan_point :: verts) 0) with (Ok nan_point) in E.
    cbn [bind] in E.
    destruct (py_index (nan_point :: verts) b) as [w1|]; cbn [bind] in E;
      [|discriminate].
    destruct (py_index (nan_point :: verts) c) as [w2|]; cbn [bind] in E;
      [|discriminate].
    assert (D : forall d : dict (K := point) (V := Z),
              dict_lookup key_eqb d (key_of round8 nan_point)
              = Raise KeyError).
    { intros d. unfold dict_lookup.
      replace (dict_get key_eqb d (key_of round8 nan_point)) with (@None Z);
        [reflexivity|].
      symmetry. apply dict_get_none. intros k v _.
      destruct (key_eqb k (key_of round8 nan_point)) eqn:K; [|reflexivity].
      apply key_eqb_right_refl in K. rewrite key_nan_point in K.
      discriminate. }
    rewrite D in E. discriminate.
  - destruct C as [-> _]. reflexivity.
Qed.
End NonFiniteRadius.

(** ** The sign of the radius *)

Lemma float_zero_spec (x : float) :
  (x =? 0)%float = true <-> exists s : bool, Prim2SF x = S754_zero s.
Proof.
  rewrite eqb_spec. change (Prim2SF 0) with (S754_zero false). split.
  - destruct (Prim2SF x) as [s | s | | s m e]; try discriminate.
    + eauto.
    + destruct s; discriminate.
    + destruct s; discriminate.
  - intros [s ->]. reflexivity.
Qed.

Lemma same_value_spec (x y : float) :
  same_value x y <-> sf_same (Prim2SF x) (Prim2SF y).
Proof.
  unfold same_value, sf_same. rewrite !float_zero_spec. split.
  - intros [->|[[s Hs] [s' Hs']]]; [left; reflexivity|right; eauto].
  - intros [H|[s [s' [Hs Hs']]]]; [left; apply Prim2SF_inj, H|right; eauto].
Qed.

Lemma sf_same_refl (x : spec_float) : sf_same x x.
Proof. left. reflexivity. Qed.

Lemma sf_same_trans (x y z : spec_float) :
  sf_same x y -> sf_same y z -> sf_same x z.
Proof.
  intros [->|[s [s' [-> ->]]]] [<-|[t [t' [E ->]]]]; unfold sf_same; eauto.
Qed.

Lemma sf_same_zero (s s' : bool) : sf_same (S754_zero s) (S754_zero s').
Proof. right. eauto. Qed.

Create HintDb sf_same.
#[local] Hint Resolve sf_same_refl sf_same_zero : sf_same.

Lemma SFmul_same (x x' y y' : spec_float) :
  sf_same x x' -> sf_same y y' ->
  sf_same (SFmul prec emax x y) (SFmul prec emax x' y').
Proof.
  intros [->|[s [s' [-> ->]]]] [->|[t [t' [-> ->]]]];
    auto with sf_same.
  - destruct x' as [a | a | | a m e]; cbn [SFmul]; auto with sf_same.
  - destruct y' as [a | a | | a m e]; cbn [SFmul]; auto with sf_same.
  - cbn [SFmul]. auto with sf_same.
Qed.

Lemma SFadd_same (x x' y y' : spec_float) :
  sf_same x x' -> sf_same y y' ->
  sf_same (SFadd prec emax x y) (SFadd prec emax x' y').
Proof.
  intros [->|[s [s' [-> ->]]]] [->|[t [t' [-> ->]]]];
    auto with sf_same.
  - destruct x' as [a | a | | a m e]; cbn [SFadd]; auto with sf_same.
    destruct a, t, t'; auto with sf_same.
  - destruct y' as [a | a | | a m e]; cbn [SFadd]; auto with sf_same.
    destruct s, s', a; auto with sf_same.
  - cbn [SFadd]. destruct s, s', t, t'; auto with sf_same.
Qed.

Lemma SFdiv_same (x x' l : spec_float) :
  sf_same x x' ->
  sf_same (SFdiv prec emax x l) (SFdiv prec emax x' l).
Proof.
  intros [->|[s [s' [-> ->]]]]; auto with sf_same.
  destruct l as [a | a | | a m e]; cbn [SFdiv]; auto with sf_same.
Qed.

Lemma SFopp_same (x x' : spec_float) :
  sf_same x x' -> sf_same (SFopp x) (SFopp x').
Proof.
  intros [->|[s [s' [-> ->]]]]; cbn [SFopp]; auto with sf_same.
Qed.

Lemma SFmul_square_same (x x' : spec_float) :
  sf_same x x' -> SFmul prec emax x x = SFmul prec emax x' x'.
Proof.
  intros [->|[s [s' [-> ->]]]]; [reflexivity|].
  cbn [SFmul]. rewrite !xorb_nilpotent. reflexivity.
Qed.

Lemma SFeqb_same (x x' y y' : spec_float) :
  sf_same x x' -> sf_same y y' -> SFeqb x y = SFeqb x' y'.
Proof.
  intros [->|[s [s' [-> ->]]]] [->|[t [t' [-> ->]]]]; try reflexivity;
    match goal with
    | |- context [SFeqb ?v _] =>
        is_var v; destruct v as [a | a | | a m e]; try reflexivity;
        destruct a; reflexivity
    | |- context [SFeqb _ ?v] =>
        is_var v; destruct v as [a | a | | a m e]; try reflexivity;
        destruct a; reflexivity
    end.
Qed.

Lemma binary_round_opp (s : bool) (m : positive) (e : Z) :
  binary_round prec emax (negb s) m e =
  SFopp (binary_round prec emax s m e).
Proof.
  unfold binary_round.
  destruct (shl_align m e _) as [mz ez]. apply binary_round_aux_opp.
Qed.

(** [(-u) + (-v)] and [-(u + v)]: the same but for an exact zero sum. *)
Lemma SFadd_opp (u v : spec_float) :
  sf_same (SFadd prec emax (SFopp u) (SFopp v))
          (SFopp (SFadd prec emax u v)).
Proof.
  destruct u as [su | su | | su mu eu], v as [sv | sv | | sv mv ev];
    cbn [SFopp SFadd]; auto with sf_same;
    try (destruct su, sv; cbn; auto with sf_same; fail).
  set (ez := Z.min eu ev).
  set (a := Z.pos (fst (shl_align mu eu ez))).
  set (b := Z.pos (fst (shl_align mv ev ez))).
  assert (E : (cond_Zopp (negb su) a + cond_Zopp (negb sv) b =
               - (cond_Zopp su a + cond_Zopp sv b))%Z)
    by (destruct su, sv; cbn [cond_Zopp negb]; lia).
  rewrite E.
  destruct (cond_Zopp su a + cond_Zopp sv b)%Z as [|p|p];
    cbn [Z.opp binary_normalize SFopp]; auto with sf_same.
  - left. apply (binary_round_opp false).
  - left. rewrite <- (binary_round_opp true). reflexivity.
Qed.

(** *** On floats *)

Lemma same_value_refl (x : float) : same_value x x.
Proof. left. reflexivity. Qed.

Lemma same_value_trans (x y z : float) :
  same_value x y -> same_value y z -> same_value x z.
Proof. rewrite !same_value_spec. apply sf_same_trans. Qed.

Lemma float_mul_same (x x' y y' : float) :
  same_value x x' -> same_value y y' -> same_value (x * y) (x' * y').
Proof. rewrite !same_value_spec, !mul_spec. apply SFmul_same. Qed.

Lemma float_add_same (x x' y y' : float) :
  same_value x x' -> same_value y y' -> same_value (x + y) (x' + y').
Proof. rewrite !same_value_spec, !add_spec. apply SFadd_same. Qed.

Lemma float_div_same (x x' l : float) :
  same_value x x' -> same_value (x / l) (x' / l).
Proof. rewrite !same_value_spec, !div_spec. apply SFdiv_same. Qed.

Lemma float_opp_same (x x' : float) :
  same_value x x' -> same_value (- x) (- x').
Proof. rewrite !same_value_spec, !opp_spec. apply SFopp_same. Qed.

Lemma float_square_same (x x' : float) :
  same_value x x' -> (x * x = x' * x')%float.
Proof.
  rewrite same_value_spec. intros H. apply Prim2SF_inj.
  rewrite !mul_spec. apply SFmul_square_same, H.
Qed.

Lemma float_eqb_same (x x' y y' : float) :
  same_value x x' -> same_value y y' -> (x =? y)%float = (x' =? y')%float.
Proof. rewrite !same_value_spec, !eqb_spec. apply SFeqb_same. Qed.

Lemma float_add_opp (u v : float) :
  same_value (- u + - v) (- (u + v)).
Proof.
  rewrite same_value_spec, opp_spec, !add_spec, !opp_spec. apply SFadd_opp.
Qed.

Lemma Forall2_map_same {A B : Type} (R : B -> B -> Prop) (g' g : A -> B)
    (l : list A) :
  (forall x, R (g' x) (g x)) -> Forall2 R (map g' l) (map g l).
Proof.
  intros H. induction l as [|a l IH]; cbn [map]; constructor; auto.
Qed.

Lemma Forall2_nth {A : Type} (R : A -> A -> Prop) (l' l : list A) (d' d : A)
    (n : nat) :
  Forall2 R l' l -> R d' d -> R (nth n l' d') (nth n l d).
Proof.
  intros H Hd. revert n.
  induction H as [|a' a l' l Ha _ IH]; intros [|n]; cbn [nth]; auto.
Qed.

Lemma Forall2_nth_error {A : Type} (R : A -> A -> Prop) (l' l : list A)
    (n : nat) :
  Forall2 R l' l ->
  match nth_error l' n, nth_error l n with
  | Some a', Some a => R a' a
  | None, None => True
  | _, _ => False
  end.
Proof.
  intros H. revert n.
  induction H as [|a' a l' l Ha _ IH]; intros [|n]; cbn [nth_error]; auto.
  apply IH.
Qed.

Lemma Forall2_concat {A : Type} (R : A -> A -> Prop) (L' L : list (list A)) :
  Forall2 (Forall2 R) L' L -> Forall2 R (concat L') (concat L).
Proof.
  induction 1 as [|l' l L' L Hl _ IH]; cbn [concat]; [constructor|].
  apply Forall2_app; assumption.
Qed.

Lemma for_each_ext {S A : Type} (body' body : S -> A -> result S)
    (l : list A) :
  (forall s a, In a l -> body' s a = body s a) ->
  forall s : S, for_each body' s l = for_each body s l.
Proof.
  induction l as [|a l IH]; intros H s; cbn [for_each]; [reflexivity|].
  rewrite H by (left; reflexivity).
  destruct (body s a) as [s1|e]; cbn [bind]; [|reflexivity].
  apply IH. intros s0 a0 Hin. apply H. right. exact Hin.
Qed.

Lemma py_index_same {A : Type} (R : A -> A -> Prop) (l' l : list A) (i : Z) :
  Forall2 R l' l ->
  match py_index l' i, py_index l i with
  | Ok a', Ok a => R a' a
  | Raise e', Raise e => e' = e
  | _, _ => False
  end.
Proof.
  intros H. pose proof (Forall2_length H) as L.
  destruct (py_index_cases l i) as [[n [a [N [P Q]]]]|[P Q]].
  - rewrite P, (Q A l' L).
    pose proof (Forall2_nth_error n H) as E. rewrite N in E.
    destruct (nth_error l' n) as [a'|]; [exact E|contradiction].
  - rewrite P, (Q A l' L). reflexivity.
Qed.

Lemma same_point_refl (p : point) : same_point p p.
Proof.
  destruct p as [[x y] z]. repeat split; apply same_value_refl.
Qed.

Lemma same_point_trans (p q s : point) :
  same_point p q -> same_point q s -> same_point p s.
Proof.
  destruct p as [[x y] z], q as [[x1 y1] z1], s as [[x2 y2] z2].
  intros [Hx [Hy Hz]] [Hx' [Hy' Hz']].
  repeat split; eapply same_value_trans; eassumption.
Qed.

Lemma key_eqb_same (k1' k1 k2' k2 : point) :
  same_point k1' k1 -> same_point k2' k2 ->
  key_eqb k1' k2' = key_eqb k1 k2.
Proof.
  destruct k1' as [[a1' b1'] c1'], k1 as [[a1 b1] c1],
           k2' as [[a2' b2'] c2'], k2 as [[a2 b2] c2].
  intros [Ha1 [Hb1 Hc1]] [Ha2 [Hb2 Hc2]]. cbn [key_eqb].
  rewrite (@float_eqb_same _ _ _ _ Ha1 Ha2),
          (@float_eqb_same _ _ _ _ Hb1 Hb2),
          (@float_eqb_same _ _ _ _ Hc1 Hc2).
  reflexivity.
Qed.

Lemma dict_get_same (d' d : dict (K := point) (V := Z)) (k' k : point) :
  same_dict d' d -> same_point k' k ->
  dict_get key_eqb d' k' = dict_get key_eqb d k.
Proof.
  intros H Hk.
  induction H as [|[a' v'] [a v] d' d [Ha Hv] _ IH]; cbn [dict_get];
    [reflexivity|].
  cbn [fst snd] in Ha, Hv. subst v'.
  rewrite (@key_eqb_same _ _ _ _ Ha Hk), IH. reflexivity.
Qed.

Section SameKeys.
Variable round8 : float -> float.
Hypothesis round8_zero :
  forall x : float, (x =? 0)%float = true -> (round8 x =? 0)%float = true.

Local Abbreviation key_of := (key_of round8).
Local Abbreviation index_dict := (index_dict round8).
Local Abbreviation intern := (intern round8).
Local Abbreviation intern_all := (intern_all round8).
Local Abbreviation intern_rows := (intern_rows round8).

Lemma round8_same (x y : float) :
  same_value x y -> same_value (round8 x) (round8 y).
Proof.
  intros [->|[Hx Hy]]; [left; reflexivity|]. right. auto.
Qed.

Lemma key_of_same (p q : point) :
  same_point p q -> same_point (key_of p) (key_of q).
Proof.
  destruct p as [[x y] z], q as [[x' y'] z']. intros [Hx [Hy Hz]].
  repeat split; apply round8_same; assumption.
Qed.

Lemma index_dict_same (verts' verts : list point) :
  Forall2 same_point verts' verts ->
  same_dict (index_dict verts') (index_dict verts).
Proof.
  intros H. unfold index_dict, len.
  rewrite (Forall2_length H).
  generalize (py_range (Z.of_nat (length verts))) as rng.
  induction H as [|p' p l' l Hp _ IH]; intros [|n rng];
    cbn [map combine]; constructor.
  - split; [apply key_of_same, Hp|reflexivity].
  - apply IH.
Qed.

Lemma intern_same (verts' verts : list point) (pt' pt : point) :
  Forall2 same_point verts' verts -> same_point pt' pt ->
  Forall2 same_point (fst (intern verts' pt')) (fst (intern verts pt)) /\
  snd (intern verts' pt') = snd (intern verts pt).
Proof.
  intros H Hp. unfold intern.
  rewrite (@dict_get_same _ _ _ _ (index_dict_same H) (@key_of_same _ _ Hp)).
  destruct (dict_get key_eqb (index_dict verts) (key_of pt)) as [idx|];
    cbn [fst snd]; [auto|].
  split.
  - apply Forall2_app; [exact H|]. constructor; [exact Hp|constructor].
  - unfold len. rewrite (Forall2_length H). reflexivity.
Qed.

Lemma intern_all_same (pts' pts : list point) :
  Forall2 same_point pts' pts ->
  forall verts' verts : list point,
    Forall2 same_point verts' verts ->
    Forall2 same_point (fst (intern_all verts' pts'))
                       (fst (intern_all verts pts)) /\
    snd (intern_all verts' pts') = snd (intern_all verts pts).
Proof.
  induction 1 as [|pt' pt pts' pts Hp _ IH]; intros verts' verts H;
    cbn [intern_all]; [auto|].
  destruct (@intern_same _ _ _ _ H Hp) as [H1 E1].
  destruct (intern verts' pt') as [v1' i1'], (intern verts pt) as [v1 i1].
  cbn [fst snd] in H1, E1. subst i1'.
  destruct (IH v1' v1 H1) as [H2 E2].
  destruct (intern_all v1' pts') as [v2' is'],
           (intern_all v1 pts) as [v2 is0].
  cbn [fst snd] in *. subst is'. auto.
Qed.

Lemma intern_rows_same (rows' rows : list (list point)) :
  Forall2 (Forall2 same_point) rows' rows ->
  forall verts' verts : list point,
    Forall2 same_point verts' verts ->
    Forall2 same_point (fst (intern_rows verts' rows'))
                       (fst (intern_rows verts rows)) /\
    snd (intern_rows verts' rows') = snd (intern_rows verts rows).
Proof.
  induction 1 as [|row' row rows' rows Hr _ IH]; intros verts' verts H;
    cbn [intern_rows]; [auto|].
  destruct (intern_all_same Hr H) as [H1 E1].
  destruct (intern_all verts' row') as [v1' i1'],
           (intern_all verts row) as [v1 i1].
  cbn [fst snd] in H1, E1. subst i1'.
  destruct (IH v1' v1 H1) as [H2 E2].
  destruct (intern_rows v1' rows') as [v2' g'],
           (intern_rows v1 rows) as [v2 g].
  cbn [fst snd] in *. subst g'. auto.
Qed.

(** The merge of two inputs with the same faces and the same vertices up
    to the sign of zeros. *)
Lemma merge_duplicates_same (verts' verts : list point) (faces : list face) :
  Forall2 same_point verts' verts ->
  match _merge_duplicates round8 verts' faces,
        _merge_duplicates round8 verts faces with
  | Ok out', Ok out => same_mesh out' out
  | Raise e', Raise e => e' = e
  | _, _ => False
  end.
Proof.
  intros H. rewrite !merge_duplicates_eq.
  destruct (@intern_all_same verts' verts H [] [] (Forall2_nil _))
    as [Hm _].
  set (mv' := fst (intern_all [] verts')) in *.
  set (mv := fst (intern_all [] verts)) in *.
  assert (E : for_each (remap_face round8 verts' (index_dict mv')) [] faces =
              for_each (remap_face round8 verts (index_dict mv)) [] faces).
  { apply for_each_ext. intros nf [[f0 f1] f2] _. unfold remap_face.
    assert (P : forall (i : Z) (k : point -> result (list face))
                       (k' : point -> result (list face)),
              (forall v' v, same_point v' v -> k' v' = k v) ->
              bind (py_index verts' i) k' = bind (py_index verts i) k).
    { intros i k k' Hk. pose proof (py_index_same i H) as S.
      destruct (py_index verts' i) as [a'|e'],
               (py_index verts i) as [a|e]; try contradiction;
        cbn [bind]; [apply Hk, S|congruence]. }
    apply P. intros v0' v0 S0. apply P. intros v1' v1 S1.
    apply P. intros v2' v2 S2. unfold dict_lookup.
    rewrite (@dict_get_same _ _ _ _ (index_dict_same Hm) (@key_of_same _ _ S0)),
            (@dict_get_same _ _ _ _ (index_dict_same Hm) (@key_of_same _ _ S1)),
            (@dict_get_same _ _ _ _ (index_dict_same Hm) (@key_of_same _ _ S2)).
    reflexivity. }
  rewrite E. clear E.
  destruct (for_each _ [] faces) as [nf|e]; cbn [bind]; [|reflexivity].
  split; [exact Hm|reflexivity].
Qed.
End SameKeys.

Lemma same_value_zero_opp : same_value 0 (- 0).
Proof. right. split; reflexivity. Qed.

(** A weighted sum of three coordinates of opposite points. *)
Lemma weighted_sum_opp (a b c x0 x1 x2 x0' x1' x2' : float) :
  same_value x0' (- x0) -> same_value x1' (- x1) -> same_value x2' (- x2) ->
  same_value (a * x0' + b * x1' + c * x2')
             (- (a * x0 + b * x1 + c * x2)).
Proof.
  intros H0 H1 H2.
  assert (M : forall w y' y : float,
            same_value y' (- y) -> same_value (w * y') (- (w * y))).
  { intros w y' y H. rewrite <- float_mul_opp_r.
    apply float_mul_same; [apply same_value_refl|exact H]. }
  assert (A : forall u' u v' v : float,
            same_value u' (- u) -> same_value v' (- v) ->
            same_value (u' + v') (- (u + v))).
  { intros u' u v' v Hu Hv.
    eapply same_value_trans; [apply float_add_same; eassumption|].
    apply float_add_opp. }
  apply A; [apply A|]; apply M; assumption.
Qed.

Lemma interpolate_opp (v0' v0 v1' v1 v2' v2 : point) (a b : float) :
  opposite_point v0' v0 -> opposite_point v1' v1 -> opposite_point v2' v2 ->
  opposite_point (interpolate v0' v1' v2' a b) (interpolate v0 v1 v2 a b).
Proof.
  destruct v0' as [[x0' y0'] z0'], v0 as [[x0 y0] z0],
           v1' as [[x1' y1'] z1'], v1 as [[x1 y1] z1],
           v2' as [[x2' y2'] z2'], v2 as [[x2 y2] z2].
  intros [Hx0 [Hy0 Hz0]] [Hx1 [Hy1 Hz1]] [Hx2 [Hy2 Hz2]].
  unfold opposite_point, interpolate, neg_point, same_point.
  repeat split; apply weighted_sum_opp; assumption.
Qed.

Section RadiusSign.
Variable round8 : float -> float.
Variables math_cos math_sin : float -> float.
Variable r : float.
Variable f : Z.
Hypothesis round8_zero :
  forall x : float, (x =? 0)%float = true -> (round8 x =? 0)%float = true.

Local Abbreviation self := (init r f).
Local Abbreviation self' := (init (- r) f).

(** With the radius negated, a point is projected to the opposite
    point. *)
Lemma project_neg_radius (v : point) :
  opposite_point (project self' v) (project self v).
Proof.
  unfold opposite_point, project. cbn [radius init].
  destruct (length_of v =? 0)%float.
  - repeat split; apply same_value_zero_opp.
  - destruct v as [[x y] z]. cbn [neg_point same_point].
    rewrite !float_mul_opp_l, !float_div_opp_l.
    repeat split; apply same_value_refl.
Qed.

(** With the radius negated, the opposite point is projected to the same
    point. *)
Lemma project_opp (p' p : point) :
  opposite_point p' p -> same_point (project self' p') (project self p).
Proof.
  destruct p' as [[x' y'] z'], p as [[x y] z].
  intros [Hx [Hy Hz]].
  assert (L : length_of (x', y', z') = length_of (x, y, z)).
  { unfold length_of, sum_of_squares.
    rewrite (@float_square_same _ _ Hx), (@float_square_same _ _ Hy),
            (@float_square_same _ _ Hz), !float_square_opp.
    reflexivity. }
  unfold project. rewrite L. cbn [radius init].
  destruct (length_of (x, y, z) =? 0)%float; [apply same_point_refl|].
  assert (S : forall c' c : float,
            same_value c' (- c) ->
            same_value (- r * c' / length_of (x, y, z))
                       (r * c / length_of (x, y, z))).
  { intros c' c H. apply float_div_same.
    rewrite float_mul_opp_l, <- (float_opp_involutive (r * c)).
    apply float_opp_same. rewrite <- float_mul_opp_r.
    apply float_mul_same; [apply same_value_refl|exact H]. }
  cbn [same_point]. auto.
Qed.

Lemma corner_opp (i : Z) :
  opposite_point (corner math_cos math_sin self' i)
                 (corner math_cos math_sin self i).
Proof.
  unfold corner, ico_verts, opposite_point.
  rewrite <- (map_nth neg_point). 
  apply Forall2_nth.
  - rewrite map_map. apply Forall2_map_same. intros v.
    apply project_neg_radius.
  - repeat split; apply same_value_zero_opp.
Qed.

Lemma grid_point_same (f0 f1 f2 i j : Z) :
  same_point
    (grid_point self' (corner math_cos math_sin self' f0)
       (corner math_cos math_sin self' f1)
       (corner math_cos math_sin self' f2) f i j)
    (grid_point self (corner math_cos math_sin self f0)
       (corner math_cos math_sin self f1)
       (corner math_cos math_sin self f2) f i j).
Proof.
  unfold grid_point. apply project_opp, interpolate_opp; apply corner_opp.
Qed.

Lemma local_mesh_same (fc : face) :
  same_mesh (local_mesh round8 math_cos math_sin self' fc)
            (local_mesh round8 math_cos math_sin self fc).
Proof.
  destruct fc as [[f0 f1] f2]. unfold local_mesh. cbn [frequency init].
  assert (R : Forall2 (Forall2 same_point)
                (sample_rows self' (corner math_cos math_sin self' f0)
                   (corner math_cos math_sin self' f1)
                   (corner math_cos math_sin self' f2) f)
                (sample_rows self (corner math_cos math_sin self f0)
                   (corner math_cos math_sin self f1)
                   (corner math_cos math_sin self f2) f)).
  { unfold sample_rows. apply Forall2_map_same. intros i.
    unfold sample_row. apply Forall2_map_same. intros j.
    apply grid_point_same. }
  destruct (@intern_rows_same round8 round8_zero _ _ R [] [] (Forall2_nil _))
    as [Hv Hg].
  split; cbn [fst snd]; [exact Hv|]. rewrite Hg. reflexivity.
Qed.

Lemma append_mesh_same (acc' acc mesh' mesh : list point * list face) :
  same_mesh acc' acc -> same_mesh mesh' mesh ->
  same_mesh (append_mesh acc' mesh') (append_mesh acc mesh).
Proof.
  destruct acc' as [av' af'], acc as [av af], mesh' as [fv' ff'],
           mesh as [fv ff].
  intros [Ha Ea] [Hm Em]. cbn [fst snd] in *. subst af' ff'.
  split; cbn [append_mesh fst snd].
  - apply Forall2_app; assumption.
  - unfold len. rewrite (Forall2_length Ha). reflexivity.
Qed.

Lemma fold_append_same (meshes' meshes : list (list point * list face)) :
  Forall2 same_mesh meshes' meshes ->
  forall acc' acc : list point * list face,
    same_mesh acc' acc ->
    same_mesh (fold_left append_mesh meshes' acc')
              (fold_left append_mesh meshes acc).
Proof.
  induction 1 as [|m' m ms' ms Hm _ IH]; intros acc' acc Ha;
    cbn [fold_left]; [exact Ha|].
  apply IH, append_mesh_same; assumption.
Qed.

Lemma accumulated_same :
  same_mesh (accumulated round8 math_cos math_sin self')
            (accumulated round8 math_cos math_sin self).
Proof.
  unfold accumulated. apply fold_append_same.
  - apply Forall2_map_same. intros fc. apply local_mesh_same.
  - split; [constructor|reflexivity].
Qed.

(** X20. The sign of the radius does not matter.  With the radius
    negated, the corners of the icosahedron are the opposite points, the
    interpolated points are opposite too, and their projections with the
    negated radius are the same points again: [calculate] returns the
    same faces and the same vertices up to the sign of zero coordinates,
    or raises the same exception ([round(x, 8)] of a zero being a
    zero). *)
Theorem calculate_radius_sign :
  match calculate round8 math_cos math_sin (init (- r) f),
        calculate round8 math_cos math_sin (init r f) with
  | Ok mesh', Ok mesh =>
      faces mesh' = faces mesh /\
      Forall2 same_point (points mesh') (points mesh)
  | Raise e', Raise e => e' = e
  | _, _ => False
  end.
Proof.
  rewrite !calculate_eq.
  destruct accumulated_same as [Hv Hf]. rewrite Hf.
  pose proof (@merge_duplicates_same round8 round8_zero _ _
                (snd (accumulated round8 math_cos math_sin self)) Hv) as M.
  destruct (_merge_duplicates round8
              (fst (accumulated round8 math_cos math_sin self')) _)
    as [[pts' fcs']|e'],
    (_merge_duplicates round8
       (fst (accumulated round8 math_cos math_sin self)) _)
    as [[pts fcs]|e]; cbn [bind]; try contradiction; [|exact M].
  destruct M as [Mv Mf]. cbn [fst snd points faces] in *. auto.
Qed.
End RadiusSign.

(** * Properties of the add-in *)

Lemma count_calls_app (p : host_call -> bool) (h1 h2 : journal) :
  count_calls p (h1 ++ h2) = (count_calls p h1 + count_calls p h2)%Z.
Proof. unfold count_calls. rewrite filter_app, len_app. reflexivity. Qed.

Lemma open_sketches_app (h1 h2 : journal) :
  open_sketches (h1 ++ h2) = (open_sketches h1 + open_sketches h2)%Z.
Proof. unfold open_sketches. rewrite !count_calls_app. lia. Qed.

Lemma tidy_nil : tidy [].
Proof.
  split; [reflexivity|]. intros h1 h2 E.
  symmetry in E. apply app_eq_nil in E. destruct E as [-> _].
  unfold open_sketches, count_calls. simpl. lia.
Qed.

Lemma tidy_app (l1 l2 : journal) : tidy l1 -> tidy l2 -> tidy (l1 ++ l2).
Proof.
  intros [C1 P1] [C2 P2]. split.
  - rewrite open_sketches_app. lia.
  - intros h1 h2 E. apply app_eq_app in E.
    destruct E as [l [[-> ->]|[-> ->]]].
    + apply (P1 h1 l). reflexivity.
    + rewrite open_sketches_app, C1. apply (P2 l h2). reflexivity.
Qed.

Lemma tidy_cons (c : host_call) (l : journal) :
  is_sketches_add c = false -> is_deleteMe c = false ->
  tidy l -> tidy (c :: l).
Proof.
  intros Hs Hd T. change (c :: l) with ([c] ++ l).
  apply tidy_app; [|exact T]. split.
  - unfold open_sketches, count_calls. simpl. rewrite Hs, Hd. reflexivity.
  - intros [|c' h1] h2 E.
    + unfold open_sketches, count_calls. simpl. lia.
    + injection E as <- E. symmetry in E. apply app_eq_nil in E.
      destruct E as [-> _].
      unfold open_sketches, count_calls. simpl. rewrite Hs, Hd. simpl. lia.
Qed.

Lemma open_sketches_neutral (l : journal) :
  neutral l = true -> open_sketches l = 0%Z.
Proof.
  induction l as [|c l IH]; [reflexivity|].
  unfold neutral. cbn [forallb]. rewrite !andb_true_iff, !negb_true_iff.
  intros [[Hs Hd] Hl]. change (c :: l) with ([c] ++ l).
  rewrite open_sketches_app, (IH Hl).
  unfold open_sketches, count_calls. cbn [filter]. rewrite Hs, Hd.
  reflexivity.
Qed.

(** One sketch, from its creation to its deletion. *)
Lemma tidy_block (mid : journal) :
  neutral mid = true -> tidy (sketches_add :: mid ++ [deleteMe]).
Proof.
  intros N. split.
  - change (sketches_add :: mid ++ [deleteMe])
      with ([sketches_add] ++ mid ++ [deleteMe]).
    rewrite !open_sketches_app, (open_sketches_neutral _ N). reflexivity.
  - intros [|c h1] h2 E; [unfold open_sketches, count_calls; simpl; lia|].
    injection E as <- E. change (sketches_add :: h1) with ([sketches_add] ++ h1).
    rewrite open_sketches_app.
    change (open_sketches [sketches_add]) with 1%Z.
    apply app_eq_app in E. destruct E as [l [[-> ->]|[-> E]]].
    + unfold neutral in N. rewrite forallb_app, andb_true_iff in N.
      rewrite (open_sketches_neutral h1 (proj1 N)). lia.
    + rewrite open_sketches_app, (open_sketches_neutral _ N).
      destruct l as [|c l]; [unfold open_sketches, count_calls; simpl; lia|].
      injection E as <- E. symmetry in E. apply app_eq_nil in E.
      destruct E as [-> _]. unfold open_sketches, count_calls. simpl. lia.
Qed.

Lemma tidy_concat (L : list journal) : Forall tidy L -> tidy (concat L).
Proof.
  induction 1 as [|l L Hl _ IH]; [apply tidy_nil|].
  cbn [concat]. apply tidy_app; assumption.
Qed.

Section AddInFacts.
Variable round8 : float -> float.
Variables math_cos math_sin : float -> float.
Variable profiles_count : triangle -> Z.
Variable patch_bodies_count : triangle -> option Z.

Local Abbreviation calculate := (calculate round8 math_cos math_sin).
Local Abbreviation createGeodesicSphere :=
  (createGeodesicSphere round8 math_cos math_sin profiles_count
     patch_bodies_count).
Local Abbreviation notify :=
  (notify round8 math_cos math_sin profiles_count patch_bodies_count).
Local Abbreviation patch_face :=
  (patch_face profiles_count patch_bodies_count).
Local Abbreviation patch_calls := (patch_calls profiles_count).
Local Abbreviation has_body := (has_body profiles_count patch_bodies_count).

Lemma sketch_triangle_eq (points : list point) (f : face) (h : journal) :
  face_ok (len points) f ->
  sketch_triangle points f h =
  (h ++ sketch_calls (triangle_of points f), Ok (triangle_of points f)).
Proof.
  destruct f as [[a b] c]. intros [_ [Ha [Hb Hc]]].
  unfold sketch_triangle, and_then, lift, call, ret.
  rewrite (py_index_nth points zero_point Ha),
          (py_index_nth points zero_point Hb),
          (py_index_nth points zero_point Hc).
  cbn [triangle_of sketch_calls]. rewrite <- !app_assoc. reflexivity.
Qed.

Lemma sketch_faces_eq (points : list point) (faces : list face) :
  Forall (face_ok (len points)) faces ->
  forall h : journal,
    for_in (sketch_face points) tt faces h =
    (h ++ flat_map (fun f => sketch_calls (triangle_of points f)) faces,
     Ok tt).
Proof.
  induction 1 as [|f faces Hf _ IH]; intros h; cbn [for_in flat_map].
  - rewrite app_nil_r. reflexivity.
  - unfold and_then at 1. unfold sketch_face at 1. unfold and_then at 1.
    rewrite sketch_triangle_eq by exact Hf. unfold ret at 1.
    rewrite IH, <- app_assoc. reflexivity.
Qed.

Lemma patch_face_eq (points : list point) (bodies : list triangle)
    (f : face) (h : journal) :
  face_ok (len points) f ->
  patch_face points bodies f h =
  (h ++ patch_calls (triangle_of points f),
   Ok (bodies ++ filter has_body [triangle_of points f])).
Proof.
  intros Hf. unfold patch_face, patch_calls.
  unfold and_then at 1. rewrite sketch_triangle_eq by exact Hf.
  set (t := triangle_of points f). cbn [filter].
  unfold has_body.
  destruct (profiles_count t >? 0)%Z; cbn [andb].
  - unfold and_then, call, ret.
    destruct (patch_bodies_count t) as [n|];
      [destruct (n >? 0)%Z|]; rewrite <- ?app_assoc, ?app_nil_r;
      reflexivity.
  - unfold and_then, call, ret. rewrite <- ?app_assoc, ?app_nil_r.
    reflexivity.
Qed.

Lemma patch_faces_eq (points : list point) (faces : list face) :
  Forall (face_ok (len points)) faces ->
  forall (bodies : list triangle) (h : journal),
    for_in (patch_face points) bodies faces h =
    (h ++ flat_map patch_calls (map (triangle_of points) faces),
     Ok (bodies ++ filter has_body (map (triangle_of points) faces))).
Proof.
  induction 1 as [|f faces Hf _ IH]; intros bodies h;
    cbn [for_in flat_map map].
  - rewrite !app_nil_r. reflexivity.
  - unfold and_then at 1. rewrite patch_face_eq by exact Hf.
    rewrite IH, <- !app_assoc. cbn [filter].
    destruct (has_body (triangle_of points f)); reflexivity.
Qed.

(** An exception of [calculate] leaves [createGeodesicSphere] before any
    call to the host. *)
Lemma createGeodesicSphere_raises (radius : float) (frequency : Z)
    (createSolid : bool) (h : journal) (e : exn) :
  calculate (init radius frequency) = Raise e ->
  createGeodesicSphere radius frequency createSolid h = (h, Raise e).
Proof.
  intros E. unfold createGeodesicSphere. unfold and_then at 1.
  unfold lift at 1. rewrite E. reflexivity.
Qed.

Lemma createGeodesicSphere_sketches (radius : float) (frequency : Z)
    (h : journal) (mesh : GeodesicCalculator) :
  calculate (init radius frequency) = Ok mesh ->
  createGeodesicSphere radius frequency false h =
  (h ++ addNewComponent ::
     flat_map (fun f => sketch_calls (triangle_of (points mesh) f))
              (faces mesh),
   Ok tt).
Proof.
  intros E.
  pose proof (calculate_cases round8 math_cos math_sin
                (init radius frequency)) as C.
  rewrite E in C.
  unfold createGeodesicSphere. unfold and_then at 1. unfold lift at 1.
  rewrite E. unfold and_then at 1. unfold call at 1.
  rewrite sketch_faces_eq by exact C.
  rewrite <- app_assoc. reflexivity.
Qed.

Lemma stitch_eq (surface_bodies : list triangle) (h : journal) :
  stitch surface_bodies h = (h ++ stitch_calls surface_bodies, Ok tt).
Proof.
  unfold stitch, stitch_calls.
  destruct (len surface_bodies >? 1)%Z; [reflexivity|].
  unfold ret. rewrite app_nil_r. reflexivity.
Qed.

Lemma createGeodesicSphere_patches (radius : float) (frequency : Z)
    (h : journal) (mesh : GeodesicCalculator) :
  calculate (init radius frequency) = Ok mesh ->
  createGeodesicSphere radius frequency true h =
  (h ++ addNewComponent ::
     flat_map patch_calls (map (triangle_of (points mesh)) (faces mesh)) ++
     stitch_calls
       (filter has_body (map (triangle_of (points mesh)) (faces mesh))),
   Ok tt).
Proof.
  intros E.
  pose proof (calculate_cases round8 math_cos math_sin
                (init radius frequency)) as C.
  rewrite E in C.
  unfold createGeodesicSphere. unfold and_then at 1. unfold lift at 1.
  rewrite E. unfold and_then at 1. unfold call at 1.
  unfold try_except. unfold and_then at 1.
  rewrite patch_faces_eq by exact C. cbn [app].
  rewrite stitch_eq, <- !app_assoc. reflexivity.
Qed.

Section Counting.
Variable ts : list triangle.

Local Abbreviation made :=
  (addNewComponent :: flat_map patch_calls ts ++
   stitch_calls (filter has_body ts)).

Lemma count_made (p : host_call -> bool) :
  count_calls p made =
  (count_calls p [addNewComponent] + count_calls p (flat_map patch_calls ts) +
   count_calls p (stitch_calls (filter has_body ts)))%Z.
Proof. rewrite <- !count_calls_app. reflexivity. Qed.

Lemma count_patch_calls (p : host_call -> bool) (k : Z) :
  p patches_add = false ->
  (forall t, count_calls p (sketch_calls t ++ [deleteMe]) = k) ->
  count_calls p (flat_map patch_calls ts) = (k * len ts)%Z.
Proof.
  intros Hp Hk. induction ts as [|t l IH];
    [unfold count_calls, len; simpl; lia|].
  cbn [flat_map]. rewrite count_calls_app, IH.
  unfold patch_calls at 1. rewrite <- (Hk t), !count_calls_app.
  assert (O : forall b : bool,
            count_calls p (if b then [patches_add] else []) = 0%Z).
  { intros [|]; unfold count_calls; simpl; rewrite ?Hp; reflexivity. }
  destruct (profiles_count t >? 0)%Z;
    [rewrite (O true)|rewrite (O false)]; unfold len; simpl length; lia.
Qed.

Lemma count_stitch_calls (p : host_call -> bool) :
  (forall bs, p (stitchFeatures_add bs) = false) ->
  count_calls p (stitch_calls (filter has_body ts)) = 0%Z.
Proof.
  intros Hp. unfold stitch_calls.
  destruct (len (filter has_body ts) >? 1)%Z; [|reflexivity].
  unfold count_calls. simpl. rewrite Hp. reflexivity.
Qed.

Lemma made_tidy : tidy made.
Proof.
  apply tidy_cons; try reflexivity. apply tidy_app.
  - rewrite flat_map_concat_map. apply tidy_concat.
    apply Forall_forall. intros l Hl. apply in_map_iff in Hl.
    destruct Hl as [[[v0 v1] v2] [<- _]].
    unfold patch_calls. cbn [sketch_calls].
    destruct (profiles_count (v0, v1, v2) >? 0)%Z.
    + apply (tidy_block [addByTwoPoints v0 v1; addByTwoPoints v1 v2;
                         addByTwoPoints v2 v0; patches_add]).
      reflexivity.
    + apply (tidy_block [addByTwoPoints v0 v1; addByTwoPoints v1 v2;
                         addByTwoPoints v2 v0]).
      reflexivity.
  - unfold stitch_calls.
    destruct (len (filter has_body ts) >? 1)%Z; [|apply tidy_nil].
    apply tidy_cons; try reflexivity. apply tidy_nil.
Qed.
End Counting.

(** X17. Drawing the wire frame.  When the mesh cannot be computed, the
    exception leaves [createGeodesicSphere] before any call to the host,
    whatever [createSolid] is.  Otherwise, without [createSolid], the
    add-in makes one component and then, per face and in the order of the
    faces, one sketch with the three sides of the face between its
    vertices; no [points[face[k]]] is out of range. *)
Theorem createGeodesicSphere_wireframe (radius : float) (frequency : Z)
    (h : journal) :
  match calculate (init radius frequency) with
  | Ok mesh =>
      createGeodesicSphere radius frequency false h =
      (h ++ addNewComponent ::
         flat_map (fun f => sketch_calls (triangle_of (points mesh) f))
                  (faces mesh),
       Ok tt)
  | Raise e =>
      forall createSolid : bool,
        createGeodesicSphere radius frequency createSolid h = (h, Raise e)
  end.
Proof.
  destruct (calculate (init radius frequency)) as [mesh|e] eqn:E.
  - apply createGeodesicSphere_sketches. exact E.
  - intros createSolid. apply createGeodesicSphere_raises. exact E.
Qed.

(** X18. Building the solid.  Provided the host completes each call, the
    add-in makes one component, then per face one temporary sketch with
    the three sides, a patch when the host finds a profile, and the
    deletion of the sketch; then one stitch of the surface bodies when
    there are at least two.  So as many sketches are deleted as were
    added, one per face, at most one sketch is open at any time, at most
    one stitch is made, and no dialog is shown. *)
Theorem createGeodesicSphere_solid (radius : float) (frequency : Z)
    (h : journal) (mesh : GeodesicCalculator) :
  calculate (init radius frequency) = Ok mesh ->
  exists made : journal,
    createGeodesicSphere radius frequency true h = (h ++ made, Ok tt) /\
    count_calls is_sketches_add made = len (faces mesh) /\
    count_calls is_deleteMe made = len (faces mesh) /\
    count_calls is_line made = (3 * len (faces mesh))%Z /\
    (count_calls is_stitch made <= 1)%Z /\
    count_calls is_messageBox made = 0%Z /\
    forall h1 h2 : journal, made = h1 ++ h2 ->
      (0 <= open_sketches h1 <= 1)%Z.
Proof.
  intros E. eexists. split; [apply createGeodesicSphere_patches, E|].
  set (ts := map (triangle_of (points mesh)) (faces mesh)).
  assert (L : len ts = len (faces mesh))
    by (unfold ts, len; rewrite length_map; reflexivity).
  rewrite <- L. clearbody ts.
  refine (conj _ (conj _ (conj _ (conj _ (conj _ _))))).
  - rewrite count_made, count_stitch_calls by reflexivity.
    rewrite (@count_patch_calls ts is_sketches_add 1%Z);
      [change (count_calls is_sketches_add [addNewComponent]) with 0%Z; lia
      |reflexivity|intros [[v0 v1] v2]; reflexivity].
  - rewrite count_made, count_stitch_calls by reflexivity.
    rewrite (@count_patch_calls ts is_deleteMe 1%Z);
      [change (count_calls is_deleteMe [addNewComponent]) with 0%Z; lia
      |reflexivity|intros [[v0 v1] v2]; reflexivity].
  - rewrite count_made, count_stitch_calls by reflexivity.
    rewrite (@count_patch_calls ts is_line 3%Z);
      [change (count_calls is_line [addNewComponent]) with 0%Z; lia
      |reflexivity|intros [[v0 v1] v2]; reflexivity].
  - rewrite count_made.
    rewrite (@count_patch_calls ts is_stitch 0%Z);
      [|reflexivity|intros [[v0 v1] v2]; reflexivity].
    change (count_calls is_stitch [addNewComponent]) with 0%Z.
    unfold stitch_calls.
    destruct (len (filter has_body ts) >? 1)%Z;
      [change (count_calls is_stitch
                 [stitchFeatures_add (filter has_body ts)]) with 1%Z
      |change (count_calls is_stitch []) with 0%Z]; lia.
  - rewrite count_made, count_stitch_calls by reflexivity.
    rewrite (@count_patch_calls ts is_messageBox 0%Z);
      [change (count_calls is_messageBox [addNewComponent]) with 0%Z; lia
      |reflexivity|intros [[v0 v1] v2]; reflexivity].
  - intros h1 h2 E'. exact (proj2 (made_tidy ts) h1 h2 E').
Qed.

(** X19. The execute handler never lets an exception out.  When the mesh
    cannot be computed it shows one dialog and makes nothing else;
    otherwise it returns what [createGeodesicSphere] made. *)
Theorem notify_never_raises (radius : float) (frequency : Z)
    (createSolid : bool) (h : journal) :
  exists h' : journal,
    notify radius frequency createSolid h = (h', Ok tt) /\
    match calculate (init radius frequency) with
    | Ok mesh =>
        createGeodesicSphere radius frequency createSolid h = (h', Ok tt)
    | Raise _ => h' = h ++ [messageBox]
    end.
Proof.
  unfold notify, try_except.
  destruct (calculate (init radius frequency)) as [mesh|e] eqn:E.
  - destruct createSolid.
    + rewrite (@createGeodesicSphere_patches radius frequency h mesh E).
      eexists. split; reflexivity.
    + rewrite (@createGeodesicSphere_sketches radius frequency h mesh E).
      eexists. split; reflexivity.
  - rewrite (@createGeodesicSphere_raises radius frequency createSolid h e E).
    eexists. split; reflexivity.
Qed.
End AddInFacts.

(** * The further properties at concrete inputs *)

Lemma subdivide_triangle_below_one_witness :
  _subdivide_triangle py_round8 (init 1 0)
    (1, 0, 0)%float (0, 1, 0)%float (0, 0, 1)%float 0 =
  Ok ([(0, 0, 1)%float], []).
Proof.
  rewrite (@subdivide_triangle_below_one py_round8 (init 1 0)
             (1, 0, 0)%float (0, 1, 0)%float (0, 0, 1)%float 0); [|lia].
  vm_compute. reflexivity.
Defined.

Lemma merge_duplicates_keys_distinct_witness :
  key_eqb (key_of py_round8 (0, 0, 1)%float)
          (key_of py_round8 (1, 0, 0)%float) = false.
Proof.
  apply (@merge_duplicates_keys_distinct py_round8
           [(0, 0, 1); (0, 1, 0); (1, 0, 0); (0, 0, 1)]%float
           [(0, 1, 2); (3, 1, 2); (0, 3, 1)]%Z
           [(0, 0, 1); (0, 1, 0); (1, 0, 0)]%float
           [(0, 1, 2); (0, 1, 2)]%Z eq_refl 0%nat 2%nat).
  simpl. lia.
Defined.

Lemma merge_duplicates_vertices_witness :
  incl [(0, 0, 1); (0, 1, 0); (1, 0, 0)]%float
       [(0, 0, 1); (0, 1, 0); (1, 0, 0); (0, 0, 1)]%float /\
  (3 <= 4)%Z /\
  exists w : point,
    In w [(0, 0, 1); (0, 1, 0); (1, 0, 0)]%float /\
    key_eqb (key_of py_round8 w) (key_of py_round8 (0, 0, 1)%float) = true.
Proof.
  destruct (@merge_duplicates_vertices py_round8
              [(0, 0, 1); (0, 1, 0); (1, 0, 0); (0, 0, 1)]%float
              [(0, 1, 2); (3, 1, 2); (0, 3, 1)]%Z
              [(0, 0, 1); (0, 1, 0); (1, 0, 0)]%float
              [(0, 1, 2); (0, 1, 2)]%Z eq_refl) as [I [L R]].
  split; [exact I|]. split; [exact L|].
  apply R; [simpl; auto|reflexivity].
Defined.

Lemma merge_duplicates_same_keys_witness :
  Forall (fun g => exists f,
            In f [(0, 1, 2); (3, 1, 2); (0, 3, 1)]%Z /\
            face_same_keys py_round8
              [(0, 0, 1); (0, 1, 0); (1, 0, 0); (0, 0, 1)]%float
              [(0, 0, 1); (0, 1, 0); (1, 0, 0)]%float f g)
         [(0, 1, 2); (0, 1, 2)]%Z.
Proof.
  apply (@merge_duplicates_same_keys py_round8
           [(0, 0, 1); (0, 1, 0); (1, 0, 0); (0, 0, 1)]%float
           [(0, 1, 2); (3, 1, 2); (0, 3, 1)]%Z
           [(0, 0, 1); (0, 1, 0); (1, 0, 0)]%float
           [(0, 1, 2); (0, 1, 2)]%Z).
  vm_compute. reflexivity.
Defined.

Lemma merge_duplicates_fixpoint_witness :
  _merge_duplicates py_round8
    [(0, 0, 1); (0, 1, 0); (1, 0, 0)]%float [(0, 1, 2); (2, 1, 0)]%Z =
  Ok ([(0, 0, 1); (0, 1, 0); (1, 0, 0)]%float, [(0, 1, 2); (2, 1, 0)]%Z).
Proof.
  apply merge_duplicates_fixpoint.
  - apply keys_distinctb_sound. vm_compute. reflexivity.
  - intros v [<-|[<-|[<-|[]]]]; reflexivity.
  - repeat constructor; simpl; lia.
Defined.

Lemma merge_duplicates_degenerate_witness :
  exists (out_verts : list point) (out_faces : list face),
    _merge_duplicates py_round8
      [(0, 0, 1); (0, 1, 0); (1, 0, 0); (0, 0, 1)]%float
      [(0, 1, 2); (3, 1, 2); (0, 3, 1)]%Z = Ok (out_verts, out_faces) /\
    len out_faces = 2%Z.
Proof.
  apply (@merge_duplicates_degenerate py_round8
           [(0, 0, 1); (0, 1, 0); (1, 0, 0); (0, 0, 1)]%float).
  - intros v [<-|[<-|[<-|[<-|[]]]]]; reflexivity.
  - repeat constructor; simpl; lia.
Defined.

Lemma calculate_nonfinite_radius_witness :
  generate infinity 2 = Raise KeyError.
Proof.
  unfold generate.
  apply (@calculate_nonfinite_radius py_round8 libm_cos libm_sin infinity 2);
    [reflexivity|right; left; reflexivity|lia].
Defined.

(** The mesh of radius 10 and frequency 1, by evaluation. *)
Lemma calculate_radius_10_frequency_1 :
  exists mesh : GeodesicCalculator,
    calculate py_round8 libm_cos libm_sin (init 10 1) = Ok mesh /\
    len (faces mesh) = 20%Z.
Proof.
  eexists. split; [vm_compute; reflexivity|]. vm_compute. reflexivity.
Defined.

Lemma calculate_bounds_witness :
  exists mesh : GeodesicCalculator,
    generate 10 1 = Ok mesh /\
    (len (faces mesh) <= 20)%Z /\ (len (points mesh) <= 60)%Z.
Proof.
  destruct calculate_radius_10_frequency_1 as [mesh [E _]].
  exists mesh. split; [exact E|].
  exact (@calculate_bounds py_round8 libm_cos libm_sin (init 10 1) mesh
           (Z.le_0_1) E).
Defined.

Lemma createGeodesicSphere_solid_witness :
  exists made : journal,
    createGeodesicSphere py_round8 libm_cos libm_sin
      (fun _ => 1%Z) (fun _ => Some 1%Z) 10 1 true [] = (made, Ok tt) /\
    count_calls is_sketches_add made = 20%Z /\
    count_calls is_deleteMe made = 20%Z /\
    count_calls is_line made = 60%Z /\
    (count_calls is_stitch made <= 1)%Z /\
    count_calls is_messageBox made = 0%Z.
Proof.
  destruct calculate_radius_10_frequency_1 as [mesh [E L]].
  destruct (@createGeodesicSphere_solid py_round8 libm_cos libm_sin
              (fun _ => 1%Z) (fun _ => Some 1%Z) 10 1 [] mesh E)
    as [made [C [S [D [N [T [M _]]]]]]].
  exists made. rewrite L in S, D, N. cbn [app] in C.
  exact (conj C (conj S (conj D (conj N (conj T M))))).
Defined.

(** [round(x, 8)] of a zero is that zero. *)
Lemma py_round8_zero (x : float) :
  (x =? 0)%float = true -> (py_round8 x =? 0)%float = true.
Proof.
  intros H. pose proof H as Z. apply float_zero_spec in Z.
  destruct Z as [s Z]. unfold py_round8. rewrite Z. exact H.
Qed.

Lemma calculate_radius_sign_witness :
  exists mesh' mesh : GeodesicCalculator,
    calculate py_round8 libm_cos libm_sin (init (- (10)) 1) = Ok mesh' /\
    calculate py_round8 libm_cos libm_sin (init 10 1) = Ok mesh /\
    faces mesh' = faces mesh /\
    Forall2 same_point (points mesh') (points mesh).
Proof.
  destruct calculate_radius_10_frequency_1 as [mesh [E _]].
  assert (C : exists mesh' : GeodesicCalculator,
            calculate py_round8 libm_cos libm_sin (init (- (10)) 1)
            = Ok mesh') by (eexists; vm_compute; reflexivity).
  destruct C as [mesh' E'].
  exists mesh', mesh. split; [exact E'|]. split; [exact E|].
  pose proof (@calculate_radius_sign py_round8 libm_cos libm_sin 10 1
                py_round8_zero) as H.
  rewrite E', E in H. exact H.
Defined.

(** Radius 0: every sample is the zero vector, so the mesh is one vertex
    at the origin and no face. *)
Example generate_radius_zero :
  counts (generate 0 2) = Ok (1, 0)%Z /\
  mesh_points (generate 0 2) = [zero_point].
Proof. split; vm_compute; reflexivity. Qed.

(** With the inputs the dialog offers at first (radius 10, frequency 3, no
    solid) the execute handler draws 180 sketches of three lines each and
    shows no dialog. *)
Example notify_default_inputs :
  exists made : journal,
    notify py_round8 libm_cos libm_sin (fun _ => 0%Z) (fun _ => None)
      default_radius default_frequency default_createSolid [] =
      (made, Ok tt) /\
    count_calls is_sketches_add made = 180%Z /\
    count_calls is_line made = 540%Z /\
    count_calls is_messageBox made = 0%Z.
Proof.
  eexists. split; [vm_compute; reflexivity|].
  split; [|split]; vm_compute; reflexivity.
Qed.
